(** * AI Resume Builder backend: segmentation, keyword density, AI-response
      interpretation and score comparison

    A shallow embedding of the text-processing core of the backend
    ([app/helpers.py], [app/services/pdf_parser.py],
    [app/services/ats_scorer.py], [app/services/ai_enhancer.py]) together
    with the properties its specification states about it.

    Conventions.
    - A Python [str] is a [list ascii]; a character is a code point in the
      range 0..255 (Latin-1), so [len] is [length].  [str.lower],
      [str.isspace] and the regex class [\s] are the Unicode ones restricted
      to that range.
    - A [dict] with string keys is a [gmap str _]; an ordered table that is
      iterated with [.items()] is an association list.
    - A [float] is a primitive IEEE-754 binary64 number.
    - Code inside [try] runs in the [Outcome] monad; the handlers of the
      enclosing [except] clauses are applied by [try_except]. *)

From Stdlib Require Import Floats ZArith Ascii String List Bool Lia DecimalString.
From stdpp Require Import gmap strings list.

Local Open Scope list_scope.
Local Open Scope char_scope.

(** ** Python built-ins used by the services *)

Module Py.

Abbreviation str := (list ascii).

(** String literals are written as Rocq strings and read as [str]. *)
Definition s (x : string) : str := list_ascii_of_string x.

Definition code (c : ascii) : N := N_of_ascii c.

(** [str.isspace] on one character: the code points below 256 that
    Unicode classes as whitespace. *)
Definition isspace (c : ascii) : bool :=
  let n := code c in
  ((9 <=? n) && (n <=? 13) || (28 <=? n) && (n <=? 32)
   || (n =? 133) || (n =? 160))%N.

(** [str.lower] on one character: A-Z, and the Latin-1 capitals
    U+00C0..U+00DE except the multiplication sign U+00D7. *)
Definition lower_char (c : ascii) : ascii :=
  let n := code c in
  if ((65 <=? n) && (n <=? 90)
      || (192 <=? n) && (n <=? 222) && negb (n =? 215))%N
  then ascii_of_N (n + 32) else c.

Definition lower (t : str) : str := map lower_char t.

Fixpoint lstrip (t : str) : str :=
  match t with
  | c :: r => if isspace c then lstrip r else t
  | [] => []
  end.

Definition rstrip (t : str) : str := rev (lstrip (rev t)).

(** [t.strip()] *)
Definition strip (t : str) : str := rstrip (lstrip t).

(** [t.split(sep)] for a one-character separator: never empty. *)
Fixpoint split_on (sep : ascii) (t : str) : list str :=
  match t with
  | [] => [[]]
  | c :: r =>
      if Ascii.eqb c sep then [] :: split_on sep r
      else match split_on sep r with
           | w :: ws => (c :: w) :: ws
           | [] => [[c]]
           end
  end.

(** [t.split()]: the maximal runs of non-whitespace characters. *)
Fixpoint split (t : str) : list str :=
  match t with
  | [] => []
  | c :: r =>
      if isspace c then split r
      else match r with
           | [] => [[c]]
           | c' :: _ =>
               if isspace c' then [c] :: split r
               else match split r with
                    | w :: ws => (c :: w) :: ws
                    | [] => [[c]]
                    end
           end
  end.

(** [sep.join(parts)] *)
Fixpoint join (sep : str) (parts : list str) : str :=
  match parts with
  | [] => []
  | [p] => p
  | p :: rest => p ++ sep ++ join sep rest
  end.

Section Substring.
Context {A : Type} `{EqDecision A}.

(** [t.startswith(p)] *)
Fixpoint startswith (t p : list A) : bool :=
  match p, t with
  | [], _ => true
  | a :: p', b :: t' => bool_decide (a = b) && startswith t' p'
  | _ :: _, [] => false
  end.

(** [needle in hay] on strings: substring test. *)
Fixpoint contains (needle hay : list A) : bool :=
  startswith hay needle
  || match hay with
     | [] => false
     | _ :: r => contains needle r
     end.
End Substring.

(** Truth value of a string and of a list. *)
Definition truthy {A} (l : list A) : bool :=
  match l with [] => false | _ :: _ => true end.

(** Truth value of a variable that holds [None] or a string. *)
Definition truthy_opt (o : option str) : bool :=
  match o with Some t => truthy t | None => false end.

Definition newline : ascii := "010".
Definition dquote : ascii := "034".

(** Exceptions, by the classes the handlers of the services tell apart. *)
Inductive exn : Type :=
| JSONDecodeError            (* json.JSONDecodeError *)
| OtherException.            (* any other subclass of Exception *)

Inductive Outcome (A : Type) : Type :=
| Return (a : A)
| Raise (e : exn).
Arguments Return {A} a.
Arguments Raise {A} e.

#[global] Instance outcome_ret : MRet Outcome := fun A a => Return a.
#[global] Instance outcome_bind : MBind Outcome := fun A B k m =>
  match m with
  | Return a => k a
  | Raise e => Raise e
  end.

(** [try: body  except JSONDecodeError: h1  except Exception: h2]. *)
Definition try_except {A} (body : Outcome A) (h1 h2 : Outcome A) : Outcome A :=
  match body with
  | Return a => Return a
  | Raise JSONDecodeError => h1
  | Raise OtherException => h2
  end.

End Py.

Import Py.

(** ** Python floats: formatting and rounding

    A float is read as the exact rational it denotes; the format
    specification [.1f] and the built-in [round] round that rational
    half-to-even at the requested decimal place, as the interpreter does. *)

Module PyFloat.

(** [m * 10^d * 2^e] rounded half-to-even to an integer ([m] positive). *)
Definition scaled_round (d : Z) (m : positive) (e : Z) : Z :=
  let num := (Z.pos m * 10 ^ d)%Z in
  if (0 <=? e)%Z then (num * 2 ^ e)%Z
  else
    let den := (2 ^ (- e))%Z in
    let q := (num / den)%Z in
    let r := (num mod den)%Z in
    if (2 * r <? den)%Z then q
    else if (den <? 2 * r)%Z then (q + 1)%Z
    else if Z.even q then q else (q + 1)%Z.

(** [str(n)] for a natural number. *)
Definition decimal (n : Z) : str :=
  list_ascii_of_string (NilEmpty.string_of_uint (N.to_uint (Z.to_N n))).

Definition sign (negative : bool) : str := if negative then s "-" else s "".

(** [f"{x:.1f}"] *)
Definition format_1f (x : float) : str :=
  match Prim2SF x with
  | S754_nan => s "nan"
  | S754_infinity sg => sign sg ++ s "inf"
  | S754_zero sg => sign sg ++ s "0.0"
  | S754_finite sg m e =>
      let n := scaled_round 1 m e in
      sign sg ++ decimal (n / 10) ++ s "." ++ decimal (n mod 10)
  end.

Definition of_Z (z : Z) : float := PrimFloat.of_uint63 (Uint63.of_Z z).

(** [int] to [float], for a count below 2^53. *)
Definition of_nat (n : nat) : float := of_Z (Z.of_nat n).

(** [round(x, 2)] for a float below 2^46 in magnitude: the float nearest
    to the rational rounded at the second decimal. *)
Definition round2 (x : float) : float :=
  match Prim2SF x with
  | S754_finite sg m e =>
      if (0 <=? e)%Z then x
      else
        let r := (of_Z (scaled_round 2 m e) / 100)%float in
        if sg then (- r)%float else r
  | _ => x
  end.

End PyFloat.

(** ** Python's [re]: the fragment the services use

    A backtracking matcher in continuation-passing style: alternatives are
    tried left to right, a greedy repetition tries the longest run first, a
    lazy one the shortest, and a failure of the continuation backtracks into
    the last choice, as [re] does. *)

Module Re.

Record flags : Type := Flags { IGNORECASE : bool; DOTALL : bool }.

(** What matches exactly one character. *)
Inductive atom : Type :=
| Chr (c : ascii)     (* a literal character *)
| Space               (* \s *)
| Dot.                (* . *)

Inductive regex : Type :=
| Eps                          (* the empty pattern *)
| One (a : atom)               (* a *)
| Star (a : atom)              (* a*, greedy *)
| StarLazy (a : atom)          (* a*?, lazy *)
| Seq (r1 r2 : regex)          (* r1 r2 *)
| Alt (r1 r2 : regex)          (* r1|r2 *)
| Group (r : regex)            (* (r), capturing group 1 *)
| Lookahead (r : regex)        (* (?=r) *)
| Dollar.                      (* $ without MULTILINE *)

Definition atom_match (f : flags) (a : atom) (c : ascii) : bool :=
  match a with
  | Chr x =>
      if IGNORECASE f then Ascii.eqb (lower_char x) (lower_char c)
      else Ascii.eqb x c
  | Space => isspace c
  | Dot => DOTALL f || negb (Ascii.eqb c newline)
  end.

(** [$]: at the end of the text, or just before a newline that ends it. *)
Definition at_end (t : str) : bool :=
  match t with
  | [] => true
  | [c] => Ascii.eqb c newline
  | _ => false
  end.

(** The text consumed between the suffix [t] and its suffix [t']. *)
Definition consumed (t t' : str) : str := take (length t - length t') t.

Section Matcher.
Variable f : flags.

Fixpoint star {R} (a : atom) (k : str -> option R) (t : str) : option R :=
  match t with
  | c :: t' =>
      if atom_match f a c
      then match star a k t' with
           | Some x => Some x
           | None => k t
           end
      else k t
  | [] => k t
  end.

Fixpoint star_lazy {R} (a : atom) (k : str -> option R) (t : str) : option R :=
  match k t with
  | Some x => Some x
  | None =>
      match t with
      | c :: t' => if atom_match f a c then star_lazy a k t' else None
      | [] => None
      end
  end.

(** [matches r t g k]: match [r] at the front of [t], with [g] the
    current content of group 1, and hand the rest of the text and the
    group to [k]. *)
Fixpoint matches {R} (r : regex) (t : str) (g : option str)
         (k : str -> option str -> option R) : option R :=
  match r with
  | Eps => k t g
  | One a =>
      match t with
      | c :: t' => if atom_match f a c then k t' g else None
      | [] => None
      end
  | Star a => star a (fun t' => k t' g) t
  | StarLazy a => star_lazy a (fun t' => k t' g) t
  | Seq r1 r2 => matches r1 t g (fun t' g' => matches r2 t' g' k)
  | Alt r1 r2 =>
      match matches r1 t g k with
      | Some x => Some x
      | None => matches r2 t g k
      end
  | Group r1 => matches r1 t g (fun t' _ => k t' (Some (consumed t t')))
  | Lookahead r1 =>
      match matches r1 t g (fun _ g' => Some g') with
      | Some g' => k t g'
      | None => None
      end
  | Dollar => if at_end t then k t g else None
  end.

(** A match object: [group(0)] and [group(1)] ([None] when group 1 took
    no part in the match). *)
Record Match : Type := MkMatch { group0 : str; group1 : option str }.

Definition match_at (r : regex) (t : str) : option Match :=
  matches r t None (fun t' g => Some (MkMatch (consumed t t') g)).

(** [re.search]: the match at the leftmost position that has one. *)
Fixpoint search_from (r : regex) (t : str) : option Match :=
  match match_at r t with
  | Some m => Some m
  | None =>
      match t with
      | _ :: t' => search_from r t'
      | [] => None
      end
  end.
End Matcher.

Definition search (r : regex) (t : str) (f : flags) : option Match :=
  search_from f r t.

(** Pattern syntax. *)
Definition lit (x : string) : regex :=
  fold_right (fun c r => Seq (One (Chr c)) r) Eps (s x).
Definition plus (a : atom) : regex := Seq (One a) (Star a).
Fixpoint alt (r : regex) (rs : list regex) : regex :=
  match rs with
  | [] => r
  | r' :: rs' => Alt r (alt r' rs')
  end.
Fixpoint seq (rs : list regex) : regex :=
  match rs with
  | [] => Eps
  | [r] => r
  | r :: rs' => Seq r (seq rs')
  end.

End Re.

(** ** Python's [json.loads]

    The decoder of the standard library with its default settings (strict
    strings, the constants [NaN], [Infinity] and [-Infinity] accepted, the
    limit of 4300 digits on the conversion of an integer literal).  The
    interpreter's limit on the nesting depth is not modelled. *)

Module Json.

(** A decoded string: its code points (an escape [\uXXXX] can leave the
    range of the input characters). *)
Abbreviation ustr := (list N).

Definition u (x : string) : ustr := map code (s x).

#[warnings="-register-all"]
Inductive json : Type :=
| JNull
| JBool (b : bool)
| JInt (z : Z)
| JFloat (lexeme : str)        (* float(lexeme) *)
| JStr (v : ustr)
| JArr (items : list json)
| JObj (pairs : list (ustr * json)).

Definition ustr_eqb (a b : ustr) : bool := bool_decide (a = b).

(** [d[key] = value] on a dictionary kept in insertion order. *)
Fixpoint dict_set (d : list (ustr * json)) (key : ustr) (value : json)
  : list (ustr * json) :=
  match d with
  | [] => [(key, value)]
  | (k, v) :: d' =>
      if ustr_eqb k key then (k, value) :: d'
      else (k, v) :: dict_set d' key value
  end.

(** [dict(pairs)] *)
Definition dict (pairs : list (ustr * json)) : list (ustr * json) :=
  fold_left (fun d kv => dict_set d (fst kv) (snd kv)) pairs [].

(** [d.get(key)] *)
Fixpoint dict_get (d : list (ustr * json)) (key : ustr) : option json :=
  match d with
  | [] => None
  | (k, v) :: d' => if ustr_eqb k key then Some v else dict_get d' key
  end.

(** Result of a scanning function: a value and the rest of the text, an
    exception, or not enough fuel. *)
Inductive pres (A : Type) : Type :=
| POk (a : A) (rest : str)
| PErr (e : exn)
| PFuel.
Arguments POk {A} a rest.
Arguments PErr {A} e.
Arguments PFuel {A}.

Definition is_ws (c : ascii) : bool :=
  Ascii.eqb c " " || Ascii.eqb c "009" || Ascii.eqb c "010" || Ascii.eqb c "013".

(** [WHITESPACE.match(s, end).end()] *)
Fixpoint skip_ws (t : str) : str :=
  match t with
  | c :: r => if is_ws c then skip_ws r else t
  | [] => []
  end.

Definition is_digit (c : ascii) : bool := (48 <=? code c)%N && (code c <=? 57)%N.

Definition hexval (c : ascii) : option N :=
  let n := code c in
  if (48 <=? n)%N && (n <=? 57)%N then Some (n - 48)%N
  else if (65 <=? n)%N && (n <=? 70)%N then Some (n - 55)%N
  else if (97 <=? n)%N && (n <=? 102)%N then Some (n - 87)%N
  else None.

Definition hex4 (a b c d : ascii) : option N :=
  match hexval a, hexval b, hexval c, hexval d with
  | Some x, Some y, Some z, Some w => Some (((x * 16 + y) * 16 + z) * 16 + w)%N
  | _, _, _, _ => None
  end.

(** The table [BACKSLASH] of one-character escapes. *)
Definition backslash (e : ascii) : option N :=
  if Ascii.eqb e dquote then Some 34%N
  else if Ascii.eqb e "\" then Some 92%N
  else if Ascii.eqb e "/" then Some 47%N
  else if Ascii.eqb e "b" then Some 8%N
  else if Ascii.eqb e "f" then Some 12%N
  else if Ascii.eqb e "n" then Some 10%N
  else if Ascii.eqb e "r" then Some 13%N
  else if Ascii.eqb e "t" then Some 9%N
  else None.

Definition cons_char (c : N) (r : option (ustr * str)) : option (ustr * str) :=
  match r with
  | Some (v, rest) => Some (c :: v, rest)
  | None => None
  end.

(** [scanstring(s, end)] in strict mode, [t] being the text after the
    opening quote; [None] is a [JSONDecodeError]. *)
Fixpoint scanstring (t : str) : option (ustr * str) :=
  match t with
  | [] => None
  | c :: r =>
      if Ascii.eqb c dquote then Some ([], r)
      else if Ascii.eqb c "\" then
        match r with
        | [] => None
        | e :: r1 =>
            if Ascii.eqb e "u" then
              match r1 with
              | h1 :: h2 :: h3 :: h4 :: r2 =>
                  match hex4 h1 h2 h3 h4 with
                  | None => None
                  | Some uni =>
                      if (55296 <=? uni)%N && (uni <=? 56319)%N then
                        match r2 with
                        | b :: x :: l1 :: l2 :: l3 :: l4 :: r3 =>
                            if Ascii.eqb b "\" && Ascii.eqb x "u" then
                              match hex4 l1 l2 l3 l4 with
                              | None => None
                              | Some uni2 =>
                                  if (56320 <=? uni2)%N && (uni2 <=? 57343)%N
                                  then cons_char
                                         (65536 + ((uni - 55296) * 1024
                                                   + (uni2 - 56320)))%N
                                         (scanstring r3)
                                  else cons_char uni (scanstring r2)
                              end
                            else cons_char uni (scanstring r2)
                        | _ => cons_char uni (scanstring r2)
                        end
                      else cons_char uni (scanstring r2)
                  end
              | _ => None
              end
            else
              match backslash e with
              | Some ch => cons_char ch (scanstring r1)
              | None => None
              end
        end
      else if (code c <? 32)%N then None
      else cons_char (code c) (scanstring r)
  end.

(** The longest run of digits at the front of [t], and what follows. *)
Fixpoint span_digits (t : str) : str * str :=
  match t with
  | c :: r =>
      if is_digit c then let '(ds, rest) := span_digits r in (c :: ds, rest)
      else ([], t)
  | [] => ([], [])
  end.

Definition digit_value (c : ascii) : Z := (Z.of_N (code c) - 48)%Z.

(** [int(digits)] for a run of decimal digits. *)
Definition int_of_digits (ds : str) : Z :=
  fold_left (fun acc c => 10 * acc + digit_value c)%Z ds 0%Z.

(** The integer part: an optional minus sign, then [0] or a digit
    [1-9] followed by digits. *)
Definition match_integer (t : str) : option (str * str) :=
  let '(sign, t1) :=
    match t with
    | c :: r => if Ascii.eqb c "-" then ([c], r) else ([], t)
    | [] => ([], t)
    end in
  match t1 with
  | c :: r =>
      if Ascii.eqb c "0" then Some (sign ++ [c], r)
      else if is_digit c then
        let '(ds, rest) := span_digits r in Some (sign ++ c :: ds, rest)
      else None
  | [] => None
  end.

(** The optional fraction: a dot and at least one digit. *)
Definition match_frac (t : str) : str * str :=
  match t with
  | c :: d :: r =>
      if Ascii.eqb c "." && is_digit d then
        let '(ds, rest) := span_digits r in (c :: d :: ds, rest)
      else ([], t)
  | _ => ([], t)
  end.

(** The optional exponent: [e] or [E], an optional sign, and at least
    one digit. *)
Definition match_exp (t : str) : str * str :=
  match t with
  | e :: c :: r =>
      if Ascii.eqb e "e" || Ascii.eqb e "E" then
        if is_digit c then
          let '(ds, rest) := span_digits r in (e :: c :: ds, rest)
        else if Ascii.eqb c "-" || Ascii.eqb c "+" then
          match r with
          | d :: r' =>
              if is_digit d then
                let '(ds, rest) := span_digits r' in (e :: c :: d :: ds, rest)
              else ([], t)
          | [] => ([], t)
          end
        else ([], t)
      else ([], t)
  | _ => ([], t)
  end.

Definition max_str_digits : nat := 4300.

(** [match_number] and the conversion of what it matched. *)
Definition scan_number (t : str) : option (pres json) :=
  match match_integer t with
  | None => None
  | Some (integer, t1) =>
      let '(frac, t2) := match_frac t1 in
      let '(exp, t3) := match_exp t2 in
      if truthy frac || truthy exp
      then Some (POk (JFloat (integer ++ frac ++ exp)) t3)
      else
        match integer with
        | c :: ds =>
            if Ascii.eqb c "-" then
              if (max_str_digits <? length ds)%nat then Some (PErr OtherException)
              else Some (POk (JInt (- int_of_digits ds)) t3)
            else
              if (max_str_digits <? length integer)%nat then Some (PErr OtherException)
              else Some (POk (JInt (int_of_digits integer)) t3)
        | [] => None
        end
  end.

Definition head_is (c : ascii) (t : str) : bool :=
  match t with
  | x :: _ => Ascii.eqb x c
  | [] => false
  end.

(** [scan_once], and the loops of [JSONObject] and [JSONArray] over the
    members of an object and the items of an array. *)
Fixpoint scan_once (fuel : nat) (t : str) : pres json :=
  match fuel with
  | O => PFuel
  | S fuel' =>
      match t with
      | [] => PErr JSONDecodeError
      | c :: r =>
          if Ascii.eqb c dquote then
            match scanstring r with
            | Some (v, rest) => POk (JStr v) rest
            | None => PErr JSONDecodeError
            end
          else if Ascii.eqb c "{" then
            let t1 := skip_ws r in
            if head_is "}" t1 then POk (JObj []) (tail t1)
            else if head_is dquote t1 then object_loop fuel' (tail t1) []
            else PErr JSONDecodeError
          else if Ascii.eqb c "[" then
            let t1 := skip_ws r in
            if head_is "]" t1 then POk (JArr []) (tail t1)
            else array_loop fuel' t1 []
          else if startswith t (s "null") then POk JNull (drop 4 t)
          else if startswith t (s "true") then POk (JBool true) (drop 4 t)
          else if startswith t (s "false") then POk (JBool false) (drop 5 t)
          else
            match scan_number t with
            | Some res => res
            | None =>
                if startswith t (s "NaN") then POk (JFloat (s "NaN")) (drop 3 t)
                else if startswith t (s "Infinity")
                then POk (JFloat (s "Infinity")) (drop 8 t)
                else if startswith t (s "-Infinity")
                then POk (JFloat (s "-Infinity")) (drop 9 t)
                else PErr JSONDecodeError
            end
      end
  end

with object_loop (fuel : nat) (t : str) (pairs : list (ustr * json)) : pres json :=
  match fuel with
  | O => PFuel
  | S fuel' =>
      match scanstring t with
      | None => PErr JSONDecodeError
      | Some (key, t1) =>
          let t2 := skip_ws t1 in
          if negb (head_is ":" t2) then PErr JSONDecodeError
          else
            match scan_once fuel' (skip_ws (tail t2)) with
            | POk value t3 =>
                let pairs' := pairs ++ [(key, value)] in
                let t4 := skip_ws t3 in
                if head_is "}" t4 then POk (JObj (dict pairs')) (tail t4)
                else if negb (head_is "," t4) then PErr JSONDecodeError
                else
                  let t5 := skip_ws (tail t4) in
                  if head_is dquote t5 then object_loop fuel' (tail t5) pairs'
                  else PErr JSONDecodeError
            | PErr e => PErr e
            | PFuel => PFuel
            end
      end
  end

with array_loop (fuel : nat) (t : str) (values : list json) : pres json :=
  match fuel with
  | O => PFuel
  | S fuel' =>
      match scan_once fuel' t with
      | POk value t1 =>
          let values' := values ++ [value] in
          let t2 := skip_ws t1 in
          if head_is "]" t2 then POk (JArr values') (tail t2)
          else if negb (head_is "," t2) then PErr JSONDecodeError
          else array_loop fuel' (skip_ws (tail t2)) values'
      | PErr e => PErr e
      | PFuel => PFuel
      end
  end.

Definition fuel_for (t : str) : nat := 2 * length t + 2.

(** [json.loads(t)] *)
Definition loads (t : str) : Outcome json :=
  match scan_once (fuel_for t) (skip_ws t) with
  | POk v rest =>
      match skip_ws rest with
      | [] => Return v
      | _ :: _ => Raise JSONDecodeError
      end
  | PErr e => Raise e
  | PFuel => Raise OtherException
  end.

(** [len(v)] *)
Definition len (v : json) : Outcome nat :=
  match v with
  | JStr x => Return (length x)
  | JArr items => Return (length items)
  | JObj pairs => Return (length pairs)
  | _ => Raise OtherException
  end.

(** [v.get(key, default)]: only a [dict] has the method. *)
Definition get (v : json) (key : ustr) (default : json) : Outcome json :=
  match v with
  | JObj pairs => Return (match dict_get pairs key with Some x => x | None => default end)
  | _ => Raise OtherException
  end.

End Json.

(** ** More Python built-ins: slices and one-character replacement *)

Module PySeq.

(** [t[:k]]: a negative [k] counts from the end. *)
Definition slice_to {A} (t : list A) (k : Z) : list A :=
  if (0 <=? k)%Z then take (Z.to_nat k) t
  else take (Z.to_nat (Z.of_nat (length t) + k)) t.

(** [t.replace(a, b)] for one-character strings [a] and [b]. *)
Definition replace_char (a b : ascii) (t : str) : str :=
  map (fun c => if Ascii.eqb c a then b else c) t.

End PySeq.

(** ** Python's [re] on a pattern that is one character class *)

Module ReClass.

(** [\w]: the code points below 256 that Unicode classes as
    alphanumeric, and the underscore. *)
Definition isword (c : ascii) : bool :=
  let n := code c in
  ((48 <=? n) && (n <=? 57) || (65 <=? n) && (n <=? 90) || (n =? 95)
   || (97 <=? n) && (n <=? 122) || (n =? 170) || (178 <=? n) && (n <=? 179)
   || (n =? 181) || (185 <=? n) && (n <=? 186) || (188 <=? n) && (n <=? 190)
   || (192 <=? n) && (n <=? 214) || (216 <=? n) && (n <=? 246)
   || (248 <=? n))%N.

(** [\d]: below 256 the decimal digits are 0 to 9. *)
Definition isdigit (c : ascii) : bool :=
  let n := code c in ((48 <=? n) && (n <=? 57))%N.

(** [re.sub(cls, repl, t)]: every character of the class is replaced. *)
Definition sub (cls : ascii -> bool) (repl t : str) : str :=
  flat_map (fun c => if cls c then repl else [c]) t.

(** [re.findall(cls, t)]: the characters of the class, each as a string. *)
Definition findall (cls : ascii -> bool) (t : str) : list str :=
  map (fun c => [c]) (List.filter cls t).

End ReClass.

(** ** Python's [re] on the patterns built from character classes

    The same backtracking matcher as [Re], for the patterns of the e-mail
    and phone functions: their atoms are character classes, and [^] and
    [\b] look at the character before the position, which the matcher
    carries along with the rest of the text. *)

Module Rx.

Inductive regex : Type :=
| Eps
| One (cls : ascii -> bool)     (* [cls] *)
| Opt (cls : ascii -> bool)     (* [cls]?, greedy *)
| Star (cls : ascii -> bool)    (* [cls]*, greedy *)
| Seq (r1 r2 : regex)
| Bol                           (* ^ without MULTILINE *)
| Eol                           (* $ without MULTILINE *)
| WordB.                        (* \b *)

Definition word_at (o : option ascii) : bool :=
  match o with
  | Some c => ReClass.isword c
  | None => false
  end.

(** [\b]: exactly one of the characters before and after the position is
    a word character; the ends of the text count as none. *)
Definition at_boundary (prev : option ascii) (t : str) : bool :=
  xorb (word_at prev) (word_at (head t)).

Section Matcher.
Context {R : Type}.

Fixpoint star (cls : ascii -> bool) (k : option ascii -> str -> option R)
    (prev : option ascii) (t : str) : option R :=
  match t with
  | c :: t' =>
      if cls c then
        match star cls k (Some c) t' with
        | Some r => Some r
        | None => k prev t
        end
      else k prev t
  | [] => k prev t
  end.

Fixpoint matches (r : regex) (k : option ascii -> str -> option R)
    (prev : option ascii) (t : str) : option R :=
  match r with
  | Eps => k prev t
  | One cls =>
      match t with
      | c :: t' => if cls c then k (Some c) t' else None
      | [] => None
      end
  | Opt cls =>
      match t with
      | c :: t' =>
          if cls c then
            match k (Some c) t' with
            | Some r => Some r
            | None => k prev t
            end
          else k prev t
      | [] => k prev t
      end
  | Star cls => star cls k prev t
  | Seq r1 r2 => matches r1 (matches r2 k) prev t
  | Bol => match prev with None => k prev t | Some _ => None end
  | Eol => if Re.at_end t then k prev t else None
  | WordB => if at_boundary prev t then k prev t else None
  end.

End Matcher.

(** The text [r] matches at the position before [t], if it matches
    there. *)
Definition match_at (r : regex) (prev : option ascii) (t : str) : option str :=
  matches r (fun _ rest => Some (Re.consumed t rest)) prev t.

(** The leftmost match at or after the position before [t]. *)
Fixpoint search_from (r : regex) (prev : option ascii) (t : str) : option str :=
  match match_at r prev t with
  | Some m => Some m
  | None =>
      match t with
      | c :: t' => search_from r (Some c) t'
      | [] => None
      end
  end.

(** [re.match(r, t)], as the text matched. *)
Definition rmatch (r : regex) (t : str) : option str := match_at r None t.

(** The first item of [re.findall(r, t)] for a pattern without groups:
    the leftmost match. *)
Definition first_found (r : regex) (t : str) : option str :=
  search_from r None t.

(** [re.findall(r, t)] for a pattern without groups, from the position
    before [t], of which [skip] characters belong to the last match: the
    matches from left to right, each search starting where the last match
    ended, and one character further on after an empty match.  (A
    pattern of this program that matches the empty string at a position
    matches nothing longer there.) *)
Fixpoint findall_from (r : regex) (prev : option ascii) (t : str)
    (skip : nat) {struct t} : list str :=
  match skip with
  | S skip' =>
      match t with
      | c :: t' => findall_from r (Some c) t' skip'
      | [] => []
      end
  | O =>
      match match_at r prev t with
      | Some m =>
          m :: match t with
               | c :: t' => findall_from r (Some c) t' (pred (length m))
               | [] => []
               end
      | None =>
          match t with
          | c :: t' => findall_from r (Some c) t' 0
          | [] => []
          end
      end
  end.

Definition findall (r : regex) (t : str) : list str := findall_from r None t 0.

Definition seq (rs : list regex) : regex := fold_right Seq Eps rs.

(** [[cls]+] *)
Definition plus (cls : ascii -> bool) : regex := Seq (One cls) (Star cls).

(** [[cls]{n,}] *)
Fixpoint at_least (n : nat) (cls : ascii -> bool) : regex :=
  match n with
  | O => Star cls
  | S n' => Seq (One cls) (at_least n' cls)
  end.

Definition chr (a : ascii) : ascii -> bool := Ascii.eqb a.

(** [[A-Za-z]] and [[A-Za-z0-9]] *)
Definition letter (c : ascii) : bool :=
  let n := code c in
  ((65 <=? n) && (n <=? 90) || (97 <=? n) && (n <=? 122))%N.

Definition alnum (c : ascii) : bool :=
  let n := code c in letter c || ((48 <=? n) && (n <=? 57))%N.

End Rx.

(** ** [app/helpers.py] *)

Module Helpers.
Import Re.

Definition sections0 : gmap str str :=
  <[s "certifications" := s ""]>
    (<[s "projects" := s ""]>
       (<[s "skills" := s ""]>
          (<[s "education" := s ""]>
             (<[s "experience" := s ""]>
                (<[s "summary" := s ""]> ∅))))).

Definition ws : regex := plus Space.                        (* \s+ *)
Definition body : regex := Group (StarLazy Dot).            (* (.*?) *)

(** [section_patterns], in the order [.items()] yields it. *)
Definition section_patterns : list (str * regex) :=
  [ (s "summary",
      seq [ alt (seq [lit "professional"; ws; lit "summary"])
                [lit "objective"; lit "about"; lit "profile"];
            body;
            Lookahead (alt (seq [lit "professional"; ws; lit "experience"])
                           [lit "education"; lit "skills"; lit "projects";
                            lit "certification"; Dollar]) ]);
    (s "experience",
      seq [ alt (seq [lit "professional"; ws; lit "experience"])
                [seq [lit "work"; ws; lit "history"]; lit "employment"];
            body;
            Lookahead (alt (lit "education")
                           [lit "skills"; lit "projects";
                            lit "certification"; Dollar]) ]);
    (s "education",
      seq [ alt (lit "education") [lit "academic"];
            body;
            Lookahead (alt (lit "skills")
                           [lit "projects"; lit "certification"; Dollar]) ]);
    (s "skills",
      seq [ alt (lit "skills") [seq [lit "technical"; ws; lit "skills"]];
            body;
            Lookahead (alt (lit "projects") [lit "certification"; Dollar]) ]);
    (s "projects",
      seq [ alt (lit "projects")
                [lit "portfolio"; seq [lit "work"; ws; lit "samples"]];
            body;
            Lookahead (alt (lit "certification") [Dollar]) ]);
    (s "certifications",
      seq [ alt (lit "certification") [lit "license"];
            body;
            Dollar ]) ].

(** [match.group(1).strip()]; [None] has no [strip]. *)
Definition group1_strip (m : Match) : Outcome str :=
  match group1 m with
  | Some g => Return (strip g)
  | None => Raise OtherException
  end.

(** One iteration of [for section, pattern in section_patterns.items()]. *)
Definition extract_step (text : str) (acc : Outcome (gmap str str))
           (entry : str * regex) : Outcome (gmap str str) :=
  sections ← acc;
  match search (snd entry) text (Flags true true) with
  | Some m =>
      v ← group1_strip m;
      mret (<[fst entry := v]> sections)
  | None => mret sections
  end.

Definition extract_text_sections (text : str) : Outcome (gmap str str) :=
  fold_left (extract_step text) section_patterns (Return sections0).

Definition get_keyword_density (text keyword : str) : float :=
  let words := split (lower text) in
  let keyword_lower := lower keyword in
  if (length words =? 0)%nat then 0%float
  else
    let keyword_count :=
      length (filter (fun w => Is_true (contains keyword_lower w)) words) in
    let density :=
      (PyFloat.of_nat keyword_count / PyFloat.of_nat (length words) * 100)%float in
    PyFloat.round2 density.

(** The class [[^\w\s.-]] of [sanitize_filename]. *)
Definition unsafe_char (c : ascii) : bool :=
  negb (ReClass.isword c || isspace c || Ascii.eqb c "." || Ascii.eqb c "-").

Definition sanitize_filename (filename : str) : str :=
  let safe_name := ReClass.sub unsafe_char [] filename in
  let safe_name := PySeq.replace_char " " "_" safe_name in
  PySeq.slice_to safe_name 255.

Definition truncate_text (text : str) (max_length : Z) (suffix : str) : str :=
  if (Z.of_nat (length text) <=? max_length)%Z then text
  else PySeq.slice_to text (max_length - Z.of_nat (length suffix)) ++ suffix.

(** [r'\b' + re.escape(keyword) + r'\b']: the keyword, character by
    character, between two word boundaries. *)
Definition keyword_pattern (keyword : str) : Rx.regex :=
  Rx.seq ([Rx.WordB] ++ map (fun c => Rx.One (Rx.chr c)) keyword
          ++ [Rx.WordB]).

Definition count_keywords (text : str) (keywords : list str) : gmap str nat :=
  let text_lower := lower text in
  fold_left
    (fun (counts : gmap str nat) keyword =>
       let pattern := keyword_pattern (lower keyword) in
       let matches := Rx.findall pattern text_lower in
       <[keyword := length matches]> counts)
    keywords ∅.

(** The classes [[a-zA-Z0-9._%+-]] and [[a-zA-Z0-9.-]] of the e-mail
    patterns. *)
Definition local_char (c : ascii) : bool :=
  Rx.alnum c || Ascii.eqb c "." || Ascii.eqb c "_" || Ascii.eqb c "%"
  || Ascii.eqb c "+" || Ascii.eqb c "-".

Definition domain_char (c : ascii) : bool :=
  Rx.alnum c || Ascii.eqb c "." || Ascii.eqb c "-".

(** [^[a-zA-Z0-9._%+-]+@[a-zA-Z0-9.-]+\.[a-zA-Z]{2,}$] *)
Definition email_pattern : Rx.regex :=
  Rx.seq [ Rx.Bol; Rx.plus local_char; Rx.One (Rx.chr "@");
           Rx.plus domain_char; Rx.One (Rx.chr ".");
           Rx.at_least 2 Rx.letter; Rx.Eol ].

Definition validate_email (email : str) : bool :=
  match Rx.rmatch email_pattern email with
  | Some _ => true
  | None => false
  end.

(** The class [[\s\-\(\).]] of [validate_phone]. *)
Definition separator (c : ascii) : bool :=
  isspace c || Ascii.eqb c "-" || Ascii.eqb c "(" || Ascii.eqb c ")"
  || Ascii.eqb c ".".

Definition validate_phone (phone : str) : bool :=
  let cleaned := ReClass.sub separator [] phone in
  (10 <=? length (ReClass.findall ReClass.isdigit cleaned))%nat.

(** The table [keywords] of [extract_ats_keywords], in the order
    [.items()] yields it. *)
Definition keywords : list (str * list str) :=
  [ (s "programming_languages",
      [s "python"; s "javascript"; s "java"; s "csharp"; s "c++"; s "ruby";
       s "php"; s "swift"; s "kotlin"; s "golang"; s "rust"; s "typescript";
       s "sql"]);
    (s "frameworks",
      [s "react"; s "angular"; s "vue"; s "django"; s "flask"; s "fastapi";
       s "spring"; s "express"; s "laravel"; s "asp.net"]);
    (s "databases",
      [s "sql"; s "mysql"; s "postgresql"; s "mongodb"; s "redis";
       s "firebase"; s "dynamodb"; s "elasticsearch"; s "cassandra"]);
    (s "tools",
      [s "git"; s "docker"; s "kubernetes"; s "jenkins"; s "gitlab";
       s "github"; s "jira"; s "aws"; s "azure"; s "gcp"; s "linux"; s "unix"]);
    (s "soft_skills",
      [s "leadership"; s "communication"; s "teamwork"; s "problem solving";
       s "project management"; s "critical thinking"; s "collaboration"]) ].

(** The inner loop: the keywords of one list that occur in the text. *)
Definition found_in (text_lower : str) (keyword_list : list str) : list str :=
  fold_left
    (fun found keyword =>
       if contains keyword text_lower then found ++ [keyword] else found)
    keyword_list [].

Definition extract_ats_keywords (resume_text : str) : gmap str (list str) :=
  let text_lower := lower resume_text in
  fold_left
    (fun (found_keywords : gmap str (list str)) entry =>
       <[fst entry := found_in text_lower (snd entry)]> found_keywords)
    keywords ∅.

End Helpers.

(** ** [app/services/pdf_parser.py]: line-scanning segmentation *)

Module PDFParser.

(** The class [[A-Z|a-z]] of [extract_email]: the bar stands for
    itself. *)
Definition tld_char (c : ascii) : bool := Rx.letter c || Ascii.eqb c "|".

(** [\b[A-Za-z0-9._%+-]+@[A-Za-z0-9.-]+\.[A-Z|a-z]{2,}\b] *)
Definition email_pattern : Rx.regex :=
  Rx.seq [ Rx.WordB; Rx.plus Helpers.local_char; Rx.One (Rx.chr "@");
           Rx.plus Helpers.domain_char; Rx.One (Rx.chr ".");
           Rx.at_least 2 tld_char; Rx.WordB ].

Definition extract_email (text : str) : str :=
  let emails := Rx.first_found email_pattern text in
  match emails with
  | Some first => first
  | None => s ""
  end.

(** The class [[\d\s\-\(\)]] of [extract_phone]. *)
Definition phone_char (c : ascii) : bool :=
  ReClass.isdigit c || isspace c || Ascii.eqb c "-" || Ascii.eqb c "("
  || Ascii.eqb c ")".

(** [\+?[\d\s\-\(\)]{10,}] *)
Definition phone_pattern : Rx.regex :=
  Rx.seq [ Rx.Opt (Rx.chr "+"); Rx.at_least 10 phone_char ].

Definition extract_phone (text : str) : str :=
  let phones := Rx.first_found phone_pattern text in
  match phones with
  | Some first => strip first
  | None => s ""
  end.

(** The initial [sections] dictionary of [extract_sections]. *)
Definition sections0 : gmap str str :=
  <[s "summary" := s ""]>
    (<[s "certifications" := s ""]>
       (<[s "projects" := s ""]>
          (<[s "skills" := s ""]>
             (<[s "experience" := s ""]>
                (<[s "education" := s ""]> ∅))))).

(** [section_keywords], in the order [.items()] yields it. *)
Definition section_keywords : list (str * list str) :=
  [ (s "education",
      [s "education"; s "academic"; s "qualification"; s "degree"; s "university"]);
    (s "experience",
      [s "experience"; s "work history"; s "employment"; s "professional experience"]);
    (s "skills",
      [s "skills"; s "technical skills"; s "competencies"; s "abilities"]);
    (s "projects",
      [s "projects"; s "portfolio"; s "work samples"]);
    (s "certifications",
      [s "certifications"; s "certificates"; s "licenses"; s "awards"]);
    (s "summary",
      [s "summary"; s "objective"; s "professional summary"; s "about"; s "profile"]) ].

(** The inner [for section, keywords in ...] loop up to its [break]: the
    first section one of whose keywords occurs in [line_lower], provided
    [len(line_lower) < 50]. *)
Fixpoint find_section (table : list (str * list str)) (line_lower : str)
  : option str :=
  match table with
  | [] => None
  | (section, keywords) :: rest =>
      if existsb (fun keyword => contains keyword line_lower) keywords
         && (length line_lower <? 50)%nat
      then Some section
      else find_section rest line_lower
  end.

(** The section a line opens, if any. *)
Definition boundary (line : str) : option str :=
  find_section section_keywords (strip (lower line)).

(** The variables the outer loop updates. *)
Record state : Type := State {
  current_section : option str;
  section_content : list str;
  sections : gmap str str
}.

Definition init : state :=
  {| current_section := None; section_content := []; sections := sections0 |}.

(** [if current_section and section_content:
       sections[current_section] = '\n'.join(section_content)] *)
Definition save (st : state) : gmap str str :=
  match current_section st with
  | Some cur =>
      if truthy cur && truthy (section_content st)
      then <[cur := join [newline] (section_content st)]> (sections st)
      else sections st
  | None => sections st
  end.

(** One iteration of [for line in lines]. *)
Definition step (st : state) (line : str) : state :=
  match boundary line with
  | Some section =>
      {| current_section := Some section;
         section_content := [];
         sections := save st |}
  | None =>
      if truthy_opt (current_section st) && truthy (strip line)
      then {| current_section := current_section st;
              section_content := section_content st ++ [line];
              sections := sections st |}
      else st
  end.

Definition scan (lines : list str) (st : state) : state :=
  fold_left step lines st.

Definition extract_sections (text : str) : gmap str str :=
  save (scan (split_on newline text) init).

End PDFParser.

(** ** The generative model behind the services

    [self.model.generate_content(prompt)] followed by [response.text]: the
    text of the completion, or the exception either step raises.  The
    prompts are f-strings over the arguments; no property depends on their
    text, so each is a parameter.  A resume record is the JSON value the
    route receives, which [json.dumps] serialises without raising. *)

Module ATSScorer.
Import Re Json.

(** [r'\{.*\}'] *)
Definition json_object : regex := seq [One (Chr "{"); Star Dot; One (Chr "}")].

Definition _get_default_score : json :=
  JObj
    [ (u "score", JInt 65);
      (u "missing_keywords",
        JArr [ JStr (u "achievement metrics");
               JStr (u "action verbs");
               JStr (u "relevant certifications");
               JStr (u "quantifiable results") ]);
      (u "suggestions",
        JArr [ JStr (u "Add quantifiable achievements with numbers/percentages");
               JStr (u "Use strong action verbs (Led, Developed, Implemented, etc.)");
               JStr (u "Include relevant keywords from job description");
               JStr (u "Ensure clear section headers (Experience, Education, Skills)");
               JStr (u "Keep formatting simple and ATS-friendly (no tables or graphics)") ]);
      (u "sections_analysis",
        JObj
          [ (u "contact_info",
              JObj [ (u "score", JInt 85); (u "issues", JArr []) ]);
            (u "experience",
              JObj [ (u "score", JInt 70);
                     (u "issues",
                       JArr [ JStr (u "Add more quantifiable results");
                              JStr (u "Use stronger action verbs") ]) ]);
            (u "education",
              JObj [ (u "score", JInt 80); (u "issues", JArr []) ]);
            (u "skills",
              JObj [ (u "score", JInt 60);
                     (u "issues",
                       JArr [ JStr (u "Add more relevant technical skills");
                              JStr (u "Include industry keywords") ]) ]) ]);
      (u "summary",
        JStr (u "Resume has moderate ATS compatibility. Focus on quantifiable achievements and relevant keywords.")) ].

Section Scorer.
Variable generate_content : str -> Outcome str.
Variable prompt : str -> str -> str.

(** The body of the [try] block of [calculate_ats_score]. *)
Definition calculate_ats_score_try (resume_text job_description : str)
  : Outcome json :=
  text ← generate_content (prompt resume_text job_description);
  let response_text := strip text in
  match search json_object response_text (Flags false true) with
  | Some json_match =>
      let json_str := group0 json_match in
      result ← loads json_str;
      _ ← get result (u "score") (JStr (u "N/A"));
      mret result
  | None => mret _get_default_score
  end.

Definition calculate_ats_score (resume_text job_description : str)
  : Outcome json :=
  try_except (calculate_ats_score_try resume_text job_description)
    (Return _get_default_score)
    (Return _get_default_score).
End Scorer.

Definition gt (a b : float) : bool := PrimFloat.ltb b a.
Definition ge (a b : float) : bool := PrimFloat.leb b a.

Definition f1 (x : float) : ustr := map code (PyFloat.format_1f x).

Definition compare_scores (original_score enhanced_score : float) : list ustr :=
  let improvements := [] in
  let diff := (enhanced_score - original_score)%float in
  let percentage_improvement :=
    if gt original_score 0 then (diff / original_score * 100)%float
    else 0%float in
  if gt diff 30 then
    improvements
      ++ [ [127775%N] ++ u " Excellent improvement! Score increased by " ++ f1 diff
             ++ u " points (" ++ f1 percentage_improvement ++ u "%)" ]
      ++ [ u "Your resume is now highly optimized for ATS systems" ]
  else if gt diff 15 then
    improvements
      ++ [ [9989%N] ++ u " Great improvement! Score increased by " ++ f1 diff
             ++ u " points" ]
      ++ [ u "Resume is much more ATS-compatible now" ]
  else if gt diff 5 then
    improvements
      ++ [ [128077%N] ++ u " Good improvement! Score increased by " ++ f1 diff
             ++ u " points" ]
      ++ [ u "Resume quality has been enhanced" ]
  else if ge diff 0 then
    improvements ++ [ u "Score adjusted by " ++ f1 diff ++ u " points" ]
  else
    improvements ++ [ u "Score maintained from original version" ].

(** The structure [analyze_keywords] returns when it has no decoded
    value. *)
Definition empty_keywords : json :=
  JObj [ (u "resume_keywords", JArr []);
         (u "job_keywords", JArr []);
         (u "matched_keywords", JArr []);
         (u "missing_keywords", JArr []);
         (u "unique_resume_keywords", JArr []) ].

Section Keywords.
Variable generate_content : str -> Outcome str.
Variable keywords_prompt : str -> str -> str.

(** The body of the [try] block of [analyze_keywords]: [None] when it
    falls through without returning. *)
Definition analyze_keywords_try (resume_text job_description : str)
  : Outcome (option json) :=
  text ← generate_content (keywords_prompt resume_text job_description);
  match search json_object text (Flags false true) with
  | Some json_match =>
      v ← loads (group0 json_match);
      mret (Some v)
  | None => mret None
  end.

Definition analyze_keywords (resume_text job_description : str)
  : Outcome json :=
  match analyze_keywords_try resume_text job_description with
  | Return (Some v) => Return v
  | Return None => Return empty_keywords
  | Raise _ => Return empty_keywords
  end.
End Keywords.

End ATSScorer.

Module AIEnhancer.
Import Re Json.

(** [r'\[.*\]'] *)
Definition json_array : regex := seq [One (Chr "["); Star Dot; One (Chr "]")].

Definition canned_suggestions : json :=
  JArr [ JStr (u "Add more quantifiable achievements with metrics");
         JStr (u "Use stronger action verbs for better impact");
         JStr (u "Include relevant industry keywords");
         JStr (u "Keep formatting simple and ATS-friendly");
         JStr (u "Tailor content to target position") ].

Section Enhancer.
Variable generate_content : str -> Outcome str.
Variable enhance_prompt : json -> str -> str.
Variable suggest_prompt : str -> str.

(** The body of the [try] block of [enhance_resume_content]. *)
Definition enhance_resume_content_try (resume_data : json) (job_description : str)
  : Outcome json :=
  text ← generate_content (enhance_prompt resume_data job_description);
  let response_text := strip text in
  match search ATSScorer.json_object response_text (Flags false true) with
  | Some json_match =>
      let json_str := group0 json_match in
      enhanced_data ← loads json_str;
      mret enhanced_data
  | None => mret resume_data
  end.

Definition enhance_resume_content (resume_data : json) (job_description : str)
  : Outcome json :=
  try_except (enhance_resume_content_try resume_data job_description)
    (Return resume_data)
    (Return resume_data).

(** The body of the [try] block of [suggest_improvements]. *)
Definition suggest_improvements_try (resume_text : str) : Outcome json :=
  text ← generate_content (suggest_prompt resume_text);
  let response_text := strip text in
  match search json_array response_text (Flags false true) with
  | Some json_match =>
      suggestions ← loads (group0 json_match);
      _ ← len suggestions;
      mret suggestions
  | None => mret canned_suggestions
  end.

Definition suggest_improvements (resume_text : str) : Outcome json :=
  try_except (suggest_improvements_try resume_text)
    (Return (JArr []))
    (Return (JArr [])).
End Enhancer.

Definition default_summary : str :=
  s "Experienced professional with strong technical background and proven track record of delivering results.".

Definition default_cover_letter : str :=
  s "Highly motivated professional with strong technical background seeking to leverage expertise in innovative projects.".

Section Texts.
Variable generate_content : str -> Outcome str.
Variable section_prompt : str -> str -> str -> str.
Variable summary_prompt : json -> str.
Variable bullets_prompt : json -> str.
Variable cover_letter_prompt : json -> str.

Definition enhance_section (section_name content context : str)
  : Outcome str :=
  try_except
    (text ← generate_content (section_prompt section_name content context);
     let enhanced_content := strip text in
     mret enhanced_content)
    (Return content)
    (Return content).

Definition generate_summary (resume_data : json) : Outcome str :=
  try_except
    (text ← generate_content (summary_prompt resume_data);
     let summary := strip text in
     mret summary)
    (Return default_summary)
    (Return default_summary).

(** The body of the [try] block of [enhance_bullet_points]. *)
Definition enhance_bullet_points_try (bullet_points : json) : Outcome json :=
  text ← generate_content (bullets_prompt bullet_points);
  let response_text := strip text in
  match search json_array response_text (Flags false true) with
  | Some json_match =>
      enhanced_points ← loads (group0 json_match);
      _ ← len enhanced_points;
      mret enhanced_points
  | None => mret bullet_points
  end.

Definition enhance_bullet_points (bullet_points : json) : Outcome json :=
  try_except (enhance_bullet_points_try bullet_points)
    (Return bullet_points)
    (Return bullet_points).

Definition generate_cover_letter_snippet (resume_data : json) : Outcome str :=
  try_except
    (text ← generate_content (cover_letter_prompt resume_data);
     let cover_letter := strip text in
     mret cover_letter)
    (Return default_cover_letter)
    (Return default_cover_letter).
End Texts.

End AIEnhancer.

(** * Predicates used in the statements *)

Module LineScanSpec.
Import PDFParser.

(** The names of the sections, in the order of [section_keywords]. *)
Definition section_names : list str := map fst section_keywords.

(** A line that the scan appends to the active section: it opens no
    section and is not blank. *)
Definition content_line (l : str) : Prop :=
  boundary l = None ∧ strip l ≠ [] ∧ newline ∉ l.

(** A section value: empty, or content lines joined by newlines. *)
Definition section_value (v : str) : Prop :=
  v = [] ∨ ∃ ls, ls ≠ [] ∧ Forall content_line ls ∧ v = join [newline] ls.

(** What holds of the loop variables after every iteration. *)
Record invariant (st : state) : Prop := Invariant {
  inv_dom : dom (sections st) = dom sections0;
  inv_current : ∀ cur, current_section st = Some cur → cur ∈ section_names;
  inv_content : Forall content_line (section_content st);
  inv_values : ∀ sec v, sections st !! sec = Some v → section_value v
}.

(** A line made of whitespace only. *)
Definition blank_line (l : str) : Prop := strip l = [] ∧ newline ∉ l.

End LineScanSpec.

(** Anchored-regex segmentation, read without a regex engine: a header is
    a phrase, that is words separated by runs of whitespace, matched
    without regard to case. *)

Module SegmentSpec.
Import Re.

Abbreviation phrase := (list str).

(** The sections in the order of [section_patterns], each with its header
    synonyms. *)
Definition section_table : list (str * list phrase) :=
  [ (s "summary",
      [[s "professional"; s "summary"]; [s "objective"]; [s "about"]; [s "profile"]]);
    (s "experience",
      [[s "professional"; s "experience"]; [s "work"; s "history"]; [s "employment"]]);
    (s "education", [[s "education"]; [s "academic"]]);
    (s "skills", [[s "skills"]; [s "technical"; s "skills"]]);
    (s "projects", [[s "projects"]; [s "portfolio"]; [s "work"; s "samples"]]);
    (s "certifications", [[s "certification"]; [s "license"]]) ].

(** The first synonym of a section. *)
Definition primary (entry : str * list phrase) : phrase :=
  match snd entry with
  | p :: _ => p
  | [] => []
  end.

(** The headers at which the content of the [i]-th section stops: the
    first synonym of each later section. *)
Definition stops_of (i : nat) : list phrase :=
  map primary (drop (S i) section_table).

(** Equality of characters without regard to case. *)
Definition ci (a b : ascii) : bool := Ascii.eqb (lower_char a) (lower_char b).

(** The text after the word [w] at the front of [t]. *)
Fixpoint skip_word (w t : str) : option str :=
  match w with
  | [] => Some t
  | a :: w' =>
      match t with
      | b :: t' => if ci a b then skip_word w' t' else None
      | [] => None
      end
  end.

(** The text after the phrase [p] at the front of [t]. *)
Fixpoint skip_phrase (p : phrase) (t : str) : option str :=
  match p with
  | [] => Some t
  | w :: p' =>
      match p' with
      | [] => skip_word w t
      | _ :: _ =>
          match skip_word w t with
          | Some (c :: r) =>
              if isspace c then skip_phrase p' (lstrip r) else None
          | _ => None
          end
      end
  end.

(** The text after the first of the phrases [ps] that stands at the front
    of [t]. *)
Fixpoint header_at (ps : list phrase) (t : str) : option str :=
  match ps with
  | [] => None
  | p :: ps' =>
      match skip_phrase p t with
      | Some r => Some r
      | None => header_at ps' t
      end
  end.

(** The text after the leftmost header of [t]. *)
Fixpoint find_header (ps : list phrase) (t : str) : option str :=
  match header_at ps t with
  | Some r => Some r
  | None =>
      match t with
      | _ :: t' => find_header ps t'
      | [] => None
      end
  end.

(** Content stops here: at one of the phrases [stops], or at the end of
    the text. *)
Definition stops_here (stops : list phrase) (t : str) : bool :=
  bool_decide (is_Some (header_at stops t)) || at_end t.

(** The shortest prefix of [t] after which content stops. *)
Fixpoint until_stop (stops : list phrase) (t : str) : str :=
  if stops_here stops t then []
  else match t with
       | c :: t' => c :: until_stop stops t'
       | [] => []
       end.

(** What is left of [t] where content stops. *)
Fixpoint after_stop (stops : list phrase) (t : str) : str :=
  if stops_here stops t then t
  else match t with
       | _ :: t' => after_stop stops t'
       | [] => []
       end.

(** The value of a section with header synonyms [ps] whose content stops
    at [stops]. *)
Definition section_text (ps stops : list phrase) (text : str) : str :=
  match find_header ps text with
  | Some rest => strip (until_stop stops rest)
  | None => []
  end.

(** The table-driven segmentation: every section with its synonyms and
    the headers at which its content stops. *)
Definition entries : list (str * list phrase * list phrase) :=
  imap (λ i e, (fst e, snd e, stops_of i)) section_table.

Definition segment_step (text : str) (m : gmap str str)
           (e : str * list phrase * list phrase) : gmap str str :=
  match find_header (snd (fst e)) text with
  | Some rest => <[fst (fst e) := strip (until_stop (snd e) rest)]> m
  | None => m
  end.

Definition segments (text : str) : gmap str str :=
  fold_left (segment_step text) entries Helpers.sections0.

(** A literal word, a phrase and a section pattern as regular
    expressions. *)
Definition word_re (w : str) : regex :=
  fold_right (fun c r => Seq (One (Chr c)) r) Eps w.

Fixpoint phrase_re (p : phrase) : regex :=
  match p with
  | [] => Eps
  | w :: p' =>
      match p' with
      | [] => word_re w
      | _ :: _ => Seq (word_re w) (Seq (plus Space) (phrase_re p'))
      end
  end.

Definition tail_re (stops : list phrase) : regex :=
  match stops with
  | [] => Dollar
  | p :: ps => Lookahead (alt (phrase_re p) (map phrase_re ps ++ [Dollar]))
  end.

Definition pattern_re (ps stops : list phrase) : regex :=
  match ps with
  | [] => Eps
  | p :: ps' =>
      Seq (alt (phrase_re p) (map phrase_re ps'))
          (Seq (Group (StarLazy Dot)) (tail_re stops))
  end.

(** A word of a header: not empty, and it does not start with
    whitespace. *)
Definition proper_word (w : str) : bool :=
  match w with
  | c :: _ => negb (isspace c)
  | [] => false
  end.

Definition proper_phrase (p : phrase) : bool :=
  truthy p && forallb proper_word p.

Definition proper_entry (e : str * list phrase * list phrase) : bool :=
  truthy (snd (fst e)) && forallb proper_phrase (snd (fst e))
  && forallb proper_phrase (snd e).

End SegmentSpec.

(** Substrings and tokens. *)

Module TokenSpec.

(** [needle] occurs in [hay]. *)
Definition substring (needle hay : str) : Prop :=
  ∃ a b, hay = a ++ needle ++ b.

(** A token: not empty, and free of whitespace. *)
Definition token (w : str) : Prop :=
  w ≠ [] ∧ Forall (λ c, isspace c = false) w.

End TokenSpec.

(** The span a bracket pattern extracts, read without a regex engine. *)

Module SpanSpec.

(** The pattern [o.*c] for an opening and a closing character. *)
Definition span_re (o c : ascii) : Re.regex :=
  Re.seq [Re.One (Re.Chr o); Re.Star Re.Dot; Re.One (Re.Chr c)].

End SpanSpec.

(** The line scan, read per section: the text is cut into blocks at the
    header lines, and a section gets the last block of its own that is
    not empty. *)

Module BlockSpec.
Import PDFParser.

(** The lines from the start of [lines] up to the next header, without
    the blank ones. *)
Fixpoint block (lines : list str) : list str :=
  match lines with
  | [] => []
  | l :: rest =>
      match boundary l with
      | Some _ => []
      | None => if truthy (strip l) then l :: block rest else block rest
      end
  end.

(** The blocks that follow the headers of [sec], in the order of the
    text. *)
Fixpoint blocks_of (sec : str) (lines : list str) : list (list str) :=
  match lines with
  | [] => []
  | l :: rest =>
      if bool_decide (boundary l = Some sec)
      then block rest :: blocks_of sec rest
      else blocks_of sec rest
  end.

(** The value of a section: its last block that is not empty, joined by
    newlines; the empty string when there is none. *)
Definition value (sec : str) (lines : list str) : str :=
  match last (List.filter truthy (blocks_of sec lines)) with
  | Some b => join [newline] b
  | None => []
  end.

(** What a scan that is at [st] leaves under [sec] when the lines still
    to come hold no later block of [sec] that is not empty; [more] is the
    rest of the block that is open. *)
Definition pending (st : state) (sec : str) (more : list str) : option str :=
  if bool_decide (current_section st = Some sec)
  then if truthy (section_content st ++ more)
       then Some (join [newline] (section_content st ++ more))
       else sections st !! sec
  else sections st !! sec.

End BlockSpec.

(** The e-mail and phone patterns, read without a regex engine. *)

Module EmailSpec.

(** The character before the position that follows [a], when [prev] is
    the character before [a]. *)
Definition before (prev : option ascii) (a : str) : option ascii :=
  match last a with
  | Some c => Some c
  | None => prev
  end.

(** An address [local@domain.tld]: a local part and a domain that are
    not empty, and a last label of two characters or more, each part over
    its class. *)
Definition address (tld_cls : ascii → bool) (email : str) : Prop :=
  ∃ local domain tld,
    email = local ++ "@" :: domain ++ "." :: tld
    ∧ local ≠ [] ∧ Forall (λ c, Helpers.local_char c = true) local
    ∧ domain ≠ [] ∧ Forall (λ c, Helpers.domain_char c = true) domain
    ∧ (2 ≤ length tld)%nat ∧ Forall (λ c, tld_cls c = true) tld.

End EmailSpec.

Module WordSpec.

(** [kw] stands in [t] as a whole word: there is a word boundary before
    it and one after it. *)
Definition whole_word (kw t : str) : Prop :=
  ∃ a b, t = a ++ kw ++ b
         ∧ Rx.at_boundary (last a) (kw ++ b) = true
         ∧ Rx.at_boundary (EmailSpec.before (last a) kw) b = true.

End WordSpec.

(** * Properties *)

(** Closed decidable goals are settled by evaluation. *)
Ltac decide_compute := apply (bool_decide_unpack _); vm_compute; exact I.

(** ** Strings *)

Section StringFacts.
Implicit Types (t a b : str) (c sep : ascii).

Lemma ascii_eqb_decide c1 c2 : Ascii.eqb c1 c2 = bool_decide (c1 = c2).
Proof.
  destruct (Ascii.eqb_spec c1 c2); symmetry;
    [by apply bool_decide_eq_true | by apply bool_decide_eq_false].
Qed.

Lemma split_on_nonempty sep t : split_on sep t ≠ [].
Proof.
  destruct t as [|c r]; simpl; [done|].
  destruct (Ascii.eqb c sep); [done|]. by destruct (split_on sep r).
Qed.

Lemma split_on_free sep t : sep ∉ t → split_on sep t = [t].
Proof.
  induction t as [|c r IH]; intros Hfree; [done|].
  simpl. destruct (Ascii.eqb_spec c sep) as [->|Hne].
  - exfalso. apply Hfree. left.
  - rewrite IH; [done|]. intros Hin. apply Hfree. by right.
Qed.

Lemma split_on_cons_line sep a b :
  sep ∉ a → split_on sep (a ++ sep :: b) = a :: split_on sep b.
Proof.
  induction a as [|c r IH]; intros Hfree; simpl.
  - by rewrite Ascii.eqb_refl.
  - destruct (Ascii.eqb_spec c sep) as [->|Hne].
    + exfalso. apply Hfree. left.
    + rewrite IH; [done|]. intros Hin. apply Hfree. by right.
Qed.

Lemma split_on_app sep a b :
  split_on sep (a ++ sep :: b) = split_on sep a ++ split_on sep b.
Proof.
  induction a as [|c r IH]; simpl.
  - by rewrite Ascii.eqb_refl.
  - destruct (Ascii.eqb c sep); [by rewrite IH|].
    rewrite IH. pose proof (split_on_nonempty sep r).
    by destruct (split_on sep r).
Qed.

Lemma split_on_lines_free sep t : Forall (λ l, sep ∉ l) (split_on sep t).
Proof.
  induction t as [|c r IH]; simpl.
  - repeat constructor. by intros ?%elem_of_nil.
  - destruct (Ascii.eqb_spec c sep) as [->|Hne].
    + constructor; [by intros ?%elem_of_nil | done].
    + pose proof (split_on_nonempty sep r).
      destruct (split_on sep r) as [|w ws]; [done|].
      inversion IH; subst.
      constructor; [|done]. intros [?|?]%elem_of_cons; [congruence|done].
Qed.

Lemma split_on_join sep (ls : list str) :
  ls ≠ [] → Forall (λ l, sep ∉ l) ls → split_on sep (join [sep] ls) = ls.
Proof.
  induction ls as [|l ls IH]; intros Hne Hfree; [done|].
  inversion Hfree as [|?? Hl Hls]; subst.
  destruct ls as [|l' ls'].
  - simpl. by apply split_on_free.
  - change (join [sep] (l :: l' :: ls')) with (l ++ sep :: join [sep] (l' :: ls')).
    rewrite split_on_cons_line; [|done]. by rewrite IH.
Qed.

End StringFacts.

(** ** Line-scanning segmentation *)

Section LineScan.
Import PDFParser LineScanSpec.
Implicit Types (st : state) (line l : str) (lines : list str).

Lemma find_section_name tbl l sec :
  find_section tbl l = Some sec → sec ∈ map fst tbl.
Proof.
  induction tbl as [|[name kws] tbl IH]; simpl; [done|].
  destruct (_ && _).
  - intros [= ->]. left.
  - intros H. right. by apply IH.
Qed.

Lemma boundary_name line sec : boundary line = Some sec → sec ∈ section_names.
Proof. apply find_section_name. Qed.

Lemma section_names_cases sec :
  sec ∈ section_names →
  sec = s "education" ∨ sec = s "experience" ∨ sec = s "skills"
  ∨ sec = s "projects" ∨ sec = s "certifications" ∨ sec = s "summary".
Proof.
  unfold section_names. simpl. rewrite !elem_of_cons, elem_of_nil. tauto.
Qed.

Lemma section_name_truthy sec : sec ∈ section_names → truthy sec = true.
Proof.
  intros H%section_names_cases.
  destruct H as [->|[->|[->|[->|[->| ->]]]]]; reflexivity.
Qed.

Lemma section_name_key sec : sec ∈ section_names → sec ∈ dom sections0.
Proof.
  intros H%section_names_cases. apply elem_of_dom.
  destruct H as [->|[->|[->|[->|[->| ->]]]]]; by eexists.
Qed.

Lemma sections0_dom :
  dom sections0 =
  ({[ s "summary"; s "experience"; s "education";
      s "skills"; s "projects"; s "certifications" ]} : gset str).
Proof.
  unfold sections0. rewrite !dom_insert_L, dom_empty_L.
  apply set_eq. intros x. set_unfold. tauto.
Qed.

Lemma sections0_values sec v : sections0 !! sec = Some v → v = [].
Proof.
  unfold sections0. rewrite !lookup_insert, lookup_empty.
  repeat case_decide; by intros [= <-].
Qed.

Lemma invariant_init : invariant init.
Proof.
  split; simpl.
  - done.
  - done.
  - constructor.
  - intros sec v ->%sections0_values. by left.
Qed.

Lemma save_keeps st :
  invariant st →
  dom (save st) = dom sections0
  ∧ ∀ sec v, save st !! sec = Some v → section_value v.
Proof.
  intros [Hdom Hcur Hcontent Hvalues]. unfold save.
  destruct (current_section st) as [cur|] eqn:Ecur; [|by split].
  specialize (Hcur cur eq_refl).
  rewrite (section_name_truthy _ Hcur). simpl.
  destruct (section_content st) as [|l ls] eqn:Econtent; simpl; [by split|].
  split.
  - rewrite dom_insert_L, Hdom.
    apply subseteq_union_1_L, singleton_subseteq_l.
    by apply section_name_key.
  - intros sec v. rewrite lookup_insert. case_decide.
    + intros [= <-]. right. by exists (l :: ls).
    + apply Hvalues.
Qed.

Lemma step_keeps st line : newline ∉ line → invariant st → invariant (step st line).
Proof.
  intros Hline Hinv. unfold step.
  destruct (boundary line) as [sec|] eqn:Eb.
  - destruct (save_keeps st Hinv) as [Hd Hv].
    split; simpl; [done| |constructor|done].
    intros cur [= <-]. by apply boundary_name in Eb.
  - destruct (truthy_opt (current_section st) && truthy (strip line)) eqn:Et; [|done].
    apply andb_prop in Et as [_ Hstrip].
    destruct Hinv as [Hdom Hcur Hcontent Hvalues].
    split; simpl; [done|done| |done].
    apply Forall_app. split; [done|]. constructor; [|constructor].
    split_and!; [done| |done]. by destruct (strip line).
Qed.

Lemma scan_keeps lines st :
  Forall (λ l, newline ∉ l) lines → invariant st → invariant (scan lines st).
Proof.
  unfold scan. revert st.
  induction lines as [|l lines IH]; intros st Hlines Hinv; [done|].
  inversion Hlines; subst. simpl. apply IH; [done|]. by apply step_keeps.
Qed.

Lemma extract_sections_invariant text :
  dom (extract_sections text) = dom sections0
  ∧ ∀ sec v, extract_sections text !! sec = Some v → section_value v.
Proof.
  apply save_keeps, scan_keeps; [apply split_on_lines_free | apply invariant_init].
Qed.

Lemma isspace_lower_char c : isspace (lower_char c) = isspace c.
Proof. by destruct c as [[] [] [] [] [] [] [] []]. Qed.

Lemma lstrip_lower l : lstrip (lower l) = lower (lstrip l).
Proof.
  induction l as [|c r IH]; [done|]. simpl.
  rewrite isspace_lower_char. by destruct (isspace c).
Qed.

Lemma strip_lower l : strip (lower l) = lower (strip l).
Proof.
  assert (Hrev : ∀ x, rev (lower x) = lower (rev x))
    by (intros x; symmetry; apply map_rev).
  unfold strip, rstrip. by rewrite lstrip_lower, Hrev, lstrip_lower, Hrev.
Qed.

Lemma blank_line_no_boundary l : strip l = [] → boundary l = None.
Proof. unfold boundary. rewrite strip_lower. by intros ->. Qed.

Lemma step_blank st l : strip l = [] → step st l = st.
Proof.
  intros Hl. unfold step. rewrite (blank_line_no_boundary _ Hl), Hl. simpl.
  by rewrite andb_false_r.
Qed.

Lemma scan_blanks st lines : Forall blank_line lines → scan lines st = st.
Proof.
  unfold scan. induction 1 as [|l lines [Hl _] _ IH]; [done|].
  simpl. by rewrite step_blank.
Qed.

Lemma scan_app lines1 lines2 st :
  scan (lines1 ++ lines2) st = scan lines2 (scan lines1 st).
Proof. apply fold_left_app. Qed.

Lemma step_boundary st line sec :
  boundary line = Some sec →
  step st line =
  {| current_section := Some sec; section_content := []; sections := save st |}.
Proof. intros Hb. unfold step. by rewrite Hb. Qed.

Lemma step_content st cur l :
  current_section st = Some cur → cur ∈ section_names → content_line l →
  step st l =
  {| current_section := Some cur;
     section_content := section_content st ++ [l];
     sections := sections st |}.
Proof.
  intros Hcur Hname (Hb & Hstrip & _). unfold step. rewrite Hb, Hcur. simpl.
  rewrite (section_name_truthy _ Hname). by destruct (strip l).
Qed.

Lemma save_commit st cur :
  current_section st = Some cur → cur ∈ section_names →
  section_content st ≠ [] →
  save st = <[cur := join [newline] (section_content st)]> (sections st).
Proof.
  intros Hcur Hname Hne. unfold save. rewrite Hcur, (section_name_truthy _ Hname).
  by destruct (section_content st).
Qed.

Lemma scan_before_first_boundary lines :
  Forall (λ l, boundary l = None) lines → scan lines init = init.
Proof.
  unfold scan. induction 1 as [|l lines Hl _ IH]; [done|].
  simpl. unfold step at 2. by rewrite Hl.
Qed.

(** A section that no line opens keeps its initial, empty value. *)
Lemma scan_untouched sec lines st :
  Forall (λ l, boundary l ≠ Some sec) lines →
  current_section st ≠ Some sec → sections st !! sec = Some [] →
  current_section (scan lines st) ≠ Some sec
  ∧ sections (scan lines st) !! sec = Some [].
Proof.
  unfold scan. intros Hlines. revert st.
  induction Hlines as [|l lines Hl _ IH]; intros st Hcur Hval; [done|].
  simpl. apply IH; unfold step.
  - destruct (boundary l) as [sec'|]; simpl; [congruence|].
    by destruct (_ && _).
  - destruct (boundary l) as [sec'|]; simpl; [|by destruct (_ && _)].
    unfold save. destruct (current_section st) as [cur|]; [|done].
    destruct (_ && _); [|done]. rewrite lookup_insert_ne; [done|congruence].
Qed.

Lemma extract_sections_untouched text sec :
  sec ∈ section_names →
  Forall (λ l, boundary l ≠ Some sec) (split_on newline text) →
  extract_sections text !! sec = Some [].
Proof.
  intros Hname Hlines. unfold extract_sections.
  destruct (scan_untouched sec _ init Hlines) as [Hcur Hval]; [done| |].
  { apply section_names_cases in Hname.
    destruct Hname as [->|[->|[->|[->|[->| ->]]]]]; reflexivity. }
  unfold save. destruct (current_section _) as [cur|]; [|done].
  destruct (_ && _); [|done]. rewrite lookup_insert_ne; [done|congruence].
Qed.

Lemma find_section_some tbl l :
  is_Some (find_section tbl l) ↔
  (length l < 50)%nat
  ∧ ∃ sec kws kw, (sec, kws) ∈ tbl ∧ kw ∈ kws ∧ contains kw l = true.
Proof.
  induction tbl as [|[name kws] tbl IH]; simpl.
  - split; [by intros [? ?] | by intros (_ & ? & ? & ? & ?%elem_of_nil & _)].
  - destruct (existsb _ kws) eqn:Ekw; simpl.
    + apply existsb_exists in Ekw as (kw & Hin%list_elem_of_In & Hkw).
      destruct (Nat.ltb_spec (length l) 50) as [Hlen|Hlen].
      * split; [|by eexists]. intros _. split; [done|].
        exists name, kws, kw. split_and!; [left|done|done].
      * rewrite IH. split; intros [? ?]; lia.
    + rewrite IH. split; intros (Hlen & sec & kws' & kw & Hin & Hkw & Hc);
        (split; [done|]); exists sec, kws', kw; (split_and!; [|done|done]).
      * by right.
      * apply elem_of_cons in Hin as [[= -> ->]|Hin]; [|done].
        assert (existsb (λ keyword, contains keyword l) kws = true) as Htrue
          by (apply existsb_exists; exists kw; by rewrite <- list_elem_of_In).
        congruence.
Qed.

Lemma save_init : save init = sections0.
Proof. reflexivity. Qed.

(** A boundary line, a content line, blank lines and a second content
    line: the section holds the two content lines. *)
Lemma scan_two_content b l1 blanks l2 sec :
  boundary b = Some sec → content_line l1 → Forall blank_line blanks →
  content_line l2 →
  save (scan ([b; l1] ++ blanks ++ [l2]) init)
  = <[sec := l1 ++ newline :: l2]> sections0.
Proof.
  intros Hb H1 Hblanks H2.
  pose proof (boundary_name _ _ Hb) as Hname.
  rewrite scan_app, scan_app. unfold scan at 3. simpl.
  rewrite (step_boundary _ _ _ Hb), save_init.
  rewrite (step_content _ sec l1); [|done..]. simpl.
  rewrite scan_blanks; [|done].
  rewrite (step_content _ sec l2); [|done..]. simpl.
  by rewrite (save_commit _ sec).
Qed.

Lemma section_value_lines v line :
  section_value v → line ∈ split_on newline v →
  boundary line = None ∧ (v = [] ∨ strip line ≠ []).
Proof.
  intros [->|(ls & Hne & Hls & ->)] Hin.
  - simpl in Hin. apply list_elem_of_singleton in Hin as ->. by split; [|left].
  - rewrite split_on_join in Hin; [|done|].
    + rewrite Forall_forall in Hls. destruct (Hls _ Hin) as (? & ? & ?).
      by split; [|right].
    + eapply Forall_impl; [exact Hls|]. by intros l (_ & _ & ?).
Qed.

Lemma extract_sections_prefix pre rest :
  Forall (λ l, boundary l = None) (split_on newline pre) →
  extract_sections (pre ++ newline :: rest) = extract_sections rest.
Proof.
  intros Hpre. unfold extract_sections.
  by rewrite split_on_app, scan_app, scan_before_first_boundary.
Qed.

Lemma extract_sections_two_content b l1 blanks l2 sec :
  newline ∉ b → boundary b = Some sec → content_line l1 → content_line l2 →
  Forall blank_line blanks →
  extract_sections (join [newline] ([b; l1] ++ blanks ++ [l2]))
  = <[sec := l1 ++ newline :: l2]> sections0.
Proof.
  intros Hb Hsec H1 H2 Hblanks. unfold extract_sections.
  rewrite split_on_join; [by apply scan_two_content|done|].
  destruct H1 as (_ & _ & ?), H2 as (_ & _ & ?).
  repeat (constructor; [done|]). apply Forall_app. split.
  - eapply Forall_impl; [exact Hblanks|]. by intros l [_ ?].
  - by repeat constructor.
Qed.

End LineScan.



(** C10.  In line-scanning extraction a line that is empty or
    whitespace-only after stripping leaves the loop variables unchanged, so
    it is never appended to the accumulator; every section value is empty
    or made of lines none of which is blank; and two non-blank content
    lines separated by blank lines appear joined by a single newline. *)
Theorem blank_lines_skipped :
  (∀ st line, strip line = [] → PDFParser.step st line = st)
  ∧ (∀ text sec v,
       PDFParser.extract_sections text !! sec = Some v →
       v = [] ∨ Forall (λ l, strip l ≠ []) (split_on newline v))
  ∧ (∀ b l1 blanks l2 sec,
       newline ∉ b → PDFParser.boundary b = Some sec →
       LineScanSpec.content_line l1 → LineScanSpec.content_line l2 →
       Forall LineScanSpec.blank_line blanks →
       PDFParser.extract_sections (join [newline] ([b; l1] ++ blanks ++ [l2]))
       = <[sec := l1 ++ newline :: l2]> PDFParser.sections0).
Proof.
  split_and!.
  - apply step_blank.
  - intros text sec v Hv.
    destruct (extract_sections_invariant text) as [_ Hvalues].
    specialize (Hvalues _ _ Hv).
    destruct (decide (v = [])) as [->|Hne]; [by left|right].
    apply Forall_forall. intros line Hin.
    by destruct (section_value_lines v line Hvalues Hin) as [_ [?|?]].
  - apply extract_sections_two_content.
Qed.

Lemma blank_lines_skipped_witness :
  PDFParser.extract_sections
    (join [newline]
       ([s "Skills"; s "Python, Go"] ++ [s ""; s "   "] ++ [s "Rocq"]))
  = <[s "skills" := s "Python, Go" ++ newline :: s "Rocq"]>
      PDFParser.sections0.
Proof.
  apply (proj2 (proj2 blank_lines_skipped)).
  - decide_compute.
  - vm_compute. reflexivity.
  - split_and!; [vm_compute; reflexivity | vm_compute; discriminate |].
    decide_compute.
  - split_and!; [vm_compute; reflexivity | vm_compute; discriminate |].
    decide_compute.
  - repeat constructor; try (vm_compute; reflexivity);
      decide_compute.
Defined.

(** ** The regex matcher *)

Section RegexFacts.
Import Re.
Variable f : flags.
Implicit Types (t a b : str) (c o : ascii).

Lemma consumed_app a b : consumed (a ++ b) b = a.
Proof.
  unfold consumed. rewrite length_app.
  replace (length a + length b - length b)%nat with (length a) by lia.
  apply take_app_length.
Qed.

Lemma star_dot_cons {R} (k : str → option R) c t :
  DOTALL f = true →
  star f Dot k (c :: t)
  = match star f Dot k t with Some x => Some x | None => k (c :: t) end.
Proof. intros Hd. simpl. by rewrite Hd. Qed.

Lemma star_dot_none {R} (k : str → option R) t :
  DOTALL f = true →
  (∀ t', t' `suffix_of` t → k t' = None) → star f Dot k t = None.
Proof.
  intros Hd. induction t as [|c t IH]; intros Hk.
  - simpl. by apply Hk.
  - rewrite star_dot_cons, IH; [by apply Hk|..|done].
    intros t' Ht'. apply Hk. by apply suffix_cons_r.
Qed.

Lemma star_dot_skip {R} (k : str → option R) a b y :
  DOTALL f = true →
  star f Dot k b = Some y → star f Dot k (a ++ b) = Some y.
Proof.
  intros Hd Hb. induction a as [|c a IH]; [done|].
  simpl app. by rewrite star_dot_cons, IH.
Qed.

Lemma chr_match_exact o c :
  IGNORECASE f = false → atom_match f (Chr o) c = bool_decide (o = c).
Proof. intros Hi. simpl. rewrite Hi. apply ascii_eqb_decide. Qed.

Lemma match_span_at o c mid post :
  IGNORECASE f = false → DOTALL f = true → c ∉ post →
  match_at f (SpanSpec.span_re o c) (o :: mid ++ c :: post)
  = Some (MkMatch (o :: mid ++ [c]) None).
Proof.
  intros Hi Hd Hpost. unfold match_at, SpanSpec.span_re.
  cbn [seq matches]. rewrite chr_match_exact, bool_decide_eq_true_2 by done.
  apply star_dot_skip; [done|].
  rewrite star_dot_cons, star_dot_none; [|done|..|done].
  - rewrite chr_match_exact, bool_decide_eq_true_2 by done.
    f_equal. f_equal.
    change (o :: mid ++ c :: post) with ((o :: mid) ++ c :: post).
    rewrite (cons_middle c), app_assoc. apply consumed_app.
  - intros t' Ht'. destruct t' as [|x t']; [done|].
    rewrite chr_match_exact by done. rewrite bool_decide_eq_false_2; [done|].
    intros ->. apply Hpost. destruct Ht' as [pre ->].
    apply elem_of_app. right. left.
Qed.

Lemma match_span_head o c x t :
  IGNORECASE f = false → o ≠ x → match_at f (SpanSpec.span_re o c) (x :: t) = None.
Proof.
  intros Hi Hne. unfold match_at, SpanSpec.span_re. cbn [seq matches].
  rewrite chr_match_exact by done. by rewrite bool_decide_eq_false_2.
Qed.

Lemma match_span_open o c t :
  IGNORECASE f = false → DOTALL f = true → c ∉ t →
  match_at f (SpanSpec.span_re o c) (o :: t) = None.
Proof.
  intros Hi Hd Hc. unfold match_at, SpanSpec.span_re. cbn [seq matches].
  rewrite chr_match_exact, bool_decide_eq_true_2 by done.
  apply star_dot_none; [done|].
  intros t' Ht'. destruct t' as [|x t']; [done|].
  rewrite chr_match_exact by done. rewrite bool_decide_eq_false_2; [done|].
  intros ->. apply Hc. destruct Ht' as [pre ->].
  apply elem_of_app. right. left.
Qed.

Lemma search_from_cons r x t :
  search_from f r (x :: t)
  = match match_at f r (x :: t) with
    | Some m => Some m
    | None => search_from f r t
    end.
Proof. reflexivity. Qed.

(** The span runs from the first opening to the last closing character. *)
Lemma search_span o c pre mid post :
  IGNORECASE f = false → DOTALL f = true → o ∉ pre → c ∉ post →
  search_from f (SpanSpec.span_re o c) (pre ++ o :: mid ++ c :: post)
  = Some (MkMatch (o :: mid ++ [c]) None).
Proof.
  intros Hi Hd Hpre Hpost. induction pre as [|x pre IH].
  - simpl app. by rewrite search_from_cons, match_span_at.
  - simpl app. rewrite search_from_cons, match_span_head; [|done|].
    + apply IH. intros ?. apply Hpre. by right.
    + intros ->. apply Hpre. left.
Qed.

(** No opening character is followed by a closing one: no span. *)
Lemma search_span_none o c t :
  IGNORECASE f = false → DOTALL f = true →
  (∀ pre rest, t = pre ++ o :: rest → c ∉ rest) →
  search_from f (SpanSpec.span_re o c) t = None.
Proof.
  intros Hi Hd. induction t as [|x t IH]; intros Hno.
  - reflexivity.
  - rewrite search_from_cons.
    assert (match_at f (SpanSpec.span_re o c) (x :: t) = None) as ->.
    { destruct (decide (o = x)) as [<-|Hne]; [|by apply match_span_head].
      apply match_span_open; [done..|]. by apply (Hno []). }
    apply IH. intros pre rest ->. by apply (Hno (x :: pre)).
Qed.

End RegexFacts.

(** ** Anchored-regex segmentation *)

Section SegmentFacts.
Import Re SegmentSpec.
Implicit Types (t w : str) (p : phrase) (ps stops : list phrase) (c : ascii).

Local Abbreviation F := (Flags true true).

Lemma matches_word {R} w t g (k : str → option str → option R) :
  matches F (word_re w) t g k
  = match skip_word w t with Some r => k r g | None => None end.
Proof.
  revert t. induction w as [|a w IH]; intros t; [done|].
  simpl. destruct t as [|b t]; [done|].
  change (Ascii.eqb (lower_char a) (lower_char b)) with (ci a b).
  destruct (ci a b); [apply IH|done].
Qed.

Lemma ci_space a c : isspace c = true → isspace a = false → ci a c = false.
Proof.
  intros Hc Ha. unfold ci. destruct (Ascii.eqb_spec (lower_char a) (lower_char c)) as [E|]; [|done].
  apply (f_equal isspace) in E. rewrite !isspace_lower_char in E. congruence.
Qed.

Lemma skip_phrase_space p c t :
  proper_phrase p = true → isspace c = true → skip_phrase p (c :: t) = None.
Proof.
  unfold proper_phrase. destruct p as [|w p]; [done|]. simpl.
  intros [Hw _]%andb_prop Hc.
  destruct w as [|a w]; [done|]. simpl in Hw.
  assert (skip_word (a :: w) (c :: t) = None) as Hnone.
  { simpl. rewrite ci_space; [done|done|]. by destruct (isspace a). }
  destruct p; by rewrite Hnone.
Qed.

Lemma star_space_lstrip {R} (k : str → option R) t :
  (∀ c t', isspace c = true → k (c :: t') = None) →
  star F Space k t = k (lstrip t).
Proof.
  intros Hk. induction t as [|c t IH]; [done|].
  simpl. destruct (isspace c) eqn:Hc; [|done].
  rewrite IH. destruct (k (lstrip t)) eqn:E; [done|]. by apply Hk.
Qed.

Lemma proper_phrase_cons w p :
  proper_phrase (w :: p) = true → p ≠ [] → proper_phrase p = true.
Proof.
  unfold proper_phrase. simpl. intros [_ Hp]%andb_prop Hne.
  rewrite Hp. by destruct p.
Qed.

Lemma matches_phrase {R} p t g (k : str → option str → option R) :
  proper_phrase p = true →
  matches F (phrase_re p) t g k
  = match skip_phrase p t with Some r => k r g | None => None end.
Proof.
  revert t. induction p as [|w p IH]; intros t Hp; [done|].
  destruct p as [|w' p'].
  - apply matches_word.
  - change (phrase_re (w :: w' :: p'))
      with (Seq (word_re w) (Seq (plus Space) (phrase_re (w' :: p')))).
    change (skip_phrase (w :: w' :: p') t)
      with (match skip_word w t with
            | Some (c :: r) =>
                if isspace c then skip_phrase (w' :: p') (lstrip r) else None
            | _ => None
            end).
    cbn [matches]. rewrite matches_word.
    destruct (skip_word w t) as [[|c r]|]; [done| |done].
    cbn [plus matches atom_match]. destruct (isspace c); [|done].
    assert (proper_phrase (w' :: p') = true) as Hp'
      by (by apply (proper_phrase_cons w)).
    rewrite star_space_lstrip.
    + by apply IH.
    + intros c' t' Hc'. rewrite IH by done.
      by rewrite skip_phrase_space.
Qed.

Lemma matches_alt_phrases {R} p ps t g (k : str → option str → option R) :
  forallb proper_phrase (p :: ps) = true →
  (∀ t' g', is_Some (k t' g')) →
  matches F (alt (phrase_re p) (map phrase_re ps)) t g k
  = match header_at (p :: ps) t with Some r => k r g | None => None end.
Proof.
  intros Hps Hk. revert p Hps. induction ps as [|p' ps IH]; intros p Hps.
  - simpl in *. apply andb_prop in Hps as [Hp _].
    rewrite matches_phrase by done. by destruct (skip_phrase p t).
  - simpl in Hps. apply andb_prop in Hps as [Hp Hps].
    change (alt (phrase_re p) (map phrase_re (p' :: ps)))
      with (Alt (phrase_re p) (alt (phrase_re p') (map phrase_re ps))).
    cbn [matches]. rewrite matches_phrase by done.
    change (header_at (p :: p' :: ps) t)
      with (match skip_phrase p t with
            | Some r => Some r
            | None => header_at (p' :: ps) t
            end).
    destruct (skip_phrase p t) as [r|].
    + by destruct (Hk r g) as [x ->].
    + by apply IH.
Qed.

Lemma matches_alt_stop p ps t (g : option str) :
  forallb proper_phrase (p :: ps) = true →
  matches F (alt (phrase_re p) (map phrase_re ps ++ [Dollar])) t g
    (fun _ g' => Some g')
  = if stops_here (p :: ps) t then Some g else None.
Proof.
  unfold stops_here. revert p. induction ps as [|p' ps IH]; intros p Hps.
  - simpl in *. apply andb_prop in Hps as [Hp _].
    rewrite matches_phrase by done.
    destruct (skip_phrase p t); [done|]. simpl. by destruct (at_end t).
  - simpl in Hps. apply andb_prop in Hps as [Hp Hps].
    change (alt (phrase_re p) (map phrase_re (p' :: ps) ++ [Dollar]))
      with (Alt (phrase_re p) (alt (phrase_re p') (map phrase_re ps ++ [Dollar]))).
    cbn [matches]. rewrite matches_phrase by done.
    change (header_at (p :: p' :: ps) t)
      with (match skip_phrase p t with
            | Some r => Some r
            | None => header_at (p' :: ps) t
            end).
    destruct (skip_phrase p t) as [r|]; [done|]. by apply IH.
Qed.

Lemma matches_tail {R} stops t g (k : str → option str → option R) :
  forallb proper_phrase stops = true →
  matches F (tail_re stops) t g k
  = if stops_here stops t then k t g else None.
Proof.
  intros Hstops. destruct stops as [|p ps].
  - done.
  - unfold tail_re. cbn [matches]. rewrite matches_alt_stop by done.
    by destruct (stops_here (p :: ps) t).
Qed.

Lemma stops_here_nil stops : stops_here stops [] = true.
Proof. unfold stops_here. simpl. apply orb_true_r. Qed.

Lemma star_lazy_first {R} (k : str → option R) stops t :
  (∀ t', stops_here stops t' = false → k t' = None) →
  (∀ t', stops_here stops t' = true → is_Some (k t')) →
  star_lazy F Dot k t = k (after_stop stops t).
Proof.
  intros Hno Hyes. induction t as [|c t IH].
  - simpl. rewrite stops_here_nil. by destruct (k []).
  - simpl. destruct (stops_here stops (c :: t)) eqn:E.
    + by destruct (Hyes _ E) as [x ->].
    + by rewrite (Hno _ E).
Qed.

Lemma until_after_stop stops t : until_stop stops t ++ after_stop stops t = t.
Proof.
  induction t as [|c t IH]; simpl.
  - by rewrite stops_here_nil.
  - destruct (stops_here stops (c :: t)); [done|]. simpl. by rewrite IH.
Qed.

Lemma after_stop_stops stops t : stops_here stops (after_stop stops t) = true.
Proof.
  induction t as [|c t IH]; simpl.
  - by rewrite !stops_here_nil.
  - by destruct (stops_here stops (c :: t)) eqn:E.
Qed.

Lemma consumed_until_stop stops t :
  consumed t (after_stop stops t) = until_stop stops t.
Proof. rewrite <- (until_after_stop stops t) at 1. apply consumed_app. Qed.

(** A match of a section pattern at the front of the text. *)
Lemma match_at_pattern p ps stops t :
  forallb proper_phrase (p :: ps) = true →
  forallb proper_phrase stops = true →
  group1 <$> match_at F (pattern_re (p :: ps) stops) t
  = (λ rest, Some (until_stop stops rest)) <$> header_at (p :: ps) t.
Proof.
  intros Hps Hstops. unfold match_at, pattern_re. cbn [matches].
  rewrite matches_alt_phrases; [|done|].
  - destruct (header_at (p :: ps) t) as [rest|]; [|done].
    rewrite (star_lazy_first _ stops).
    + rewrite matches_tail, after_stop_stops by done. simpl.
      by rewrite consumed_until_stop.
    + intros t' E. rewrite matches_tail by done. by rewrite E.
    + intros t' E. rewrite matches_tail by done. by rewrite E.
  - intros t' g'. rewrite (star_lazy_first _ stops).
    + rewrite matches_tail, after_stop_stops by done. by eexists.
    + intros t'' E. rewrite matches_tail by done. by rewrite E.
    + intros t'' E. rewrite matches_tail by done. by rewrite E.
Qed.

(** [re.search] with a section pattern finds the leftmost header and
    captures the content up to where it stops. *)
Lemma search_pattern p ps stops t :
  forallb proper_phrase (p :: ps) = true →
  forallb proper_phrase stops = true →
  group1 <$> search (pattern_re (p :: ps) stops) t F
  = (λ rest, Some (until_stop stops rest)) <$> find_header (p :: ps) t.
Proof.
  intros Hps Hstops. unfold search.
  induction t as [|c t IH].
  - pose proof (match_at_pattern p ps stops [] Hps Hstops) as H.
    change (search_from F (pattern_re (p :: ps) stops) [])
      with (match match_at F (pattern_re (p :: ps) stops) [] with
            | Some m => Some m
            | None => None
            end).
    change (find_header (p :: ps) [])
      with (match header_at (p :: ps) [] with
            | Some r => Some r
            | None => None
            end).
    destruct (match_at _ _ _), (header_at _ _); simpl in *; congruence.
  - pose proof (match_at_pattern p ps stops (c :: t) Hps Hstops) as H.
    rewrite search_from_cons.
    change (find_header (p :: ps) (c :: t))
      with (match header_at (p :: ps) (c :: t) with
            | Some r => Some r
            | None => find_header (p :: ps) t
            end).
    destruct (match_at _ _ _), (header_at _ _); simpl in *; congruence.
Qed.

Lemma section_patterns_entries :
  Helpers.section_patterns
  = map (λ e, (fst (fst e), pattern_re (snd (fst e)) (snd e))) entries.
Proof. reflexivity. Qed.

Lemma entries_proper : forallb proper_entry entries = true.
Proof. vm_compute. reflexivity. Qed.

Lemma extract_step_entry text m e :
  proper_entry e = true →
  Helpers.extract_step text (Return m)
    (fst (fst e), pattern_re (snd (fst e)) (snd e))
  = Return (segment_step text m e).
Proof.
  destruct e as [[name ps] stops]. unfold proper_entry. simpl.
  intros [[Hne Hps]%andb_prop Hstops]%andb_prop.
  destruct ps as [|p ps]; [done|].
  pose proof (search_pattern p ps stops text Hps Hstops) as H.
  unfold Helpers.extract_step, segment_step. simpl.
  destruct (search _ _ _) as [m'|], (find_header _ _) as [rest|];
    simpl in H; try congruence; [|reflexivity].
  unfold Helpers.group1_strip. injection H as ->. done.
Qed.

Lemma extract_fold text es m :
  forallb proper_entry es = true →
  fold_left (Helpers.extract_step text)
    (map (λ e, (fst (fst e), pattern_re (snd (fst e)) (snd e))) es) (Return m)
  = Return (fold_left (segment_step text) es m).
Proof.
  revert m. induction es as [|e es IH]; intros m Hes; [done|].
  simpl in Hes. apply andb_prop in Hes as [He Hes].
  cbn [map fold_left]. rewrite extract_step_entry by done. by apply IH.
Qed.

(** The regex-driven code computes the table-driven segmentation. *)
Lemma extract_text_sections_segments text :
  Helpers.extract_text_sections text = Return (segments text).
Proof.
  unfold Helpers.extract_text_sections. rewrite section_patterns_entries.
  apply extract_fold, entries_proper.
Qed.

Lemma segment_fold_other text es m name :
  name ∉ map (λ e, fst (fst e)) es →
  fold_left (segment_step text) es m !! name = m !! name.
Proof.
  revert m. induction es as [|e es IH]; intros m Hname; [done|].
  simpl. rewrite IH.
  - unfold segment_step. destruct (find_header _ _); [|done].
    apply lookup_insert_ne. intros E. apply Hname. simpl. rewrite E. left.
  - intros ?. apply Hname. by right.
Qed.

Lemma segment_fold_lookup text es m name ps stops :
  NoDup (map (λ e, fst (fst e)) es) → (name, ps, stops) ∈ es →
  m !! name = Some [] →
  fold_left (segment_step text) es m !! name
  = Some (section_text ps stops text).
Proof.
  revert m. induction es as [|e es IH]; intros m Hnd Hin Hm.
  - by apply elem_of_nil in Hin.
  - simpl in Hnd. apply NoDup_cons in Hnd as [Hfresh Hnd].
    apply elem_of_cons in Hin as [<-|Hin]; simpl.
    + rewrite segment_fold_other by done.
      unfold segment_step, section_text. simpl.
      destruct (find_header ps text); [|done]. apply lookup_insert_eq.
    + apply IH; [done..|].
      unfold segment_step. destruct (find_header _ _); [|done].
      rewrite lookup_insert_ne; [done|].
      intros E. apply Hfresh. rewrite E.
      apply (list_elem_of_fmap_2 (λ e, fst (fst e)) es (name, ps, stops) Hin).
Qed.

Lemma segment_fold_dom text es m :
  Forall (λ e, fst (fst e) ∈ dom m) es →
  dom (fold_left (segment_step text) es m) = dom m.
Proof.
  revert m. induction es as [|e es IH]; intros m Hes; [done|].
  inversion Hes as [|?? He Hes']; subst. simpl.
  assert (dom (segment_step text m e) = dom m) as Hd.
  { unfold segment_step. destruct (find_header _ _); [|done].
    rewrite dom_insert_L. by apply subseteq_union_1_L, singleton_subseteq_l. }
  rewrite IH; [done|]. by rewrite Hd.
Qed.

Lemma helpers_sections0_dom :
  dom Helpers.sections0 =
  ({[ s "summary"; s "experience"; s "education";
      s "skills"; s "projects"; s "certifications" ]} : gset str).
Proof.
  unfold Helpers.sections0. rewrite !dom_insert_L, dom_empty_L.
  apply set_eq. intros x. set_unfold. tauto.
Qed.

Lemma segments_dom text : dom (segments text) = dom Helpers.sections0.
Proof.
  apply segment_fold_dom. unfold entries. simpl.
  repeat constructor; apply elem_of_dom; by eexists.
Qed.

Lemma entries_lookup i name ps :
  section_table !! i = Some (name, ps) → (name, ps, stops_of i) ∈ entries.
Proof.
  intros Hi. unfold entries. apply list_elem_of_lookup. exists i.
  by rewrite list_lookup_imap, Hi.
Qed.

Lemma segments_lookup text i name ps :
  section_table !! i = Some (name, ps) →
  segments text !! name = Some (section_text ps (stops_of i) text).
Proof.
  intros Hi. apply segment_fold_lookup.
  - decide_compute.
  - by apply entries_lookup.
  - do 6 (destruct i as [|i]; [injection Hi as <- <-; reflexivity|]). done.
Qed.

Lemma segments_unmatched text name pattern :
  (name, pattern) ∈ Helpers.section_patterns →
  search pattern text F = None →
  segments text !! name = Some [].
Proof.
  rewrite section_patterns_entries.
  intros ([[name' ps] stops] & [= -> ->] & Hin)%list_elem_of_fmap Hnone.
  simpl in Hnone.
  pose proof entries_proper as Hproper.
  rewrite forallb_forall in Hproper.
  specialize (Hproper _ (proj1 (list_elem_of_In _ _) Hin)).
  unfold proper_entry in Hproper. simpl in Hproper.
  apply andb_prop in Hproper as [[Hne Hps]%andb_prop Hstops].
  destruct ps as [|p ps]; [done|].
  pose proof (search_pattern p ps stops text Hps Hstops) as H.
  rewrite Hnone in H. simpl in H. unfold segments.
  rewrite (segment_fold_lookup text entries _ name' (p :: ps) stops).
  - unfold section_text. by destruct (find_header _ _).
  - decide_compute.
  - done.
  - assert (name' ∈ dom Helpers.sections0) as Hd.
    { apply (list_elem_of_fmap_2 (λ e, fst (fst e))) in Hin.
      revert Hin. unfold entries. simpl. rewrite !elem_of_cons, elem_of_nil.
      intros [->|[->|[->|[->|[->|[->|[]]]]]]]; apply elem_of_dom; by eexists. }
    apply elem_of_dom in Hd as [v Hv]. rewrite Hv. f_equal.
    revert Hv. unfold Helpers.sections0.
    rewrite !lookup_insert, lookup_empty.
    repeat case_decide; by intros [= <-].
Qed.

End SegmentFacts.

(** ** The JSON decoder *)

Section JsonFacts.
Import Json.
Implicit Types (t rest : str) (v : json) (fuel : nat).

(** The loop over the members of an object returns an object. *)
Lemma object_loop_object fuel t pairs v rest :
  object_loop fuel t pairs = POk v rest → ∃ pairs', v = JObj pairs'.
Proof.
  revert t pairs. induction fuel as [|fuel IH]; intros t pairs; [done|].
  simpl. destruct (scanstring t) as [[key t1]|]; [|done].
  destruct (negb _); [done|].
  destruct (scan_once fuel _) as [value t3| |]; [|done..].
  destruct (head_is "}" _); [intros [= <- _]; by eexists|].
  destruct (negb _); [done|].
  destruct (head_is dquote _); [apply IH|done].
Qed.

(** The loop over the items of an array returns an array. *)
Lemma array_loop_array fuel t values v rest :
  array_loop fuel t values = POk v rest → ∃ items, v = JArr items.
Proof.
  revert t values. induction fuel as [|fuel IH]; intros t values; [done|].
  simpl. destruct (scan_once fuel t) as [value t1| |]; [|done..].
  destruct (head_is "]" _); [intros [= <- _]; by eexists|].
  destruct (negb _); [done|]. apply IH.
Qed.

Lemma scan_once_brace fuel t v rest :
  scan_once fuel ("{" :: t) = POk v rest → ∃ pairs, v = JObj pairs.
Proof.
  destruct fuel as [|fuel]; [done|]. simpl.
  destruct (head_is "}" _); [intros [= <- _]; by eexists|].
  destruct (head_is dquote _); [apply object_loop_object|done].
Qed.

Lemma scan_once_bracket fuel t v rest :
  scan_once fuel ("[" :: t) = POk v rest → ∃ items, v = JArr items.
Proof.
  destruct fuel as [|fuel]; [done|]. simpl.
  destruct (head_is "]" _); [intros [= <- _]; by eexists|].
  apply array_loop_array.
Qed.

(** A text that starts with a brace decodes, if at all, to an object. *)
Lemma loads_brace t v :
  loads ("{" :: t) = Return v → ∃ pairs, v = JObj pairs.
Proof.
  unfold loads. change (skip_ws ("{" :: t)) with ("{" :: t).
  destruct (scan_once _ _) as [v' rest| |] eqn:E; [|done..].
  destruct (skip_ws rest); [|done]. intros [= <-].
  by apply scan_once_brace in E.
Qed.

(** A text that starts with a bracket decodes, if at all, to an array. *)
Lemma loads_bracket t v :
  loads ("[" :: t) = Return v → ∃ items, v = JArr items.
Proof.
  unfold loads. change (skip_ws ("[" :: t)) with ("[" :: t).
  destruct (scan_once _ _) as [v' rest| |] eqn:E; [|done..].
  destruct (skip_ws rest); [|done]. intros [= <-].
  by apply scan_once_bracket in E.
Qed.

Lemma cons_char_some c r (x : ustr) rest :
  cons_char c r = Some (x, rest) → ∃ x', r = Some (x', rest).
Proof. destruct r as [[x' rest']|]; simpl; [intros [= _ <-]; eauto | done]. Qed.

Lemma scanstring_shorter_aux n :
  ∀ t x rest, (length t ≤ n)%nat →
    scanstring t = Some (x, rest) → (length rest < length t)%nat.
Proof.
  induction n as [|n IH]; intros t x rest Hn.
  - destruct t; [done | simpl in Hn; lia].
  - destruct t as [|c r]; [done|]. simpl.
    destruct (Ascii.eqb c dquote). { intros [= _ <-]. simpl. lia. }
    destruct (Ascii.eqb c "\").
    + destruct r as [|e r1]; [done|]. destruct (Ascii.eqb e "u").
      * destruct r1 as [|h1 [|h2 [|h3 [|h4 r2]]]]; try done.
        destruct (hex4 h1 h2 h3 h4) as [uni|]; [|done].
        assert (∀ x rest, cons_char uni (scanstring r2) = Some (x, rest) →
                  (length rest < length (c :: e :: h1 :: h2 :: h3 :: h4 :: r2))%nat)
          as Hr2.
        { intros ?? (x' & E)%cons_char_some. apply IH in E; simpl in *; lia. }
        destruct (_ && _); [|apply Hr2].
        destruct r2 as [|b [|y [|l1 [|l2 [|l3 [|l4 r3]]]]]]; try apply Hr2.
        cbv beta iota.
        destruct (_ && _); [|apply Hr2].
        destruct (hex4 l1 l2 l3 l4) as [uni2|]; [|done].
        destruct (_ && _); [|apply Hr2].
        intros (x' & E)%cons_char_some. apply IH in E; simpl in *; lia.
      * destruct (backslash e); [|done].
        intros (x' & E)%cons_char_some. apply IH in E; simpl in *; lia.
    + destruct (code c <? 32)%N; [done|].
      intros (x' & E)%cons_char_some. apply IH in E; simpl in *; lia.
Qed.

Lemma scanstring_shorter t x rest :
  scanstring t = Some (x, rest) → (length rest < length t)%nat.
Proof. by apply (scanstring_shorter_aux (length t)). Qed.

Lemma skip_ws_length t : (length (skip_ws t) ≤ length t)%nat.
Proof.
  induction t as [|c t IH]; simpl; [done|]. destruct (is_ws c); simpl; lia.
Qed.

Lemma head_is_tail c t : head_is c t = true → S (length (tail t)) = length t.
Proof. by destruct t. Qed.

Lemma span_digits_length t ds rest :
  span_digits t = (ds, rest) → (length rest ≤ length t)%nat.
Proof.
  revert ds rest. induction t as [|c t IH]; intros ds rest; simpl.
  - by intros [= _ <-].
  - destruct (is_digit c).
    + destruct (span_digits t) as [ds' rest'] eqn:E. intros [= _ <-].
      specialize (IH _ _ eq_refl). lia.
    + intros [= _ <-]. simpl. lia.
Qed.

Lemma match_integer_shorter t i rest :
  match_integer t = Some (i, rest) → (length rest < length t)%nat.
Proof.
  unfold match_integer.
  assert (∀ sign t1, (length t1 ≤ length t)%nat →
    match t1 with
    | c :: r =>
        if Ascii.eqb c "0" then Some (sign ++ [c], r)
        else if is_digit c
             then let '(ds, rest) := span_digits r in Some (sign ++ c :: ds, rest)
             else None
    | [] => None
    end = Some (i, rest) → (length rest < length t)%nat) as Hpart.
  { intros sign [|c r] Hlen; [done|]. simpl in Hlen.
    destruct (Ascii.eqb c "0"); [intros [= _ <-]; lia|].
    destruct (is_digit c); [|done].
    destruct (span_digits r) as [ds rest'] eqn:E. intros [= _ <-].
    apply span_digits_length in E. lia. }
  destruct t as [|c r]; [done|].
  destruct (Ascii.eqb c "-").
  - apply (Hpart [c] r). simpl. lia.
  - by apply (Hpart [] (c :: r)).
Qed.

Lemma match_frac_length t fr rest :
  match_frac t = (fr, rest) → (length rest ≤ length t)%nat.
Proof.
  unfold match_frac. destruct t as [|c [|d r]]; try by intros [= _ <-].
  destruct (_ && _); [|by intros [= _ <-]].
  destruct (span_digits r) as [ds rest'] eqn:E. intros [= _ <-].
  apply span_digits_length in E. simpl. lia.
Qed.

Lemma match_exp_length t ex rest :
  match_exp t = (ex, rest) → (length rest ≤ length t)%nat.
Proof.
  unfold match_exp. destruct t as [|e [|c r]]; try by intros [= _ <-].
  destruct (_ || _); [|by intros [= _ <-]].
  destruct (is_digit c).
  - destruct (span_digits r) as [ds rest'] eqn:E. intros [= _ <-].
    apply span_digits_length in E. simpl. lia.
  - destruct (_ || _); [|by intros [= _ <-]].
    destruct r as [|d r']; [by intros [= _ <-]|].
    destruct (is_digit d); [|by intros [= _ <-]].
    destruct (span_digits r') as [ds rest'] eqn:E. intros [= _ <-].
    apply span_digits_length in E. simpl. lia.
Qed.

Lemma scan_number_result t res :
  scan_number t = Some res →
  res ≠ PFuel
  ∧ ∀ v rest, res = POk v rest → (length rest < length t)%nat.
Proof.
  unfold scan_number.
  destruct (match_integer t) as [[integer t1]|] eqn:Ei; [|done].
  apply match_integer_shorter in Ei.
  destruct (match_frac t1) as [fr t2] eqn:Ef. apply match_frac_length in Ef.
  destruct (match_exp t2) as [ex t3] eqn:Ee. apply match_exp_length in Ee.
  destruct (_ || _).
  { intros [= <-]. split; [done|]. intros ?? [= _ <-]. lia. }
  destruct integer as [|c ds]; [done|].
  destruct (Ascii.eqb c "-"); destruct (_ <? _)%nat; intros [= <-];
    (split; [done|]); intros ?? [=]; subst; lia.
Qed.

(** A successful scan consumes at least one character. *)
Lemma scan_shorter fuel :
  (∀ t v rest, scan_once fuel t = POk v rest → (length rest < length t)%nat)
  ∧ (∀ t pairs v rest,
       object_loop fuel t pairs = POk v rest → (length rest < length t)%nat)
  ∧ (∀ t values v rest,
       array_loop fuel t values = POk v rest → (length rest < length t)%nat).
Proof.
  induction fuel as [|fuel (IHs & IHo & IHa)]; [done|]. split_and!.
  - intros [|c r] v rest; [done|]. simpl.
    destruct (Ascii.eqb c dquote).
    { destruct (scanstring r) as [[x rest']|] eqn:E; [|done].
      intros [= _ <-]. apply scanstring_shorter in E. lia. }
    destruct (Ascii.eqb c "{").
    { pose proof (skip_ws_length r).
      destruct (head_is "}" _) eqn:E1.
      { intros [= _ <-]. apply head_is_tail in E1. lia. }
      destruct (head_is dquote _) eqn:E2; [|done].
      intros E%IHo. apply head_is_tail in E2. lia. }
    destruct (Ascii.eqb c "[").
    { pose proof (skip_ws_length r).
      destruct (head_is "]" _) eqn:E1.
      { intros [= _ <-]. apply head_is_tail in E1. lia. }
      intros E%IHa. lia. }
    destruct (_ && _). { intros [= _ <-]. simpl. rewrite length_drop. lia. }
    destruct (_ && _). { intros [= _ <-]. simpl. rewrite length_drop. lia. }
    destruct (_ && _). { intros [= _ <-]. simpl. rewrite length_drop. lia. }
    destruct (scan_number (c :: r)) as [res|] eqn:En.
    { apply scan_number_result in En as [_ Hlen]. intros E. by apply (Hlen v rest). }
    destruct (_ && _). { intros [= _ <-]. simpl. rewrite length_drop. lia. }
    destruct (_ && _). { intros [= _ <-]. simpl. rewrite length_drop. lia. }
    destruct (_ && _); [|done]. intros [= _ <-]. simpl. rewrite length_drop. lia.
  - intros t pairs v rest. simpl.
    destruct (scanstring t) as [[key t1]|] eqn:Ek; [|done].
    apply scanstring_shorter in Ek.
    destruct (negb _); [done|].
    destruct (scan_once fuel _) as [value t3| |] eqn:Ev; [|done..].
    apply IHs in Ev.
    pose proof (skip_ws_length (tail (skip_ws t1))).
    pose proof (skip_ws_length t1). pose proof (skip_ws_length t3).
    assert (length (tail (skip_ws t1)) ≤ length (skip_ws t1))%nat
      by (destruct (skip_ws t1); simpl; lia).
    destruct (head_is "}" _) eqn:E1.
    { intros [= _ <-]. apply head_is_tail in E1. lia. }
    destruct (negb _); [done|].
    destruct (head_is dquote _) eqn:E2; [|done].
    intros E%IHo. apply head_is_tail in E2.
    pose proof (skip_ws_length (tail (skip_ws t3))).
    assert (length (tail (skip_ws t3)) ≤ length (skip_ws t3))%nat
      by (destruct (skip_ws t3); simpl; lia).
    lia.
  - intros t values v rest. simpl.
    destruct (scan_once fuel t) as [value t1| |] eqn:Ev; [|done..].
    apply IHs in Ev. pose proof (skip_ws_length t1).
    destruct (head_is "]" _) eqn:E1.
    { intros [= _ <-]. apply head_is_tail in E1. lia. }
    destruct (negb _); [done|].
    intros E%IHa.
    pose proof (skip_ws_length (tail (skip_ws t1))).
    assert (length (tail (skip_ws t1)) ≤ length (skip_ws t1))%nat
      by (destruct (skip_ws t1); simpl; lia).
    lia.
Qed.

(** The decoder never runs out of fuel when given twice the length of
    the text. *)
Lemma scan_fuel fuel :
  (∀ t, (2 * length t + 1 ≤ fuel)%nat → scan_once fuel t ≠ PFuel)
  ∧ (∀ t pairs,
       (2 * length t + 1 ≤ fuel)%nat → object_loop fuel t pairs ≠ PFuel)
  ∧ (∀ t values,
       (2 * length t + 2 ≤ fuel)%nat → array_loop fuel t values ≠ PFuel).
Proof.
  induction fuel as [|fuel (IHs & IHo & IHa)].
  { split_and!; intros; lia. }
  destruct (scan_shorter fuel) as (Ls & Lo & La).
  split_and!.
  - intros [|c r] Hf; [done|]. simpl in Hf |- *.
    destruct (Ascii.eqb c dquote). { by destruct (scanstring r) as [[? ?]|]. }
    destruct (Ascii.eqb c "{").
    { pose proof (skip_ws_length r).
      destruct (head_is "}" _); [done|].
      destruct (head_is dquote _) eqn:E2; [|done].
      apply head_is_tail in E2. apply IHo. lia. }
    destruct (Ascii.eqb c "[").
    { pose proof (skip_ws_length r).
      destruct (head_is "]" _); [done|]. apply IHa. lia. }
    repeat (destruct (_ && _); [done|]).
    destruct (scan_number (c :: r)) as [res|] eqn:En.
    { by apply scan_number_result in En as [? _]. }
    repeat (destruct (_ && _); [done|]). done.
  - intros t pairs Hf. simpl.
    destruct (scanstring t) as [[key t1]|] eqn:Ek; [|done].
    apply scanstring_shorter in Ek.
    destruct (head_is ":" (skip_ws t1)) eqn:Ec; [|done]. simpl.
    apply head_is_tail in Ec.
    pose proof (skip_ws_length t1).
    pose proof (skip_ws_length (tail (skip_ws t1))).
    destruct (scan_once fuel _) as [value t3| |] eqn:Ev; [|done|].
    + apply Ls in Ev. pose proof (skip_ws_length t3).
      destruct (head_is "}" _); [done|].
      destruct (head_is "," (skip_ws t3)) eqn:E1; [|done]. simpl.
      apply head_is_tail in E1.
      pose proof (skip_ws_length (tail (skip_ws t3))).
      destruct (head_is dquote _) eqn:E2; [|done].
      apply head_is_tail in E2. apply IHo. lia.
    + exfalso. revert Ev. apply IHs. lia.
  - intros t values Hf. simpl.
    destruct (scan_once fuel t) as [value t1| |] eqn:Ev; [|done|].
    + apply Ls in Ev. pose proof (skip_ws_length t1).
      destruct (head_is "]" _); [done|].
      destruct (head_is "," (skip_ws t1)) eqn:E1; [|done]. simpl.
      apply head_is_tail in E1.
      pose proof (skip_ws_length (tail (skip_ws t1))).
      apply IHa. lia.
    + exfalso. revert Ev. apply IHs. lia.
Qed.

(** [loads] raises only what the decoder raises: its fuel suffices. *)
Lemma loads_fuel t : scan_once (fuel_for t) (skip_ws t) ≠ PFuel.
Proof.
  apply scan_fuel. unfold fuel_for. pose proof (skip_ws_length t). lia.
Qed.

End JsonFacts.

(** ** Whitespace at the ends of a completion *)

Section StripFacts.
Implicit Types (t a b : str) (x c : ascii).

Lemma lstrip_app_nonspace a x b :
  isspace x = false → lstrip (a ++ x :: b) = lstrip a ++ x :: b.
Proof.
  intros Hx. induction a as [|c a IH]; simpl.
  - by rewrite Hx.
  - by destruct (isspace c).
Qed.

Lemma rstrip_app_nonspace a x b :
  isspace x = false → rstrip (a ++ x :: b) = a ++ x :: rstrip b.
Proof.
  intros Hx. unfold rstrip.
  rewrite rev_app_distr. simpl. rewrite <- app_assoc. simpl.
  rewrite lstrip_app_nonspace by done.
  rewrite rev_app_distr. simpl. rewrite rev_involutive.
  by rewrite <- app_assoc.
Qed.

Lemma strip_span pre o mid c post :
  isspace o = false → isspace c = false →
  strip (pre ++ o :: mid ++ c :: post)
  = lstrip pre ++ o :: mid ++ c :: rstrip post.
Proof.
  intros Ho Hc. unfold strip. rewrite lstrip_app_nonspace by done.
  change (lstrip pre ++ o :: mid ++ c :: post)
    with (lstrip pre ++ (o :: mid) ++ c :: post).
  rewrite app_assoc, rstrip_app_nonspace by done.
  by rewrite <- app_assoc.
Qed.

Lemma lstrip_decompose t : ∃ a, t = a ++ lstrip t.
Proof.
  induction t as [|c t [a IH]]; [by exists []|]. simpl.
  destruct (isspace c); [|by exists []].
  exists (c :: a). simpl. by rewrite <- IH.
Qed.

Lemma rstrip_decompose t : ∃ b, t = rstrip t ++ b.
Proof.
  unfold rstrip. destruct (lstrip_decompose (rev t)) as [a Ha].
  exists (rev a). rewrite <- rev_app_distr, <- Ha. by rewrite rev_involutive.
Qed.

Lemma strip_decompose t : ∃ a b, t = a ++ strip t ++ b.
Proof.
  destruct (lstrip_decompose t) as [a Ha].
  destruct (rstrip_decompose (lstrip t)) as [b Hb].
  exists a, b. unfold strip. by rewrite <- Hb.
Qed.

Lemma lstrip_elem x t : x ∈ lstrip t → x ∈ t.
Proof.
  destruct (lstrip_decompose t) as [a Ha]. intros H. rewrite Ha.
  apply elem_of_app. by right.
Qed.

Lemma rstrip_elem x t : x ∈ rstrip t → x ∈ t.
Proof.
  destruct (rstrip_decompose t) as [b Hb]. intros H. rewrite Hb.
  apply elem_of_app. by left.
Qed.

(** A completion with no span has none after stripping either. *)
Lemma strip_no_span o c t :
  (∀ pre rest, t = pre ++ o :: rest → c ∉ rest) →
  ∀ pre rest, strip t = pre ++ o :: rest → c ∉ rest.
Proof.
  intros Hno pre rest E Hin.
  destruct (strip_decompose t) as (a & b & Ht). rewrite E in Ht.
  apply (Hno (a ++ pre) (rest ++ b)).
  - rewrite Ht. by rewrite <- !app_assoc.
  - apply elem_of_app. by left.
Qed.

End StripFacts.

(** ** The interpreter of AI responses *)

Section Interpreter.
Import Re Json SpanSpec.
Implicit Types (t text pre mid post : str) (o c : ascii).

Local Abbreviation D := (Flags false true).

Lemma star_result {R} f a (k : str → option R) t y :
  star f a k t = Some y → ∃ t', t' `suffix_of` t ∧ k t' = Some y.
Proof.
  induction t as [|x t IH]; simpl.
  - intros H. by exists [].
  - destruct (atom_match f a x).
    + destruct (star f a k t) eqn:E.
      * intros [= <-]. destruct (IH eq_refl) as (t' & Hs & Hk).
        exists t'. split; [by apply suffix_cons_r|done].
      * intros H. by exists (x :: t).
    + intros H. by exists (x :: t).
Qed.

Lemma match_at_span_head o c t m :
  match_at D (span_re o c) t = Some m → ∃ x, group0 m = o :: x.
Proof.
  unfold match_at, span_re. cbn [seq matches].
  destruct t as [|x t]; [done|].
  rewrite (chr_match_exact D) by done. case_bool_decide as Hx; [subst x|done].
  intros (t' & Hs & Hk)%star_result.
  destruct t' as [|y t']; [done|].
  destruct (atom_match _ _ _); [|done]. injection Hk as <-. simpl.
  assert (length t' < length t)%nat.
  { destruct Hs as [l ->]. rewrite length_app. simpl. lia. }
  unfold consumed. simpl length.
  replace (S (length t) - length t')%nat with (S (length t - length t'))
    by lia.
  simpl. by eexists.
Qed.

Lemma search_span_head o c t m :
  search (span_re o c) t D = Some m → ∃ x, group0 m = o :: x.
Proof.
  unfold search. induction t as [|x t IH].
  - done.
  - rewrite search_from_cons.
    destruct (match_at D (span_re o c) (x :: t)) eqn:E; [|done].
    intros [= <-]. by apply match_at_span_head in E.
Qed.

(** The span found in a stripped completion. *)
Lemma search_strip_span o c pre mid post :
  isspace o = false → isspace c = false → o ∉ pre → c ∉ post →
  search (span_re o c) (strip (pre ++ o :: mid ++ c :: post)) D
  = Some (MkMatch (o :: mid ++ [c]) None).
Proof.
  intros Ho Hc Hpre Hpost. rewrite strip_span by done.
  apply (search_span D); [done|done| |].
  - intros ?%lstrip_elem. done.
  - intros ?%rstrip_elem. done.
Qed.

Lemma search_strip_none o c t :
  (∀ pre rest, t = pre ++ o :: rest → c ∉ rest) →
  search (span_re o c) (strip t) D = None.
Proof.
  intros Hno. apply (search_span_none D); [done..|]. by apply strip_no_span.
Qed.

Section Services.
Variable generate_content : str → Outcome str.
Variable prompt : str → str → str.
Variable enhance_prompt : json → str → str.
Variable suggest_prompt : str → str.

Local Abbreviation score :=
  (ATSScorer.calculate_ats_score generate_content prompt).
Local Abbreviation enhance :=
  (AIEnhancer.enhance_resume_content generate_content enhance_prompt).
Local Abbreviation suggest :=
  (AIEnhancer.suggest_improvements generate_content suggest_prompt).

Lemma score_raise rt jd e :
  generate_content (prompt rt jd) = Raise e →
  score rt jd = Return ATSScorer._get_default_score.
Proof.
  intros H. unfold ATSScorer.calculate_ats_score,
    ATSScorer.calculate_ats_score_try. rewrite H. by destruct e.
Qed.

Lemma score_no_span rt jd text :
  generate_content (prompt rt jd) = Return text →
  (∀ pre rest, text = pre ++ "{" :: rest → "}" ∉ rest) →
  score rt jd = Return ATSScorer._get_default_score.
Proof.
  intros H Hno. unfold ATSScorer.calculate_ats_score,
    ATSScorer.calculate_ats_score_try. rewrite H. simpl.
  change ATSScorer.json_object with (span_re "{" "}").
  by rewrite search_strip_none.
Qed.

Lemma score_span rt jd pre mid post :
  generate_content (prompt rt jd) = Return (pre ++ "{" :: mid ++ "}" :: post) →
  "{" ∉ pre → "}" ∉ post →
  score rt jd
  = match loads ("{" :: mid ++ ["}"]) with
    | Return v => Return v
    | Raise _ => Return ATSScorer._get_default_score
    end.
Proof.
  intros H Hpre Hpost. unfold ATSScorer.calculate_ats_score,
    ATSScorer.calculate_ats_score_try. rewrite H. simpl.
  change ATSScorer.json_object with (span_re "{" "}").
  rewrite search_strip_span by done. simpl.
  destruct (loads _) as [v|e] eqn:E.
  - apply loads_brace in E as [pairs ->]. reflexivity.
  - by destruct e.
Qed.

Lemma score_total rt jd : ∃ v, score rt jd = Return v.
Proof.
  unfold ATSScorer.calculate_ats_score, ATSScorer.calculate_ats_score_try.
  destruct (generate_content _) as [text|e]; [|destruct e; by eexists].
  simpl. destruct (search _ _ _) as [m|] eqn:Es; [|by eexists].
  change ATSScorer.json_object with (span_re "{" "}") in Es.
  apply search_span_head in Es as [x ->].
  destruct (loads _) as [v|e] eqn:E.
  - apply loads_brace in E as [pairs ->]. by eexists.
  - destruct e; by eexists.
Qed.

Lemma enhance_raise data jd e :
  generate_content (enhance_prompt data jd) = Raise e →
  enhance data jd = Return data.
Proof.
  intros H. unfold AIEnhancer.enhance_resume_content,
    AIEnhancer.enhance_resume_content_try. rewrite H. by destruct e.
Qed.

Lemma enhance_no_span data jd text :
  generate_content (enhance_prompt data jd) = Return text →
  (∀ pre rest, text = pre ++ "{" :: rest → "}" ∉ rest) →
  enhance data jd = Return data.
Proof.
  intros H Hno. unfold AIEnhancer.enhance_resume_content,
    AIEnhancer.enhance_resume_content_try. rewrite H. simpl.
  change ATSScorer.json_object with (span_re "{" "}").
  by rewrite search_strip_none.
Qed.

Lemma enhance_span data jd pre mid post :
  generate_content (enhance_prompt data jd)
  = Return (pre ++ "{" :: mid ++ "}" :: post) →
  "{" ∉ pre → "}" ∉ post →
  enhance data jd
  = match loads ("{" :: mid ++ ["}"]) with
    | Return v => Return v
    | Raise _ => Return data
    end.
Proof.
  intros H Hpre Hpost. unfold AIEnhancer.enhance_resume_content,
    AIEnhancer.enhance_resume_content_try. rewrite H. simpl.
  change ATSScorer.json_object with (span_re "{" "}").
  rewrite search_strip_span by done. simpl.
  destruct (loads _) as [v|e]; [done|by destruct e].
Qed.

Lemma enhance_total data jd : ∃ v, enhance data jd = Return v.
Proof.
  unfold AIEnhancer.enhance_resume_content,
    AIEnhancer.enhance_resume_content_try.
  destruct (generate_content _) as [text|e]; [|destruct e; by eexists].
  simpl. destruct (search _ _ _) as [m|]; [|by eexists].
  destruct (loads _) as [v|e]; [by eexists|destruct e; by eexists].
Qed.

Lemma suggest_raise rt e :
  generate_content (suggest_prompt rt) = Raise e →
  suggest rt = Return (JArr []).
Proof.
  intros H. unfold AIEnhancer.suggest_improvements,
    AIEnhancer.suggest_improvements_try. rewrite H. by destruct e.
Qed.

Lemma suggest_no_span rt text :
  generate_content (suggest_prompt rt) = Return text →
  (∀ pre rest, text = pre ++ "[" :: rest → "]" ∉ rest) →
  suggest rt = Return AIEnhancer.canned_suggestions.
Proof.
  intros H Hno. unfold AIEnhancer.suggest_improvements,
    AIEnhancer.suggest_improvements_try. rewrite H. simpl.
  change AIEnhancer.json_array with (span_re "[" "]").
  by rewrite search_strip_none.
Qed.

Lemma suggest_span rt pre mid post :
  generate_content (suggest_prompt rt)
  = Return (pre ++ "[" :: mid ++ "]" :: post) →
  "[" ∉ pre → "]" ∉ post →
  suggest rt
  = match loads ("[" :: mid ++ ["]"]) with
    | Return v => Return v
    | Raise _ => Return (JArr [])
    end.
Proof.
  intros H Hpre Hpost. unfold AIEnhancer.suggest_improvements,
    AIEnhancer.suggest_improvements_try. rewrite H. simpl.
  change AIEnhancer.json_array with (span_re "[" "]").
  rewrite search_strip_span by done. simpl.
  destruct (loads _) as [v|e] eqn:E.
  - apply loads_bracket in E as [items ->]. reflexivity.
  - by destruct e.
Qed.

Lemma suggest_total rt : ∃ v, suggest rt = Return v.
Proof.
  unfold AIEnhancer.suggest_improvements, AIEnhancer.suggest_improvements_try.
  destruct (generate_content _) as [text|e]; [|destruct e; by eexists].
  simpl. destruct (search _ _ _) as [m|] eqn:Es; [|by eexists].
  change AIEnhancer.json_array with (span_re "[" "]") in Es.
  apply search_span_head in Es as [x ->].
  destruct (loads _) as [v|e] eqn:E.
  - apply loads_bracket in E as [items ->]. by eexists.
  - destruct e; by eexists.
Qed.

End Services.
End Interpreter.

(** C1.  [calculate_ats_score] never raises.  It returns the fixed
    default result (score 65 with the canned missing_keywords,
    suggestions, sections_analysis and summary) when the AI call raises,
    when the completion has no opening brace followed by a closing one, and
    when the span from the first opening to the last closing brace does not
    decode; otherwise it returns the decoded value. *)
Theorem calculate_ats_score_fallback
  (generate_content : str → Outcome str) (prompt : str → str → str)
  (resume_text job_description : str) :
  let result :=
    ATSScorer.calculate_ats_score generate_content prompt
      resume_text job_description in
  (∃ v, result = Return v)
  ∧ (∀ e, generate_content (prompt resume_text job_description) = Raise e →
          result = Return ATSScorer._get_default_score)
  ∧ (∀ text,
       generate_content (prompt resume_text job_description) = Return text →
       (∀ pre rest, text = pre ++ "{" :: rest → "}" ∉ rest) →
       result = Return ATSScorer._get_default_score)
  ∧ (∀ pre mid post,
       generate_content (prompt resume_text job_description)
       = Return (pre ++ "{" :: mid ++ "}" :: post) →
       "{" ∉ pre → "}" ∉ post →
       (∀ e, Json.loads ("{" :: mid ++ ["}"]) = Raise e →
             result = Return ATSScorer._get_default_score)
       ∧ (∀ v, Json.loads ("{" :: mid ++ ["}"]) = Return v →
               result = Return v))
  ∧ Json.get ATSScorer._get_default_score (Json.u "score") Json.JNull
    = Return (Json.JInt 65)
  ∧ (∃ pairs, ATSScorer._get_default_score = Json.JObj pairs
       ∧ map fst pairs
         = [Json.u "score"; Json.u "missing_keywords"; Json.u "suggestions";
            Json.u "sections_analysis"; Json.u "summary"]).
Proof.
  cbv zeta. split_and!.
  - apply score_total.
  - apply score_raise.
  - apply score_no_span.
  - intros pre mid post H Hpre Hpost.
    rewrite (score_span _ _ _ _ _ _ _ H Hpre Hpost).
    split; [by intros e ->|by intros v ->].
  - reflexivity.
  - by eexists.
Qed.

Lemma calculate_ats_score_fallback_witness :
  ATSScorer.calculate_ats_score (λ _, Return (s "not json at all"))
    (λ resume _, resume) (s "resume") (s "")
  = Return ATSScorer._get_default_score.
Proof.
  apply (proj1 (proj2 (proj2
    (calculate_ats_score_fallback (λ _, Return (s "not json at all"))
       (λ resume _, resume) (s "resume") (s ""))))
    (s "not json at all") eq_refl).
  intros pre rest E. exfalso.
  assert ("{" ∈ s "not json at all") as Hin
    by (rewrite E; apply elem_of_app; right; left).
  revert Hin. decide_compute.
Defined.



(** C8.  [suggest_improvements] never raises, and its failure modes
    differ: with no opening bracket followed by a closing one in the
    completion it returns the canned list of exactly five suggestions; with
    a span that does not decode, and when the AI call raises, it returns
    the empty list. *)
Theorem suggest_improvements_asymmetry
  (generate_content : str → Outcome str) (suggest_prompt : str → str)
  (resume_text : str) :
  let result :=
    AIEnhancer.suggest_improvements generate_content suggest_prompt
      resume_text in
  (∃ v, result = Return v)
  ∧ (∀ text,
       generate_content (suggest_prompt resume_text) = Return text →
       (∀ pre rest, text = pre ++ "[" :: rest → "]" ∉ rest) →
       result = Return AIEnhancer.canned_suggestions)
  ∧ (∃ items, AIEnhancer.canned_suggestions = Json.JArr items
              ∧ length items = 5%nat)
  ∧ (∀ pre mid post e,
       generate_content (suggest_prompt resume_text)
       = Return (pre ++ "[" :: mid ++ "]" :: post) →
       "[" ∉ pre → "]" ∉ post →
       Json.loads ("[" :: mid ++ ["]"]) = Raise e →
       result = Return (Json.JArr []))
  ∧ (∀ e, generate_content (suggest_prompt resume_text) = Raise e →
          result = Return (Json.JArr [])).
Proof.
  cbv zeta. split_and!.
  - apply suggest_total.
  - apply suggest_no_span.
  - by eexists.
  - intros pre mid post e H Hpre Hpost E.
    by rewrite (suggest_span _ _ _ _ _ _ H Hpre Hpost), E.
  - apply suggest_raise.
Qed.

Lemma suggest_improvements_asymmetry_witness :
  AIEnhancer.suggest_improvements (λ _, Return (s "1. [add metrics, verbs]"))
    (λ resume, resume) (s "resume")
  = Return (Json.JArr []).
Proof.
  apply (proj1 (proj2 (proj2 (proj2
    (suggest_improvements_asymmetry
       (λ _, Return (s "1. [add metrics, verbs]"))
       (λ resume, resume) (s "resume")))))
    (s "1. ") (s "add metrics, verbs") [] JSONDecodeError eq_refl).
  - decide_compute.
  - decide_compute.
  - vm_compute. reflexivity.
Defined.

(** C4.  The interpreter of AI responses searches with the patterns
    [{.*}] and [[.*]] under DOTALL; the span it finds runs from the first
    opening to the last closing character, newlines included, whatever
    lies between them, and there is no span when no opening character is
    followed by a closing one.  Each service decodes exactly that span.
    The completion [noise noise {"score": 80} trailing] yields the object
    with the one member score = 80, and two objects side by side are not
    told apart: the span covers both and does not decode. *)
Theorem ai_response_span :
  ATSScorer.json_object = SpanSpec.span_re "{" "}"
  ∧ AIEnhancer.json_array = SpanSpec.span_re "[" "]"
  ∧ (∀ o c pre mid post,
       o ∉ pre → c ∉ post →
       Re.search (SpanSpec.span_re o c) (pre ++ o :: mid ++ c :: post)
         (Re.Flags false true)
       = Some (Re.MkMatch (o :: mid ++ [c]) None))
  ∧ (∀ o c t,
       (∀ pre rest, t = pre ++ o :: rest → c ∉ rest) →
       Re.search (SpanSpec.span_re o c) t (Re.Flags false true) = None)
  ∧ (∀ generate_content prompt resume_text job_description pre mid post,
       generate_content (prompt resume_text job_description)
       = Return (pre ++ "{" :: mid ++ "}" :: post) →
       "{" ∉ pre → "}" ∉ post →
       ATSScorer.calculate_ats_score generate_content prompt
         resume_text job_description
       = match Json.loads ("{" :: mid ++ ["}"]) with
         | Return v => Return v
         | Raise _ => Return ATSScorer._get_default_score
         end)
  ∧ (∀ generate_content prompt resume_data job_description pre mid post,
       generate_content (prompt resume_data job_description)
       = Return (pre ++ "{" :: mid ++ "}" :: post) →
       "{" ∉ pre → "}" ∉ post →
       AIEnhancer.enhance_resume_content generate_content prompt
         resume_data job_description
       = match Json.loads ("{" :: mid ++ ["}"]) with
         | Return v => Return v
         | Raise _ => Return resume_data
         end)
  ∧ (∀ generate_content prompt resume_text pre mid post,
       generate_content (prompt resume_text)
       = Return (pre ++ "[" :: mid ++ "]" :: post) →
       "[" ∉ pre → "]" ∉ post →
       AIEnhancer.suggest_improvements generate_content prompt resume_text
       = match Json.loads ("[" :: mid ++ ["]"]) with
         | Return v => Return v
         | Raise _ => Return (Json.JArr [])
         end)
  ∧ (∀ prompt resume_text job_description,
       ATSScorer.calculate_ats_score
         (λ _, Return (s "noise noise {" ++ dquote :: s "score"
                         ++ dquote :: s ": 80} trailing"))
         prompt resume_text job_description
       = Return (Json.JObj [(Json.u "score", Json.JInt 80)]))
  ∧ (∀ prompt resume_text job_description,
       ATSScorer.calculate_ats_score (λ _, Return (s "{} {}"))
         prompt resume_text job_description
       = Return ATSScorer._get_default_score).
Proof.
  split_and!.
  - reflexivity.
  - reflexivity.
  - intros. by apply (search_span (Re.Flags false true)).
  - intros. by apply (search_span_none (Re.Flags false true)).
  - apply score_span.
  - apply enhance_span.
  - apply suggest_span.
  - intros. vm_compute. reflexivity.
  - intros. vm_compute. reflexivity.
Qed.

Lemma ai_response_span_witness :
  Re.search (SpanSpec.span_re "{" "}")
    (s "a" ++ "{" :: s "b}c" ++ "}" :: s "d{e") (Re.Flags false true)
  = Some (Re.MkMatch ("{" :: s "b}c" ++ ["}"]) None).
Proof.
  apply (proj1 (proj2 (proj2 ai_response_span))).
  - decide_compute.
  - decide_compute.
Defined.

(** C3.  Both segmentation algorithms return a map whose keys are exactly
    summary, experience, education, skills, projects and certifications;
    the anchored-regex one gives the empty string to every section whose
    pattern finds no match, the line-scanning one to every section that no
    line opens. *)
Theorem segmenters_six_keys :
  (∀ text,
     ∃ m, Helpers.extract_text_sections text = Return m
          ∧ dom m = ({[ s "summary"; s "experience"; s "education";
                        s "skills"; s "projects"; s "certifications" ]}
                     : gset str)
          ∧ ∀ name pattern,
              (name, pattern) ∈ Helpers.section_patterns →
              Re.search pattern text (Re.Flags true true) = None →
              m !! name = Some [])
  ∧ (∀ text,
       dom (PDFParser.extract_sections text)
       = ({[ s "summary"; s "experience"; s "education";
             s "skills"; s "projects"; s "certifications" ]} : gset str)
       ∧ ∀ sec,
           sec ∈ map fst PDFParser.section_keywords →
           Forall (λ l, PDFParser.boundary l ≠ Some sec)
                  (split_on newline text) →
           PDFParser.extract_sections text !! sec = Some []).
Proof.
  split.
  - intros text. exists (SegmentSpec.segments text). split_and!.
    + apply extract_text_sections_segments.
    + rewrite segments_dom. apply helpers_sections0_dom.
    + apply segments_unmatched.
  - intros text. split.
    + destruct (extract_sections_invariant text) as [-> _].
      apply sections0_dom.
    + intros sec. apply extract_sections_untouched.
Qed.

Lemma segmenters_six_keys_witness :
  PDFParser.extract_sections (s "John Doe") !! s "skills" = Some [].
Proof.
  apply (proj2 (proj2 segmenters_six_keys (s "John Doe"))).
  - decide_compute.
  - repeat constructor. vm_compute. discriminate.
Defined.

(** C5, as the claim states it, fails: the content of the education
    section does not stop at [objective], a header synonym of the summary
    section. *)
Lemma anchored_regex_lookahead_counterexample :
  Helpers.extract_text_sections (s "education MIT objective foo")
  = Return (<[s "education" := s "MIT objective foo"]>
              (<[s "summary" := s "foo"]> Helpers.sections0))
  ∧ contains (s "objective") (s "MIT objective foo") = true
  ∧ [s "objective"] ∈ [[s "professional"; s "summary"]; [s "objective"];
                       [s "about"]; [s "profile"]].
Proof.
  split_and!.
  - vm_compute. reflexivity.
  - reflexivity.
  - decide_compute.
Qed.

(** C5, amended.  In anchored-regex extraction the pattern of each of the
    six sections has the shape [(?:<synonyms>)(.*?)<tail>], where the tail
    is a lookahead on the first synonym of each later section (in the
    order summary, experience, education, skills, projects,
    certifications) or the end of the text, and for the last section the
    bare end-of-text anchor.  So the value of a section is the stripped
    text between its leftmost header synonym and the first primary header
    of a later section or the end of the text; if no synonym of the
    section is found, its value is the empty string. *)
Theorem anchored_regex_sections :
  Helpers.section_patterns
  = map (λ e, (fst (fst e),
               SegmentSpec.pattern_re (snd (fst e)) (snd e)))
        SegmentSpec.entries
  ∧ (∀ text i name synonyms,
       SegmentSpec.section_table !! i = Some (name, synonyms) →
       ∃ m, Helpers.extract_text_sections text = Return m
            ∧ m !! name
              = Some (SegmentSpec.section_text synonyms
                        (SegmentSpec.stops_of i) text)
            ∧ (SegmentSpec.find_header synonyms text = None →
               m !! name = Some [])).
Proof.
  split; [reflexivity|].
  intros text i name synonyms Hi. exists (SegmentSpec.segments text).
  pose proof (segments_lookup text i name synonyms Hi) as Hm.
  split_and!.
  - apply extract_text_sections_segments.
  - done.
  - intros Hnone. rewrite Hm. unfold SegmentSpec.section_text.
    by rewrite Hnone.
Qed.

Lemma anchored_regex_sections_witness :
  ∃ m, Helpers.extract_text_sections (s "education MIT objective foo")
       = Return m
       ∧ m !! s "education"
         = Some (SegmentSpec.section_text [[s "education"]; [s "academic"]]
                   (SegmentSpec.stops_of 2) (s "education MIT objective foo"))
       ∧ (SegmentSpec.find_header [[s "education"]; [s "academic"]]
            (s "education MIT objective foo") = None →
          m !! s "education" = Some []).
Proof.
  apply (proj2 anchored_regex_sections
           (s "education MIT objective foo") 2%nat (s "education")
           [[s "education"]; [s "academic"]]).
  reflexivity.
Defined.

(** ** Tokens and keyword density *)

Section Tokens.
Import TokenSpec.
Implicit Types (t w needle hay : str) (c : ascii).

Lemma startswith_spec t p : startswith t p = true ↔ ∃ b, t = p ++ b.
Proof.
  revert t. induction p as [|a p IH]; intros t.
  - destruct t; simpl; (split; [by eexists|done]).
  - destruct t as [|b t]; simpl.
    + split; [done|by intros [? ?]].
    + rewrite andb_true_iff, bool_decide_eq_true, IH. split.
      * intros [-> [r ->]]. by exists r.
      * intros [r [= -> ->]]. split; [done|by exists r].
Qed.

Lemma contains_spec needle hay :
  contains needle hay = true ↔ substring needle hay.
Proof.
  unfold substring. induction hay as [|c hay IH].
  - change (contains needle []) with (startswith [] needle || false).
    rewrite orb_false_r, startswith_spec. split.
    + intros [b E]. by exists [], b.
    + intros (a & b & E). symmetry in E.
      apply app_eq_nil in E as [-> E]. by exists b.
  - change (contains needle (c :: hay))
      with (startswith (c :: hay) needle || contains needle hay).
    rewrite orb_true_iff, startswith_spec, IH. split.
    + intros [[b E]|(a & b & E)].
      * by exists [], b.
      * exists (c :: a), b. by rewrite E.
    + intros ([|x a] & b & E).
      * left. by exists b.
      * right. injection E as -> E. by exists a, b.
Qed.

#[global] Instance substring_dec needle hay : Decision (substring needle hay).
Proof.
  refine (cast_if (decide (contains needle hay = true)));
    by rewrite <- contains_spec.
Defined.

Lemma split_blank t : Forall (λ c, isspace c = true) t → split t = [].
Proof. induction 1 as [|c t Hc _ IH]; [done|]. simpl. by rewrite Hc. Qed.

Lemma split_space c t : isspace c = true → split (c :: t) = split t.
Proof. intros Hc. simpl. by rewrite Hc. Qed.

Lemma split_last w : token w → split w = [w].
Proof.
  intros [Hne Hw]. induction Hw as [|c w Hc Hw IH]; [done|].
  simpl. rewrite Hc. destruct w as [|c' w']; [done|].
  inversion Hw as [|?? Hc' _]; subst. rewrite Hc'.
  by rewrite IH.
Qed.

Lemma split_word w c t :
  token w → isspace c = true → split (w ++ c :: t) = w :: split t.
Proof.
  intros [Hne Hw] Hc. induction Hw as [|x w Hx Hw IH]; [done|].
  destruct w as [|x' w'].
  - simpl. by rewrite Hx, Hc.
  - inversion Hw as [|?? Hx' _]; subst.
    change (split ((x :: x' :: w') ++ c :: t))
      with (if isspace x then split ((x' :: w') ++ c :: t)
            else if isspace x' then [x] :: split ((x' :: w') ++ c :: t)
                 else match split ((x' :: w') ++ c :: t) with
                      | w :: ws => (x :: w) :: ws
                      | [] => [[x]]
                      end).
    rewrite Hx, Hx'. by rewrite IH.
Qed.

Lemma lower_blank t :
  Forall (λ c, isspace c = true) t → Forall (λ c, isspace c = true) (lower t).
Proof.
  intros H. apply Forall_fmap. eapply Forall_impl; [exact H|].
  intros c Hc. simpl. by rewrite isspace_lower_char.
Qed.

End Tokens.



(** C7, as the claim states it, fails: the first message of
    [compare_scores(60, 95)] gives the percentage as 58.3%, and [133.3%]
    does not occur in it. *)
Lemma compare_scores_counterexample :
  ATSScorer.compare_scores 60 95
  = [ [127775%N]
        ++ Json.u " Excellent improvement! Score increased by 35.0 points (58.3%)";
      Json.u "Your resume is now highly optimized for ATS systems" ]
  ∧ contains (Json.u "133.3%")
      ([127775%N]
         ++ Json.u " Excellent improvement! Score increased by 35.0 points (58.3%)")
    = false.
Proof. split; vm_compute; reflexivity. Qed.

(** C7, amended.  [compare_scores(60, 95)] returns exactly two messages,
    the first of which contains both [35.0] and [58.3%] (the percentage is
    diff/original*100 when original > 0, here 35/60*100), and
    [compare_scores(60, 58)] returns exactly one message, which contains
    [maintained from original version]. *)
Theorem compare_scores_examples :
  (∃ first second,
     ATSScorer.compare_scores 60 95 = [first; second]
     ∧ contains (Json.u "35.0") first = true
     ∧ contains (Json.u "58.3%") first = true
     ∧ first
       = [127775%N]
           ++ Json.u " Excellent improvement! Score increased by "
           ++ ATSScorer.f1 (95 - 60)
           ++ Json.u " points ("
           ++ ATSScorer.f1 ((95 - 60) / 60 * 100) ++ Json.u "%)")
  ∧ (∃ only,
       ATSScorer.compare_scores 60 58 = [only]
       ∧ contains (Json.u "maintained from original version") only = true).
Proof.
  split.
  - eexists _, _. split; [vm_compute; reflexivity|].
    split_and!; vm_compute; reflexivity.
  - eexists. split; [vm_compute; reflexivity|]. vm_compute. reflexivity.
Qed.

(** * Further properties of the helpers and the services *)

(** ** [truncate_text] *)

Section Truncate.
Implicit Types (text suffix : str) (max_length : Z).

Lemma slice_to_length {A} (l : list A) (k : Z) :
  Z.of_nat (length (PySeq.slice_to l k))
  = (if (0 <=? k)%Z then Z.min k (Z.of_nat (length l))
     else Z.max 0 (Z.of_nat (length l) + k))%Z.
Proof.
  unfold PySeq.slice_to. destruct (Z.leb_spec 0 k); rewrite length_take; lia.
Qed.

Lemma slice_to_take {A} (l : list A) (k : Z) :
  (0 ≤ k)%Z → PySeq.slice_to l k = take (Z.to_nat k) l.
Proof.
  intros Hk. unfold PySeq.slice_to. by destruct (Z.leb_spec 0 k); [|lia].
Qed.

End Truncate.

(** X1.  When the suffix fits into [max_length], [truncate_text] keeps its
    promise: a text that is short enough comes back unchanged, a longer
    one is cut to a prefix followed by the suffix, and the result is never
    longer than [max_length]. *)
Theorem truncate_text_fits (text suffix : str) (max_length : Z) :
  (Z.of_nat (length suffix) ≤ max_length)%Z →
  (Z.of_nat (length (Helpers.truncate_text text max_length suffix))
   ≤ max_length)%Z
  ∧ ((Z.of_nat (length text) ≤ max_length)%Z →
     Helpers.truncate_text text max_length suffix = text)
  ∧ ((max_length < Z.of_nat (length text))%Z →
     Helpers.truncate_text text max_length suffix
     = take (Z.to_nat (max_length - Z.of_nat (length suffix))) text ++ suffix
     ∧ Z.of_nat (length (Helpers.truncate_text text max_length suffix))
       = max_length).
Proof.
  intros Hfit. unfold Helpers.truncate_text.
  destruct (Z.leb_spec (Z.of_nat (length text)) max_length) as [Hle|Hlt].
  - split_and!; [done|done|lia].
  - assert (Z.of_nat
              (length (PySeq.slice_to text (max_length - Z.of_nat (length suffix))
                       ++ suffix)) = max_length) as Hlen.
    { rewrite length_app, Nat2Z.inj_add, slice_to_length.
      destruct (Z.leb_spec 0 (max_length - Z.of_nat (length suffix))); lia. }
    split_and!; [lia|lia|]. intros _. split; [|done].
    rewrite slice_to_take by lia. done.
Qed.

Lemma truncate_text_fits_witness :
  (Z.of_nat (length (Helpers.truncate_text (s "Senior engineer") 10 (s "...")))
   ≤ 10)%Z
  ∧ ((Z.of_nat (length (s "Senior engineer")) ≤ 10)%Z →
     Helpers.truncate_text (s "Senior engineer") 10 (s "...")
     = s "Senior engineer")
  ∧ ((10 < Z.of_nat (length (s "Senior engineer")))%Z →
     Helpers.truncate_text (s "Senior engineer") 10 (s "...")
     = take (Z.to_nat (10 - Z.of_nat (length (s "...")))) (s "Senior engineer")
         ++ s "..."
     ∧ Z.of_nat (length (Helpers.truncate_text (s "Senior engineer") 10
                           (s "...")))
       = 10%Z).
Proof.
  apply (truncate_text_fits (s "Senior engineer") (s "...") 10).
  vm_compute. discriminate.
Defined.

(** X2.  When the suffix is longer than [max_length], [truncate_text]
    does not truncate: every text longer than [max_length] comes back
    longer than [max_length] (the slice bound goes negative and counts
    from the end). *)
Theorem truncate_text_overflow (text suffix : str) (max_length : Z) :
  (max_length < Z.of_nat (length suffix))%Z →
  (max_length < Z.of_nat (length text))%Z →
  (max_length
   < Z.of_nat (length (Helpers.truncate_text text max_length suffix)))%Z.
Proof.
  intros Hsuffix Htext. unfold Helpers.truncate_text.
  destruct (Z.leb_spec (Z.of_nat (length text)) max_length) as [Hle|Hlt];
    [lia|].
  rewrite length_app, Nat2Z.inj_add, slice_to_length.
  destruct (Z.leb_spec 0 (max_length - Z.of_nat (length suffix))); lia.
Qed.

Lemma truncate_text_overflow_witness :
  (2 < Z.of_nat (length (Helpers.truncate_text (s "abcdef") 2 (s "..."))))%Z.
Proof.
  apply (truncate_text_overflow (s "abcdef") (s "...") 2);
    vm_compute; reflexivity.
Defined.

(** ** [sanitize_filename] and [validate_phone] *)

Section Classes.
Implicit Types (cls : ascii → bool) (t : str) (c : ascii).

Lemma sub_empty cls t :
  ReClass.sub cls [] t = List.filter (λ c, negb (cls c)) t.
Proof.
  unfold ReClass.sub. induction t as [|c t IH]; [done|].
  cbn [flat_map List.filter]. rewrite IH. by destruct (cls c).
Qed.

Lemma filter_fixed {A} (p : A → bool) (l : list A) :
  Forall (λ x, p x = true) l → List.filter p l = l.
Proof.
  induction 1 as [|x l Hx _ IH]; [done|]. cbn. by rewrite Hx, IH.
Qed.

Lemma filter_Forall {A} (p : A → bool) (l : list A) :
  Forall (λ x, p x = true) (List.filter p l).
Proof.
  induction l as [|x l IH]; [done|]. cbn.
  destruct (p x) eqn:Hx; [by constructor|done].
Qed.

Lemma filter_filter_implied {A} (p q : A → bool) (l : list A) :
  (∀ x, p x = true → q x = true) →
  List.filter p (List.filter q l) = List.filter p l.
Proof.
  intros Hpq. induction l as [|x l IH]; [done|]. cbn.
  destruct (q x) eqn:Hq; cbn.
  - by rewrite IH.
  - destruct (p x) eqn:Hp; [|done]. apply Hpq in Hp. congruence.
Qed.

Lemma all_chars (P : ascii → Prop) :
  (∀ n, (n < 256)%nat → P (ascii_of_nat n)) → ∀ c, P c.
Proof.
  intros H c. rewrite <- (ascii_nat_embedding c). apply H, nat_ascii_bounded.
Qed.

Lemma all_chars_bool (p : ascii → bool) :
  forallb (λ n, p (ascii_of_nat n)) (seq 0 256) = true → ∀ c, p c = true.
Proof.
  intros H. apply (all_chars (λ c, p c = true)). intros n Hn.
  rewrite forallb_forall in H. apply H, in_seq. lia.
Qed.

Lemma digit_not_separator c :
  ReClass.isdigit c = true → negb (Helpers.separator c) = true.
Proof.
  intros Hd.
  pose proof (all_chars_bool
                (λ c, implb (ReClass.isdigit c) (negb (Helpers.separator c))))
    as H.
  specialize (H ltac:(vm_compute; reflexivity) c). cbv beta in H.
  by rewrite Hd in H.
Qed.

Lemma space_unsafe_free c :
  Helpers.unsafe_char c = false →
  Helpers.unsafe_char (if Ascii.eqb c " " then "_" else c) = false
  ∧ (if Ascii.eqb c " " then "_" else c) ≠ " ".
Proof.
  destruct (Ascii.eqb_spec c " ") as [->|Hne]; [by split|by split].
Qed.

End Classes.

Section Sanitize.
Implicit Types (filename : str) (c : ascii).

Lemma sanitize_filename_eq filename :
  Helpers.sanitize_filename filename
  = take 255 (map (λ c, if Ascii.eqb c " " then "_" else c)
                (List.filter (λ c, negb (Helpers.unsafe_char c)) filename)).
Proof.
  unfold Helpers.sanitize_filename, PySeq.replace_char.
  by rewrite sub_empty, slice_to_take.
Qed.

Lemma sanitize_filename_chars filename :
  Forall (λ c, Helpers.unsafe_char c = false ∧ c ≠ " ")
    (Helpers.sanitize_filename filename).
Proof.
  rewrite sanitize_filename_eq. apply Forall_take, Forall_map.
  eapply Forall_impl; [apply filter_Forall|]. cbv beta.
  intros c Hc. apply space_unsafe_free. by destruct (Helpers.unsafe_char c).
Qed.

Lemma sanitize_filename_fixed filename :
  Forall (λ c, Helpers.unsafe_char c = false ∧ c ≠ " ") filename →
  (length filename ≤ 255)%nat →
  Helpers.sanitize_filename filename = filename.
Proof.
  intros Hsafe Hlen. rewrite sanitize_filename_eq.
  rewrite filter_fixed
    by (eapply Forall_impl; [exact Hsafe|]; by intros c [-> _]).
  rewrite take_ge; [|by rewrite length_map].
  induction Hsafe as [|c l [_ Hc] _ IH]; [done|]. cbn [map].
  cbn [length] in Hlen. rewrite IH by lia.
  by destruct (Ascii.eqb_spec c " ").
Qed.

Lemma sanitize_filename_length filename :
  (length (Helpers.sanitize_filename filename) ≤ 255)%nat.
Proof. rewrite sanitize_filename_eq, length_take. lia. Qed.

End Sanitize.

(** X3.  The name [sanitize_filename] returns has at most 255 characters,
    each of them a word character, a dot, a hyphen, or white space other
    than the plain space; in particular it holds no slash, no backslash
    (character 092) and no space. *)
Theorem sanitize_filename_safe (filename : str) :
  (length (Helpers.sanitize_filename filename) ≤ 255)%nat
  ∧ Forall (λ c, (ReClass.isword c || isspace c
                  || Ascii.eqb c "." || Ascii.eqb c "-") = true
                 ∧ c ≠ " ")
      (Helpers.sanitize_filename filename)
  ∧ ("/" ∉ Helpers.sanitize_filename filename)
  ∧ ("092" ∉ Helpers.sanitize_filename filename)
  ∧ (" " ∉ Helpers.sanitize_filename filename).
Proof.
  pose proof (sanitize_filename_chars filename) as Hchars.
  rewrite Forall_forall in Hchars.
  split_and!.
  - apply sanitize_filename_length.
  - apply Forall_forall. intros c Hc. destruct (Hchars c Hc) as [Hu Hs].
    split; [|done]. unfold Helpers.unsafe_char in Hu.
    by apply negb_false_iff in Hu.
  - intros Hin. by destruct (Hchars _ Hin) as [? _].
  - intros Hin. by destruct (Hchars _ Hin) as [? _].
  - intros Hin. by destruct (Hchars _ Hin) as [_ ?].
Qed.

(** X4.  [sanitize_filename] returns unchanged every name of at most 255
    characters that holds only word characters, dots, hyphens and white
    space other than the plain space, so a name made of dots alone
    survives; and sanitizing twice is the same as sanitizing once. *)
Theorem sanitize_filename_idempotent (filename : str) :
  (Forall (λ c, (ReClass.isword c || isspace c
                 || Ascii.eqb c "." || Ascii.eqb c "-") = true
                ∧ c ≠ " ") filename →
   (length filename ≤ 255)%nat →
   Helpers.sanitize_filename filename = filename)
  ∧ Helpers.sanitize_filename (Helpers.sanitize_filename filename)
    = Helpers.sanitize_filename filename
  ∧ Helpers.sanitize_filename (s "..") = s "..".
Proof.
  split_and!.
  - intros Hsafe Hlen. apply sanitize_filename_fixed; [|done].
    eapply Forall_impl; [exact Hsafe|]. intros c [Hc ?]. split; [|done].
    unfold Helpers.unsafe_char. by rewrite Hc.
  - apply sanitize_filename_fixed;
      [apply sanitize_filename_chars|apply sanitize_filename_length].
  - by vm_compute.
Qed.


(** ** [extract_ats_keywords] *)

Section AtsKeywords.
Import TokenSpec.
Implicit Types (text k category : str) (keyword_list found : list str).

Lemma found_in_filter text keyword_list :
  Helpers.found_in text keyword_list
  = List.filter (λ k, contains k text) keyword_list.
Proof.
  unfold Helpers.found_in.
  enough (∀ acc,
            fold_left (λ found k,
                         if contains k text then found ++ [k] else found)
              keyword_list acc
            = acc ++ List.filter (λ k, contains k text) keyword_list)
    as H by apply (H []).
  induction keyword_list as [|k l IH]; intros acc; cbn [fold_left List.filter].
  - by rewrite app_nil_r.
  - rewrite IH. destruct (contains k text); [|done].
    by rewrite <- app_assoc.
Qed.

Lemma found_in_spec text keyword_list k :
  k ∈ Helpers.found_in text keyword_list
  ↔ k ∈ keyword_list ∧ substring k text.
Proof.
  rewrite found_in_filter, !list_elem_of_In, filter_In.
  by rewrite contains_spec.
Qed.

Lemma found_in_sublist text keyword_list :
  Helpers.found_in text keyword_list `sublist_of` keyword_list.
Proof.
  rewrite found_in_filter. induction keyword_list as [|k l IH]; [done|].
  cbn [List.filter]. destruct (contains k text);
    [by apply sublist_skip|by apply sublist_cons].
Qed.

Lemma substring_trans (a b c : str) :
  substring a b → substring b c → substring a c.
Proof.
  intros (x & y & ->) (x' & y' & ->). exists (x' ++ x), (y ++ y').
  by rewrite <- !app_assoc.
Qed.

(** A dictionary filled from a table, one key after the other. *)
Lemma fill_lookup {V W} (g : V → W) (l : list (str * V)) (m : gmap str W)
    (key : str) :
  fold_left (λ (d : gmap str W) e, <[fst e := g (snd e)]> d) l m !! key
  = match last (List.filter (λ e, bool_decide (fst e = key)) l) with
    | Some e => Some (g (snd e))
    | None => m !! key
    end.
Proof.
  revert m. induction l as [|[k v] l IH]; intros m; [done|].
  cbn [fold_left List.filter fst snd]. rewrite IH.
  case_bool_decide as Hk.
  - destruct (List.filter _ l) as [|e r] eqn:Hf.
    + subst k. by rewrite lookup_insert_eq.
    + rewrite last_cons_cons. destruct (last (e :: r)) eqn:Hl; [done|].
      by apply last_None in Hl.
  - destruct (last _); [done|]. by rewrite lookup_insert_ne.
Qed.

Lemma extract_ats_keywords_lookup text category :
  Helpers.extract_ats_keywords text !! category
  = Helpers.found_in (lower text)
    <$> (snd <$> last (List.filter (λ e, bool_decide (fst e = category))
                         Helpers.keywords)).
Proof.
  unfold Helpers.extract_ats_keywords.
  rewrite (fill_lookup (Helpers.found_in (lower text))).
  by destruct (last _).
Qed.

Lemma keywords_entry category keyword_list :
  (category, keyword_list) ∈ Helpers.keywords →
  last (List.filter (λ e, bool_decide (fst e = category)) Helpers.keywords)
  = Some (category, keyword_list).
Proof.
  unfold Helpers.keywords. rewrite !elem_of_cons, elem_of_nil.
  intros [H|[H|[H|[H|[H|[]]]]]]; injection H as -> ->; by vm_compute.
Qed.

Lemma keywords_names category :
  category ∈ [s "programming_languages"; s "frameworks"; s "databases";
              s "tools"; s "soft_skills"] →
  ∃ keyword_list,
    last (List.filter (λ e, bool_decide (fst e = category)) Helpers.keywords)
    = Some (category, keyword_list).
Proof.
  rewrite !elem_of_cons, elem_of_nil.
  intros [->|[->|[->|[->|[->|[]]]]]]; eexists; vm_compute; reflexivity.
Qed.

Lemma keywords_entry_inv category e :
  last (List.filter (λ e, bool_decide (fst e = category)) Helpers.keywords)
  = Some e →
  e ∈ Helpers.keywords ∧ fst e = category.
Proof.
  intros H. apply last_Some_elem_of, list_elem_of_In, filter_In in H.
  destruct H as [H1 H2]. split; [by apply list_elem_of_In|].
  by apply bool_decide_eq_true in H2.
Qed.

End AtsKeywords.

(** X6.  For each category of its table [extract_ats_keywords] returns
    the keywords of that category that occur in the lower-cased resume
    as substrings, in the order of the table; nothing else is reported. *)
Theorem extract_ats_keywords_found (resume_text category : str)
    (keyword_list : list str) :
  (category, keyword_list) ∈ Helpers.keywords →
  ∃ found,
    Helpers.extract_ats_keywords resume_text !! category = Some found
    ∧ found `sublist_of` keyword_list
    ∧ ∀ k, k ∈ found
           ↔ k ∈ keyword_list ∧ TokenSpec.substring k (lower resume_text).
Proof.
  intros Hin. exists (Helpers.found_in (lower resume_text) keyword_list).
  split_and!.
  - by rewrite extract_ats_keywords_lookup, (keywords_entry _ _ Hin).
  - apply found_in_sublist.
  - intros k. apply found_in_spec.
Qed.

Lemma extract_ats_keywords_found_witness :
  ∃ found,
    Helpers.extract_ats_keywords (s "Built REST APIs with Django and MySQL")
      !! s "databases" = Some found
    ∧ found `sublist_of`
        [s "sql"; s "mysql"; s "postgresql"; s "mongodb"; s "redis";
         s "firebase"; s "dynamodb"; s "elasticsearch"; s "cassandra"]
    ∧ ∀ k, k ∈ found
           ↔ k ∈ [s "sql"; s "mysql"; s "postgresql"; s "mongodb"; s "redis";
                  s "firebase"; s "dynamodb"; s "elasticsearch";
                  s "cassandra"]
             ∧ TokenSpec.substring k
                 (lower (s "Built REST APIs with Django and MySQL")).
Proof.
  apply (extract_ats_keywords_found (s "Built REST APIs with Django and MySQL")
           (s "databases")).
  apply (list_elem_of_lookup_2 _ 2). reflexivity.
Defined.

(** X7.  The keys of the dictionary [extract_ats_keywords] returns are
    the five categories, whatever the resume; and because keywords are
    looked up as substrings, a keyword of the table that is part of a
    reported keyword is reported too (java with javascript, sql with
    mysql, git with github). *)
Theorem extract_ats_keywords_substring (resume_text : str) :
  (∀ category,
     is_Some (Helpers.extract_ats_keywords resume_text !! category)
     ↔ category ∈ [s "programming_languages"; s "frameworks"; s "databases";
                   s "tools"; s "soft_skills"])
  ∧ (∀ category keyword_list category' found' k k',
       (category, keyword_list) ∈ Helpers.keywords →
       k ∈ keyword_list →
       Helpers.extract_ats_keywords resume_text !! category' = Some found' →
       k' ∈ found' →
       TokenSpec.substring k k' →
       ∃ found,
         Helpers.extract_ats_keywords resume_text !! category = Some found
         ∧ k ∈ found)
  ∧ (∀ found,
       Helpers.extract_ats_keywords resume_text !! s "programming_languages"
       = Some found →
       s "javascript" ∈ found → s "java" ∈ found).
Proof.
  assert (∀ category keyword_list category' found' k k',
       (category, keyword_list) ∈ Helpers.keywords →
       k ∈ keyword_list →
       Helpers.extract_ats_keywords resume_text !! category' = Some found' →
       k' ∈ found' →
       TokenSpec.substring k k' →
       ∃ found,
         Helpers.extract_ats_keywords resume_text !! category = Some found
         ∧ k ∈ found) as Hsub.
  { intros category keyword_list category' found' k k' Hin Hk Hfound Hk' Hkk'.
    exists (Helpers.found_in (lower resume_text) keyword_list). split.
    - by rewrite extract_ats_keywords_lookup, (keywords_entry _ _ Hin).
    - rewrite extract_ats_keywords_lookup in Hfound.
      destruct (last _) as [e|]; [|done]. injection Hfound as <-.
      apply found_in_spec in Hk' as [_ Hk']. apply found_in_spec.
      split; [done|]. by eapply substring_trans. }
  split_and!.
  - intros category. rewrite extract_ats_keywords_lookup. split.
    + intros [found Hfound].
      destruct (last _) as [e|] eqn:He; [|done].
      apply keywords_entry_inv in He as [He <-].
      apply (list_elem_of_fmap_2 fst) in He. exact He.
    + intros [l ->]%keywords_names. by eexists.
  - exact Hsub.
  - intros found Hfound Hjs.
    destruct (Hsub (s "programming_languages")
                (snd (Helpers.keywords !!! 0%nat))
                (s "programming_languages") found (s "java") (s "javascript"))
      as (found' & Hfound' & Hjava); try done.
    + apply (list_elem_of_lookup_2 _ 0). reflexivity.
    + apply (list_elem_of_lookup_2 _ 2). reflexivity.
    + by exists [], (s "script").
    + congruence.
Qed.

(** ** The remaining AI services *)

Section MoreStripFacts.
Implicit Types (t : str) (c : ascii).

Lemma lstrip_nil t : lstrip t = [] ↔ Forall (λ c, isspace c = true) t.
Proof.
  induction t as [|c t IH]; simpl.
  - split; [by constructor|done].
  - destruct (isspace c) eqn:Hc.
    + rewrite IH. split; [by constructor|by inversion 1].
    + split; [done|]. inversion 1. congruence.
Qed.

Lemma lstrip_head t c r : lstrip t = c :: r → isspace c = false.
Proof.
  induction t as [|x t IH]; simpl; [done|].
  destruct (isspace x) eqn:Hx; [done|]. by intros [= <- _].
Qed.

Lemma lstrip_idem t : lstrip (lstrip t) = lstrip t.
Proof.
  destruct (lstrip t) as [|c r] eqn:E; [done|].
  apply lstrip_head in E. simpl. by rewrite E.
Qed.

Lemma rstrip_idem t : rstrip (rstrip t) = rstrip t.
Proof. unfold rstrip. by rewrite rev_involutive, lstrip_idem. Qed.

Lemma rstrip_nil t : rstrip t = [] ↔ Forall (λ c, isspace c = true) t.
Proof.
  unfold rstrip. split.
  - intros H. apply (f_equal (@rev _)) in H. rewrite rev_involutive in H.
    apply lstrip_nil, List.Forall_rev in H. by rewrite rev_involutive in H.
  - intros H%List.Forall_rev%lstrip_nil. by rewrite H.
Qed.

Lemma strip_nil t : strip t = [] ↔ Forall (λ c, isspace c = true) t.
Proof.
  unfold strip. split.
  - intros H%rstrip_nil. apply lstrip_nil.
    destruct (lstrip t) as [|c r] eqn:E; [done|].
    apply lstrip_head in E. inversion H. congruence.
  - intros H%lstrip_nil. by rewrite H.
Qed.

Lemma strip_idem t : strip (strip t) = strip t.
Proof.
  unfold strip.
  assert (lstrip (rstrip (lstrip t)) = rstrip (lstrip t)) as ->;
    [|apply rstrip_idem].
  destruct (lstrip t) as [|c r] eqn:E; [done|].
  apply lstrip_head in E.
  pose proof (rstrip_app_nonspace [] c r E) as H.
  change ([] ++ c :: r) with (c :: r) in H.
  change ([] ++ c :: rstrip r) with (c :: rstrip r) in H.
  rewrite H. simpl. by rewrite E.
Qed.

End MoreStripFacts.

Section MoreServices.
Import Re Json SpanSpec.
Variable generate_content : str → Outcome str.
Implicit Types (text pre mid post content : str).

Section KeywordService.
Variable keywords_prompt : str → str → str.

Local Abbreviation analyze :=
  (ATSScorer.analyze_keywords generate_content keywords_prompt).

Lemma analyze_raise rt jd e :
  generate_content (keywords_prompt rt jd) = Raise e →
  analyze rt jd = Return ATSScorer.empty_keywords.
Proof.
  intros H. unfold ATSScorer.analyze_keywords,
    ATSScorer.analyze_keywords_try. by rewrite H.
Qed.

Lemma analyze_no_span rt jd text :
  generate_content (keywords_prompt rt jd) = Return text →
  (∀ pre rest, text = pre ++ "{" :: rest → "}" ∉ rest) →
  analyze rt jd = Return ATSScorer.empty_keywords.
Proof.
  intros H Hno. unfold ATSScorer.analyze_keywords,
    ATSScorer.analyze_keywords_try. rewrite H. simpl.
  change ATSScorer.json_object with (span_re "{" "}").
  unfold search. by rewrite search_span_none.
Qed.

Lemma analyze_span rt jd pre mid post :
  generate_content (keywords_prompt rt jd)
  = Return (pre ++ "{" :: mid ++ "}" :: post) →
  "{" ∉ pre → "}" ∉ post →
  analyze rt jd
  = match loads ("{" :: mid ++ ["}"]) with
    | Return v => Return v
    | Raise _ => Return ATSScorer.empty_keywords
    end.
Proof.
  intros H Hpre Hpost. unfold ATSScorer.analyze_keywords,
    ATSScorer.analyze_keywords_try. rewrite H. simpl.
  change ATSScorer.json_object with (span_re "{" "}").
  unfold search. rewrite search_span by done. simpl.
  by destruct (loads _) as [v|e].
Qed.

Lemma analyze_object rt jd : ∃ pairs, analyze rt jd = Return (JObj pairs).
Proof.
  unfold ATSScorer.analyze_keywords, ATSScorer.analyze_keywords_try.
  destruct (generate_content _) as [text|e]; [|by eexists].
  simpl. destruct (search _ _ _) as [m|] eqn:Es; [|by eexists].
  change ATSScorer.json_object with (span_re "{" "}") in Es.
  apply search_span_head in Es as [x ->].
  destruct (loads _) as [v|e] eqn:E; [|by eexists].
  apply loads_brace in E as [pairs ->]. by eexists.
Qed.

End KeywordService.

Section BulletService.
Variable bullets_prompt : json → str.

Local Abbreviation bullets :=
  (AIEnhancer.enhance_bullet_points generate_content bullets_prompt).

Lemma bullets_raise points e :
  generate_content (bullets_prompt points) = Raise e →
  bullets points = Return points.
Proof.
  intros H. unfold AIEnhancer.enhance_bullet_points,
    AIEnhancer.enhance_bullet_points_try. rewrite H. by destruct e.
Qed.

Lemma bullets_no_span points text :
  generate_content (bullets_prompt points) = Return text →
  (∀ pre rest, text = pre ++ "[" :: rest → "]" ∉ rest) →
  bullets points = Return points.
Proof.
  intros H Hno. unfold AIEnhancer.enhance_bullet_points,
    AIEnhancer.enhance_bullet_points_try. rewrite H. simpl.
  change AIEnhancer.json_array with (span_re "[" "]").
  by rewrite search_strip_none.
Qed.

Lemma bullets_span points pre mid post :
  generate_content (bullets_prompt points)
  = Return (pre ++ "[" :: mid ++ "]" :: post) →
  "[" ∉ pre → "]" ∉ post →
  bullets points
  = match loads ("[" :: mid ++ ["]"]) with
    | Return v => Return v
    | Raise _ => Return points
    end.
Proof.
  intros H Hpre Hpost. unfold AIEnhancer.enhance_bullet_points,
    AIEnhancer.enhance_bullet_points_try. rewrite H. simpl.
  change AIEnhancer.json_array with (span_re "[" "]").
  rewrite search_strip_span by done. simpl.
  destruct (loads _) as [v|e] eqn:E.
  - apply loads_bracket in E as [items ->]. reflexivity.
  - by destruct e.
Qed.

Lemma bullets_array points :
  bullets points = Return points
  ∨ ∃ items, bullets points = Return (JArr items).
Proof.
  unfold AIEnhancer.enhance_bullet_points,
    AIEnhancer.enhance_bullet_points_try.
  destruct (generate_content _) as [text|e]; [|destruct e; by left].
  simpl. destruct (search _ _ _) as [m|] eqn:Es; [|by left].
  change AIEnhancer.json_array with (span_re "[" "]") in Es.
  apply search_span_head in Es as [x ->].
  destruct (loads _) as [v|e] eqn:E; [|destruct e; by left].
  apply loads_bracket in E as [items ->]. right. by eexists.
Qed.

End BulletService.

Lemma stripped_text (fallback : str) (prompt : str) :
  let result :=
    try_except (text ← generate_content prompt; mret (strip text))
      (Return fallback) (Return fallback) in
  (∀ e, generate_content prompt = Raise e → result = Return fallback)
  ∧ (∀ text, generate_content prompt = Return text →
       result = Return (strip text)
       ∧ (result = Return [] ↔ Forall (λ c, isspace c = true) text)
       ∧ (∀ r, result = Return r → strip r = r)).
Proof.
  cbv zeta. split.
  - intros e ->. by destruct e.
  - intros text ->. simpl. split_and!; [done| |].
    + rewrite <- strip_nil. split; [by intros [= ->]|by intros ->].
    + intros r [= <-]. apply strip_idem.
Qed.

End MoreServices.

(** X8.  [analyze_keywords] never raises and always returns an object.
    It returns the five empty lists when the AI call raises, when the
    completion has no opening brace followed by a closing one, and when
    the span from the first opening to the last closing brace does not
    decode; otherwise it returns the decoded object as it is, whatever
    its keys. *)
Theorem analyze_keywords_fallback
  (generate_content : str → Outcome str) (keywords_prompt : str → str → str)
  (resume_text job_description : str) :
  let result :=
    ATSScorer.analyze_keywords generate_content keywords_prompt
      resume_text job_description in
  (∃ pairs, result = Return (Json.JObj pairs))
  ∧ (∀ e,
       generate_content (keywords_prompt resume_text job_description)
       = Raise e →
       result = Return ATSScorer.empty_keywords)
  ∧ (∀ text,
       generate_content (keywords_prompt resume_text job_description)
       = Return text →
       (∀ pre rest, text = pre ++ "{" :: rest → "}" ∉ rest) →
       result = Return ATSScorer.empty_keywords)
  ∧ (∀ pre mid post,
       generate_content (keywords_prompt resume_text job_description)
       = Return (pre ++ "{" :: mid ++ "}" :: post) →
       "{" ∉ pre → "}" ∉ post →
       (∀ e, Json.loads ("{" :: mid ++ ["}"]) = Raise e →
             result = Return ATSScorer.empty_keywords)
       ∧ (∀ v, Json.loads ("{" :: mid ++ ["}"]) = Return v →
               result = Return v)).
Proof.
  cbv zeta. split_and!.
  - apply analyze_object.
  - apply analyze_raise.
  - apply analyze_no_span.
  - intros pre mid post H Hpre Hpost.
    rewrite (analyze_span _ _ _ _ _ _ _ H Hpre Hpost).
    split; [by intros e ->|by intros v ->].
Qed.

Lemma analyze_keywords_fallback_witness :
  ATSScorer.analyze_keywords (λ _, Return (s "Result: {} (nothing found)"))
    (λ resume _, resume) (s "resume") (s "")
  = Return (Json.JObj []).
Proof.
  apply (proj2 (proj2 (proj2 (proj2
    (analyze_keywords_fallback (λ _, Return (s "Result: {} (nothing found)"))
       (λ resume _, resume) (s "resume") (s ""))))
    (s "Result: ") [] (s " (nothing found)") eq_refl
    ltac:(decide_compute) ltac:(decide_compute))).
  reflexivity.
Defined.



(** X10.  [enhance_section] returns the content it was given when the AI
    call raises.  When the call answers, it returns the stripped
    completion, which has no white space at either end; a completion of
    white space alone makes it return the empty string, not the content
    it was given. *)
Theorem enhance_section_result
  (generate_content : str → Outcome str)
  (section_prompt : str → str → str → str)
  (section_name content context : str) :
  let result :=
    AIEnhancer.enhance_section generate_content section_prompt
      section_name content context in
  (∀ e,
     generate_content (section_prompt section_name content context) = Raise e →
     result = Return content)
  ∧ (∀ text,
       generate_content (section_prompt section_name content context)
       = Return text →
       result = Return (strip text)
       ∧ (result = Return [] ↔ Forall (λ c, isspace c = true) text)
       ∧ (∀ r, result = Return r → strip r = r)).
Proof.
  apply (stripped_text generate_content content).
Qed.

Lemma enhance_section_result_witness :
  AIEnhancer.enhance_section (λ _, Return [" "; newline])
    (λ name content _, name ++ content)
    (s "summary") (s "Engineer with ten years of experience") []
  = Return [].
Proof.
  apply (proj2 (proj1 (proj2 (proj2
    (enhance_section_result (λ _, Return [" "; newline])
       (λ name content _, name ++ content)
       (s "summary") (s "Engineer with ten years of experience") [])
    [" "; newline] eq_refl)))).
  repeat constructor.
Defined.

(** X11.  [generate_summary] and [generate_cover_letter_snippet] return
    their fixed default sentence when the AI call raises.  When the call
    answers they return the stripped completion; a completion of white
    space alone gives the empty string, not the default sentence. *)
Theorem generated_text_result
  (generate_content : str → Outcome str)
  (summary_prompt cover_letter_prompt : Json.json → str)
  (resume_data : Json.json) :
  let summary :=
    AIEnhancer.generate_summary generate_content summary_prompt resume_data in
  let cover_letter :=
    AIEnhancer.generate_cover_letter_snippet generate_content
      cover_letter_prompt resume_data in
  ((∀ e, generate_content (summary_prompt resume_data) = Raise e →
         summary = Return AIEnhancer.default_summary)
   ∧ (∀ text, generate_content (summary_prompt resume_data) = Return text →
        summary = Return (strip text)
        ∧ (summary = Return [] ↔ Forall (λ c, isspace c = true) text)
        ∧ (∀ r, summary = Return r → strip r = r)))
  ∧ ((∀ e, generate_content (cover_letter_prompt resume_data) = Raise e →
           cover_letter = Return AIEnhancer.default_cover_letter)
     ∧ (∀ text,
          generate_content (cover_letter_prompt resume_data) = Return text →
          cover_letter = Return (strip text)
          ∧ (cover_letter = Return []
             ↔ Forall (λ c, isspace c = true) text)
          ∧ (∀ r, cover_letter = Return r → strip r = r))).
Proof.
  cbv zeta. split.
  - apply (stripped_text generate_content AIEnhancer.default_summary).
  - apply (stripped_text generate_content AIEnhancer.default_cover_letter).
Qed.

Lemma generated_text_result_witness :
  AIEnhancer.generate_summary (λ _, Raise OtherException) (λ _, s "prompt")
    (Json.JObj [])
  = Return AIEnhancer.default_summary.
Proof.
  apply (proj1 (proj1
    (generated_text_result (λ _, Raise OtherException)
       (λ _, s "prompt") (λ _, s "prompt") (Json.JObj [])))
    OtherException eq_refl).
Defined.

(** ** The line scan, section by section *)

Section Blocks.
Import PDFParser LineScanSpec BlockSpec.
Implicit Types (st : state) (sec l line : str) (lines : list str).

Lemma save_lookup st sec :
  truthy sec = true → save st !! sec = pending st sec [].
Proof.
  intros Hsec. unfold save, pending. rewrite app_nil_r.
  destruct (current_section st) as [cur|]; [|by case_bool_decide].
  case_bool_decide as Hcur.
  - injection Hcur as ->. rewrite Hsec. simpl.
    destruct (truthy (section_content st)); [|done].
    by rewrite lookup_insert_eq.
  - destruct (truthy cur && truthy (section_content st)); [|done].
    rewrite lookup_insert_ne; [done|congruence].
Qed.

Lemma scan_value sec lines st :
  truthy sec = true →
  save (scan lines st) !! sec
  = match last (List.filter truthy (blocks_of sec lines)) with
    | Some b => Some (join [newline] b)
    | None => pending st sec (block lines)
    end.
Proof.
  intros Hsec. revert st. induction lines as [|l rest IH]; intros st.
  - by apply save_lookup.
  - change (scan (l :: rest) st) with (scan rest (step st l)).
    rewrite IH. cbn [blocks_of block]. unfold step.
    destruct (boundary l) as [sec'|] eqn:Hb.
    + case_bool_decide as Hsec'.
      * injection Hsec' as ->. cbn [List.filter].
        destruct (block rest) as [|x b] eqn:Hblock; cbn [truthy].
        -- destruct (last _); [done|].
           unfold pending at 1. cbn. rewrite bool_decide_eq_true_2 by done.
           by rewrite save_lookup.
        -- destruct (List.filter truthy (blocks_of sec rest)) as [|y F] eqn:HF.
           ++ cbn. unfold pending. cbn.
              by rewrite bool_decide_eq_true_2.
           ++ rewrite last_cons_cons. destruct (last (y :: F)) eqn:Hl; [done|].
              by apply last_None in Hl.
      * destruct (last _); [done|].
        unfold pending at 1. cbn.
        rewrite bool_decide_eq_false_2 by congruence.
        by rewrite save_lookup.
    + rewrite bool_decide_eq_false_2 by done.
      destruct (last _); [done|].
      destruct (truthy (strip l)) eqn:Hl; [|by rewrite andb_false_r].
      rewrite andb_true_r.
      destruct (current_section st) as [cur|] eqn:Hcur; cbn [truthy_opt].
      * destruct (truthy cur) eqn:Htc.
        -- unfold pending. cbn. rewrite Hcur, <- app_assoc. done.
        -- unfold pending. rewrite Hcur.
           rewrite !bool_decide_eq_false_2; [done|congruence..].
      * unfold pending. rewrite Hcur. by rewrite !bool_decide_eq_false_2.
Qed.

Lemma extract_sections_value text sec :
  sec ∈ section_names →
  extract_sections text !! sec = Some (value sec (split_on newline text)).
Proof.
  intros Hsec. unfold extract_sections, value.
  rewrite scan_value by by apply section_name_truthy.
  destruct (last _); [done|].
  unfold pending. rewrite bool_decide_eq_false_2 by done.
  change (sections init) with sections0.
  apply section_name_key, elem_of_dom in Hsec as [v Hv].
  rewrite Hv. by apply sections0_values in Hv as ->.
Qed.

Lemma block_sublist lines : block lines `sublist_of` lines.
Proof.
  induction lines as [|l rest IH]; [done|]. cbn [block].
  destruct (boundary l); [apply sublist_nil_l|].
  destruct (truthy (strip l)); [by apply sublist_skip|by apply sublist_cons].
Qed.

Lemma blocks_of_elem sec lines b :
  b ∈ blocks_of sec lines →
  ∃ pre header rest,
    lines = pre ++ header :: rest ∧ boundary header = Some sec
    ∧ b = block rest.
Proof.
  induction lines as [|l rest IH]; cbn [blocks_of]; [by intros ?%elem_of_nil|].
  case_bool_decide as Hl.
  - intros [->|Hin]%elem_of_cons; [by exists [], l, rest|].
    destruct (IH Hin) as (pre & h & r & -> & Hh & ->).
    by exists (l :: pre), h, r.
  - intros Hin. destruct (IH Hin) as (pre & h & r & -> & Hh & ->).
    by exists (l :: pre), h, r.
Qed.

Lemma blocks_of_app sec pre lines :
  ∃ earlier, blocks_of sec (pre ++ lines) = earlier ++ blocks_of sec lines.
Proof.
  induction pre as [|l pre [earlier IH]]; [by exists []|].
  cbn [app blocks_of]. rewrite IH. case_bool_decide.
  - by exists (block (pre ++ lines) :: earlier).
  - by exists earlier.
Qed.

Lemma blocks_of_none sec lines :
  Forall (λ l, boundary l ≠ Some sec) lines → blocks_of sec lines = [].
Proof.
  induction 1 as [|l rest Hl _ IH]; [done|]. cbn [blocks_of].
  by rewrite bool_decide_eq_false_2.
Qed.

Lemma block_content content rest :
  Forall (λ l, boundary l = None) content →
  (rest = [] ∨ ∃ b r, rest = b :: r ∧ is_Some (boundary b)) →
  block (content ++ rest) = List.filter (λ l, truthy (strip l)) content.
Proof.
  intros Hcontent Hrest. induction Hcontent as [|l content Hl _ IH].
  - destruct Hrest as [->|(b & r & -> & [sec Hb])]; [done|].
    cbn [app block]. by rewrite Hb.
  - cbn [app block List.filter]. rewrite Hl, IH. done.
Qed.

Lemma value_nonempty sec lines :
  value sec lines ≠ [] →
  ∃ b, b ∈ blocks_of sec lines ∧ b ≠ [] ∧ value sec lines = join [newline] b.
Proof.
  unfold value. destruct (last _) as [b|] eqn:Hlast; [|done]. intros _.
  apply last_Some_elem_of, list_elem_of_In, filter_In in Hlast as [Hin Hb].
  exists b. split_and!; [by apply list_elem_of_In| |done].
  by destruct b.
Qed.

Lemma dom_section_names sec :
  sec ∈ dom sections0 → sec ∈ section_names.
Proof.
  rewrite sections0_dom. unfold section_names, section_keywords.
  cbn [map fst]. rewrite !elem_of_union, !elem_of_singleton, !elem_of_cons.
  tauto.
Qed.

End Blocks.

(** X12.  What [extract_sections] returns under a section name is decided
    by the header lines alone: it is the last block of lines, blank ones
    dropped, that follows a header of that section and is not empty,
    joined by newlines; or the empty string when the section has no such
    block. *)
Theorem extract_sections_blocks (text sec : str) :
  sec ∈ LineScanSpec.section_names →
  PDFParser.extract_sections text !! sec
  = Some (BlockSpec.value sec (split_on newline text)).
Proof. apply extract_sections_value. Qed.

Lemma extract_sections_blocks_witness :
  PDFParser.extract_sections
    (s "EDUCATION" ++ newline :: s "MIT" ++ newline :: s "SKILLS"
     ++ newline :: s "Rocq")
  !! s "education"
  = Some (BlockSpec.value (s "education")
            (split_on newline
               (s "EDUCATION" ++ newline :: s "MIT" ++ newline :: s "SKILLS"
                ++ newline :: s "Rocq"))).
Proof.
  apply (extract_sections_blocks
           (s "EDUCATION" ++ newline :: s "MIT" ++ newline :: s "SKILLS"
            ++ newline :: s "Rocq") (s "education")).
  decide_compute.
Defined.

(** X13.  [extract_sections] invents no text: a value that is not empty
    consists of the lines that are not blank between one header of its
    own section and the next header line, so its lines are lines of the
    input, in their order. *)
Theorem extract_sections_lines (text sec v : str) :
  PDFParser.extract_sections text !! sec = Some v →
  v ≠ [] →
  (∃ pre header rest,
     split_on newline text = pre ++ header :: rest
     ∧ PDFParser.boundary header = Some sec
     ∧ split_on newline v = BlockSpec.block rest)
  ∧ split_on newline v `sublist_of` split_on newline text.
Proof.
  intros Hv Hne.
  assert (sec ∈ LineScanSpec.section_names) as Hsec.
  { apply dom_section_names.
    rewrite <- (proj1 (extract_sections_invariant text)).
    by apply elem_of_dom. }
  rewrite extract_sections_value in Hv by done. injection Hv as <-.
  destruct (value_nonempty _ _ Hne) as (b & Hin & Hb & ->).
  destruct (blocks_of_elem _ _ _ Hin) as (pre & header & rest & E & Hh & ->).
  assert (BlockSpec.block rest `sublist_of` split_on newline text) as Hsub.
  { rewrite E. etrans; [apply block_sublist|].
    apply sublist_inserts_l. by apply sublist_cons. }
  rewrite split_on_join; [|done|].
  - split; [by exists pre, header, rest|done].
  - apply Forall_forall. intros l Hl.
    pose proof (split_on_lines_free newline text) as Hfree.
    rewrite Forall_forall in Hfree. apply Hfree.
    by eapply elem_of_sublist.
Qed.

Lemma extract_sections_lines_witness :
  (∃ pre header rest,
     split_on newline
       (s "EDUCATION" ++ newline :: s "MIT" ++ newline :: [newline]
        ++ s "2020")
     = pre ++ header :: rest
     ∧ PDFParser.boundary header = Some (s "education")
     ∧ split_on newline (s "MIT" ++ newline :: s "2020")
       = BlockSpec.block rest)
  ∧ split_on newline (s "MIT" ++ newline :: s "2020")
    `sublist_of`
    split_on newline
      (s "EDUCATION" ++ newline :: s "MIT" ++ newline :: [newline]
       ++ s "2020").
Proof.
  apply (extract_sections_lines
           (s "EDUCATION" ++ newline :: s "MIT" ++ newline :: [newline]
            ++ s "2020")
           (s "education") (s "MIT" ++ newline :: s "2020")).
  - vm_compute. reflexivity.
  - discriminate.
Defined.

(** X14.  In [extract_sections] the last header of a section wins: when
    the lines after it, up to the next header line or the end of the
    text, are not all blank, the section gets exactly those of them that
    are not blank, joined by newlines, and whatever earlier headers of
    the section had collected is lost. *)
Theorem extract_sections_last_header
  (pre : list str) (header : str) (content rest : list str) (sec : str) :
  Forall (λ l, newline ∉ l) (pre ++ header :: content ++ rest) →
  PDFParser.boundary header = Some sec →
  Forall (λ l, PDFParser.boundary l = None) content →
  (∃ l, l ∈ content ∧ strip l ≠ []) →
  (rest = [] ∨ ∃ b r, rest = b :: r ∧ is_Some (PDFParser.boundary b)) →
  Forall (λ l, PDFParser.boundary l ≠ Some sec) rest →
  PDFParser.extract_sections
    (join [newline] (pre ++ header :: content ++ rest))
  !! sec
  = Some (join [newline] (List.filter (λ l, truthy (strip l)) content)).
Proof.
  intros Hfree Hheader Hcontent (l & Hl & Hnb) Hrest Hlater.
  rewrite extract_sections_value by by eapply boundary_name.
  rewrite split_on_join; [|by destruct pre|done].
  unfold BlockSpec.value.
  destruct (blocks_of_app sec pre (header :: content ++ rest))
    as [earlier ->].
  cbn [BlockSpec.blocks_of]. rewrite bool_decide_eq_true_2 by done.
  rewrite blocks_of_none.
  2:{ apply Forall_app. split; [|done].
      eapply Forall_impl; [exact Hcontent|]. by intros ? ->. }
  rewrite block_content by done.
  rewrite List.filter_app. cbn [List.filter].
  assert (truthy (List.filter (λ l, truthy (strip l)) content) = true) as ->.
  { assert (l ∈ List.filter (λ l, truthy (strip l)) content) as Hin.
    { apply list_elem_of_In, filter_In. split; [by apply list_elem_of_In|].
      by destruct (strip l). }
    destruct (List.filter _ content); [by apply elem_of_nil in Hin|done]. }
  by rewrite last_snoc.
Qed.

Lemma extract_sections_last_header_witness :
  PDFParser.extract_sections
    (join [newline]
       ([s "Skills"; s "Python"]
        ++ s "SKILLS" :: [s "Rocq"; s " "; s "OCaml"] ++ [s "Projects"]))
  !! s "skills"
  = Some (join [newline]
            (List.filter (λ l, truthy (strip l)) [s "Rocq"; s " "; s "OCaml"])).
Proof.
  apply (extract_sections_last_header [s "Skills"; s "Python"] (s "SKILLS")
           [s "Rocq"; s " "; s "OCaml"] [s "Projects"] (s "skills")).
  - decide_compute.
  - vm_compute. reflexivity.
  - decide_compute.
  - exists (s "Rocq"). split; [left|discriminate].
  - right. exists (s "Projects"), []. split; [done|]. vm_compute. by eexists.
  - repeat constructor. vm_compute. discriminate.
Defined.

(** ** The tiers of [compare_scores] *)

Section Tiers.
Implicit Types (x : float).

Ltac spec_compare :=
  unfold ATSScorer.gt, ATSScorer.ge;
  rewrite ?FloatAxioms.ltb_spec, ?FloatAxioms.leb_spec;
  change (Prim2SF 30) with (S754_finite false 8444249301319680 (-48));
  change (Prim2SF 15) with (S754_finite false 8444249301319680 (-49));
  change (Prim2SF 5) with (S754_finite false 5629499534213120 (-50));
  change (Prim2SF 0) with (S754_zero false);
  unfold SFltb, SFleb.

Lemma gt_30_15 x : ATSScorer.gt x 30 = true → ATSScorer.gt x 15 = true.
Proof.
  spec_compare. destruct (Prim2SF x) as [sg|sg| |sg m e]; cbn [SFcompare];
    try done.
  destruct sg; [done|].
  destruct (Z.compare_spec (-48) e), (Z.compare_spec (-49) e); try done; lia.
Qed.

Lemma gt_15_5 x : ATSScorer.gt x 15 = true → ATSScorer.gt x 5 = true.
Proof.
  spec_compare. destruct (Prim2SF x) as [sg|sg| |sg m e]; cbn [SFcompare];
    try done.
  destruct sg; [done|].
  destruct (Z.compare_spec (-49) e), (Z.compare_spec (-50) e); try done; lia.
Qed.

Lemma gt_5_ge_0 x : ATSScorer.gt x 5 = true → ATSScorer.ge x 0 = true.
Proof.
  spec_compare. destruct (Prim2SF x) as [sg|sg| |sg m e]; cbn [SFcompare];
    try done; by destruct sg.
Qed.

Lemma below_zero x :
  PrimFloat.ltb x 0 = true →
  ATSScorer.gt x 5 = false ∧ ATSScorer.ge x 0 = false.
Proof.
  spec_compare. destruct (Prim2SF x) as [sg|sg| |sg m e]; cbn [SFcompare];
    try done; by destruct sg.
Qed.

Lemma not_a_number x :
  Prim2SF x = S754_nan →
  ATSScorer.gt x 5 = false ∧ ATSScorer.ge x 0 = false.
Proof. spec_compare. by intros ->. Qed.

Lemma compare_scores_low original enhanced :
  ATSScorer.gt (enhanced - original) 5 = false →
  ATSScorer.ge (enhanced - original) 0 = false →
  ATSScorer.compare_scores original enhanced
  = [Json.u "Score maintained from original version"].
Proof.
  intros H5 H0. unfold ATSScorer.compare_scores. cbv zeta.
  destruct (ATSScorer.gt (enhanced - original) 30) eqn:H30.
  { apply gt_30_15, gt_15_5 in H30. congruence. }
  destruct (ATSScorer.gt (enhanced - original) 15) eqn:H15.
  { apply gt_15_5 in H15. congruence. }
  by rewrite H5, H0.
Qed.

End Tiers.

(** X15.  [compare_scores] returns one message or two, and two exactly
    when the enhanced score exceeds the original by more than 5.  A
    difference that is negative, or that is not a number, gives the
    single message that the score was maintained: a drop of the score is
    not reported as one. *)
Theorem compare_scores_tiers (original_score enhanced_score : float) :
  let diff := (enhanced_score - original_score)%float in
  let result := ATSScorer.compare_scores original_score enhanced_score in
  (length result = 1%nat ∨ length result = 2%nat)
  ∧ (length result = 2%nat ↔ ATSScorer.gt diff 5 = true)
  ∧ (PrimFloat.ltb diff 0 = true →
     result = [Json.u "Score maintained from original version"])
  ∧ (Prim2SF diff = S754_nan →
     result = [Json.u "Score maintained from original version"]).
Proof.
  cbv zeta.
  assert (length (ATSScorer.compare_scores original_score enhanced_score)
          = if ATSScorer.gt (enhanced_score - original_score) 5
            then 2%nat else 1%nat) as Hlen.
  { unfold ATSScorer.compare_scores. cbv zeta.
    destruct (ATSScorer.gt (enhanced_score - original_score) 30) eqn:H30.
    { apply gt_30_15, gt_15_5 in H30. by rewrite H30. }
    destruct (ATSScorer.gt (enhanced_score - original_score) 15) eqn:H15.
    { apply gt_15_5 in H15. by rewrite H15. }
    destruct (ATSScorer.gt (enhanced_score - original_score) 5); [done|].
    by destruct (ATSScorer.ge (enhanced_score - original_score) 0). }
  split_and!.
  - rewrite Hlen. destruct (ATSScorer.gt _ _); auto.
  - rewrite Hlen. by destruct (ATSScorer.gt _ _).
  - intros [H5 H0]%below_zero. by apply compare_scores_low.
  - intros [H5 H0]%not_a_number. by apply compare_scores_low.
Qed.

Lemma compare_scores_tiers_witness :
  ATSScorer.compare_scores 80 62.5
  = [Json.u "Score maintained from original version"].
Proof.
  apply (proj1 (proj2 (proj2 (compare_scores_tiers 80 62.5)))).
  vm_compute. reflexivity.
Defined.

(** ** The values of the anchored-regex segmentation *)

Section SegmentValues.
Import SegmentSpec TokenSpec.
Implicit Types (t r text : str) (w : str) (p : phrase) (ps : list phrase).

Lemma skip_word_suffix w t r : skip_word w t = Some r → ∃ a, t = a ++ r.
Proof.
  revert t. induction w as [|c w IH]; intros t; simpl.
  - intros [= ->]. by exists [].
  - destruct t as [|b t]; [done|]. destruct (ci c b); [|done].
    intros [a ->]%IH. by exists (b :: a).
Qed.

Lemma skip_phrase_suffix p t r : skip_phrase p t = Some r → ∃ a, t = a ++ r.
Proof.
  revert t. induction p as [|w p IH]; intros t.
  - intros [= ->]. by exists [].
  - cbn [skip_phrase]. destruct p as [|w' p'].
    + apply skip_word_suffix.
    + destruct (skip_word w t) as [[|c r']|] eqn:Hw; [done| |done].
      destruct (isspace c); [|done]. intros [a Ha]%IH.
      apply skip_word_suffix in Hw as [a' ->].
      destruct (lstrip_decompose r') as [a'' Hr']. rewrite Ha in Hr'.
      exists (a' ++ c :: a'' ++ a). rewrite Hr' at 1.
      by rewrite <- !app_assoc, <- app_comm_cons, <- !app_assoc.
Qed.

Lemma header_at_suffix ps t r : header_at ps t = Some r → ∃ a, t = a ++ r.
Proof.
  induction ps as [|p ps IH]; [done|]. cbn [header_at].
  destruct (skip_phrase p t) eqn:Hp; [|done].
  intros [= ->]. by eapply skip_phrase_suffix.
Qed.

Lemma find_header_suffix ps t r : find_header ps t = Some r → ∃ a, t = a ++ r.
Proof.
  induction t as [|c t IH]; cbn [find_header].
  - destruct (header_at ps []) eqn:Hh; [|done].
    intros [= ->]. by eapply header_at_suffix.
  - destruct (header_at ps (c :: t)) eqn:Hh.
    + intros [= ->]. by eapply header_at_suffix.
    + intros [a ->]%IH. by exists (c :: a).
Qed.

Lemma until_stop_prefix ps t : ∃ b, t = until_stop ps t ++ b.
Proof.
  induction t as [|c t [b IH]]; cbn [until_stop].
  - destruct (stops_here ps []); by exists [].
  - destruct (stops_here ps (c :: t)); [by exists (c :: t)|].
    exists b. by rewrite <- app_comm_cons, <- IH.
Qed.

Lemma section_text_substring ps stops text :
  strip (section_text ps stops text) = section_text ps stops text
  ∧ substring (section_text ps stops text) text.
Proof.
  unfold section_text. destruct (find_header ps text) as [r|] eqn:Hr.
  - split; [apply strip_idem|].
    apply find_header_suffix in Hr as [a ->].
    destruct (until_stop_prefix stops r) as [b Hb].
    destruct (strip_decompose (until_stop stops r)) as (x & y & Hxy).
    exists (a ++ x), (y ++ b). rewrite Hb at 1. rewrite Hxy at 1.
    by rewrite <- !app_assoc.
  - split; [done|]. by exists [], text.
Qed.

Lemma section_table_names name :
  name ∈ dom Helpers.sections0 →
  ∃ i synonyms, section_table !! i = Some (name, synonyms).
Proof.
  rewrite helpers_sections0_dom.
  rewrite !elem_of_union, !elem_of_singleton.
  intros [[[[[->| ->]| ->]| ->]| ->]| ->].
  - by exists 0%nat, [[s "professional"; s "summary"]; [s "objective"];
                      [s "about"]; [s "profile"]].
  - by exists 1%nat, [[s "professional"; s "experience"];
                      [s "work"; s "history"]; [s "employment"]].
  - by exists 2%nat, [[s "education"]; [s "academic"]].
  - by exists 3%nat, [[s "skills"]; [s "technical"; s "skills"]].
  - by exists 4%nat, [[s "projects"]; [s "portfolio"];
                      [s "work"; s "samples"]].
  - by exists 5%nat, [[s "certification"]; [s "license"]].
Qed.

End SegmentValues.

(** X16.  [extract_text_sections] invents no text either: every value it
    returns occurs in the resume as one contiguous piece, in the case the
    resume has it, and has no white space at either end. *)
Theorem extract_text_sections_values (text : str) :
  ∃ m, Helpers.extract_text_sections text = Return m
       ∧ ∀ name v, m !! name = Some v →
                   strip v = v ∧ TokenSpec.substring v text.
Proof.
  exists (SegmentSpec.segments text).
  split; [apply extract_text_sections_segments|].
  intros name v Hv.
  assert (name ∈ dom Helpers.sections0) as Hname.
  { rewrite <- (segments_dom text). by apply elem_of_dom. }
  destruct (section_table_names name Hname) as (i & synonyms & Hi).
  rewrite (segments_lookup text i name synonyms Hi) in Hv.
  injection Hv as <-. apply section_text_substring.
Qed.

(** ** E-mail addresses and phone numbers *)

Section RxFacts.
Import Rx EmailSpec.
Context {R : Type}.
Implicit Types (k : option ascii → str → option R) (cls : ascii → bool)
  (prev : option ascii) (t a b : str) (y : R).

Lemma matches_seq r1 r2 k :
  matches (Seq r1 r2) k = matches r1 (matches r2 k).
Proof. reflexivity. Qed.

Lemma before_cons prev c a : before prev (c :: a) = before (Some c) a.
Proof.
  unfold before. destruct a as [|x a]; [done|].
  rewrite last_cons_cons. destruct (last (x :: a)) eqn:E; [done|].
  by apply last_None in E.
Qed.

Lemma star_sound cls k prev t y :
  star cls k prev t = Some y →
  ∃ a b, t = a ++ b ∧ Forall (λ c, cls c = true) a
         ∧ k (before prev a) b = Some y.
Proof.
  revert prev. induction t as [|c t IH]; intros prev; cbn [star].
  - intros H. by exists [], [].
  - destruct (cls c) eqn:Hc; [|intros H; by exists [], (c :: t)].
    destruct (star cls k (Some c) t) as [y'|] eqn:E.
    + intros [= ->]. destruct (IH _ E) as (a & b & -> & Ha & Hk).
      exists (c :: a), b. rewrite before_cons. by split_and!; [|constructor|].
    + intros H. by exists [], (c :: t).
Qed.

Lemma star_complete cls k prev a b :
  Forall (λ c, cls c = true) a →
  is_Some (k (before prev a) b) →
  is_Some (star cls k prev (a ++ b)).
Proof.
  intros Ha. revert prev. induction Ha as [|c a Hc _ IH]; intros prev Hk.
  - cbn [app]. destruct b as [|c b]; [done|]. cbn [star].
    destruct (cls c); [|done]. by destruct (star cls k (Some c) b).
  - cbn [app star]. rewrite Hc. rewrite before_cons in Hk.
    destruct (IH _ Hk) as [y ->]. by eexists.
Qed.

(** A greedy repetition whose longest run is accepted takes it. *)
Lemma star_greedy cls k prev a b y :
  Forall (λ c, cls c = true) a →
  (∀ c b', b = c :: b' → cls c = false) →
  k (before prev a) b = Some y →
  star cls k prev (a ++ b) = Some y.
Proof.
  intros Ha Hb. revert prev. induction Ha as [|c a Hc _ IH]; intros prev Hk.
  - cbn [app]. destruct b as [|c b]; [done|]. cbn [star].
    by rewrite (Hb c b eq_refl).
  - cbn [app star]. rewrite Hc. rewrite before_cons in Hk.
    by rewrite (IH _ Hk).
Qed.

Lemma at_least_sound n cls k prev t y :
  matches (at_least n cls) k prev t = Some y →
  ∃ a b, t = a ++ b ∧ (n ≤ length a)%nat ∧ Forall (λ c, cls c = true) a
         ∧ k (before prev a) b = Some y.
Proof.
  revert prev t. induction n as [|n IH]; intros prev t.
  - intros (a & b & -> & Ha & Hk)%star_sound. exists a, b.
    split_and!; [done|cbn; lia|done..].
  - cbn [at_least]. rewrite matches_seq. cbn [matches].
    destruct t as [|c t]; [done|]. destruct (cls c) eqn:Hc; [|done].
    intros (a & b & -> & Hn & Ha & Hk)%IH. exists (c :: a), b.
    rewrite before_cons. split_and!; [done|cbn; lia|by constructor|done].
Qed.

Lemma at_least_complete n cls k prev a b :
  (n ≤ length a)%nat → Forall (λ c, cls c = true) a →
  is_Some (k (before prev a) b) →
  is_Some (matches (at_least n cls) k prev (a ++ b)).
Proof.
  revert prev a. induction n as [|n IH]; intros prev a Hn Ha Hk.
  - by apply star_complete.
  - cbn [at_least]. rewrite matches_seq.
    destruct Ha as [|c a Hc Ha]; [cbn in Hn; lia|].
    cbn [matches app]. rewrite Hc. rewrite before_cons in Hk.
    apply IH; [cbn in Hn; lia|done..].
Qed.

Lemma at_least_greedy n cls k prev a b y :
  (n ≤ length a)%nat → Forall (λ c, cls c = true) a →
  (∀ c b', b = c :: b' → cls c = false) →
  k (before prev a) b = Some y →
  matches (at_least n cls) k prev (a ++ b) = Some y.
Proof.
  revert prev a. induction n as [|n IH]; intros prev a Hn Ha Hb Hk.
  - by apply star_greedy.
  - cbn [at_least]. rewrite matches_seq.
    destruct Ha as [|c a Hc Ha]; [cbn in Hn; lia|].
    cbn [matches app]. rewrite Hc. rewrite before_cons in Hk.
    apply IH; [cbn in Hn; lia|done..].
Qed.

Lemma one_chr_sound x k prev t y :
  matches (One (chr x)) k prev t = Some y →
  ∃ t', t = x :: t' ∧ k (Some x) t' = Some y.
Proof.
  cbn [matches]. destruct t as [|c t]; [done|]. unfold chr.
  destruct (Ascii.eqb_spec x c) as [->|]; [|done]. by exists t.
Qed.

Lemma one_chr x k prev t :
  matches (One (chr x)) k prev (x :: t) = k (Some x) t.
Proof. cbn [matches]. unfold chr. by rewrite Ascii.eqb_refl. Qed.

End RxFacts.

Section EmailFacts.
Import Rx EmailSpec TokenSpec.
Implicit Types (cls tld_cls : ascii → bool) (prev : option ascii)
  (t text email local domain tld rest : str).

(** The part that the two e-mail patterns share. *)
Lemma email_body_sound {R} tld_cls (k : option ascii → str → option R)
    prev t y :
  matches (plus Helpers.local_char)
    (matches (One (chr "@"))
       (matches (plus Helpers.domain_char)
          (matches (One (chr "."))
             (matches (at_least 2 tld_cls) k)))) prev t = Some y →
  ∃ email rest,
    t = email ++ rest ∧ address tld_cls email
    ∧ ∃ prev', k prev' rest = Some y.
Proof.
  change (plus Helpers.local_char) with (at_least 1 Helpers.local_char).
  change (plus Helpers.domain_char) with (at_least 1 Helpers.domain_char).
  intros (local & t1 & -> & Hl & Hlocal & H)%at_least_sound.
  apply one_chr_sound in H as (t2 & -> & H).
  apply at_least_sound in H as (domain & t3 & -> & Hd & Hdomain & H).
  apply one_chr_sound in H as (t4 & -> & H).
  apply at_least_sound in H as (tld & rest & -> & Ht & Htld & H).
  exists (local ++ "@" :: domain ++ "." :: tld), rest. split_and!.
  - by rewrite <- !app_assoc, <- !app_comm_cons, <- !app_assoc.
  - exists local, domain, tld.
    split_and!; try done; intros ->; cbn in *; lia.
  - by eexists.
Qed.

Lemma email_body_complete {R} tld_cls (k : option ascii → str → option R)
    prev email rest :
  address tld_cls email →
  (∀ prev', is_Some (k prev' rest)) →
  is_Some
    (matches (plus Helpers.local_char)
       (matches (One (chr "@"))
          (matches (plus Helpers.domain_char)
             (matches (One (chr "."))
                (matches (at_least 2 tld_cls) k)))) prev (email ++ rest)).
Proof.
  change (plus Helpers.local_char) with (at_least 1 Helpers.local_char).
  change (plus Helpers.domain_char) with (at_least 1 Helpers.domain_char).
  intros (local & domain & tld & -> & Hl & Hlocal & Hd & Hdomain & Ht & Htld)
    Hk.
  rewrite <- !app_assoc, <- !app_comm_cons, <- !app_assoc.
  apply at_least_complete; [by destruct local; [|cbn; lia]|done|].
  rewrite one_chr.
  rewrite <- app_comm_cons.
  apply at_least_complete; [by destruct domain; [|cbn; lia]|done|].
  rewrite one_chr.
  by apply at_least_complete.
Qed.

Lemma validate_email_spec email :
  Helpers.validate_email email = true
  ↔ address letter email ∨ ∃ e, email = e ++ [newline] ∧ address letter e.
Proof.
  unfold Helpers.validate_email, rmatch, match_at, Helpers.email_pattern, seq.
  cbn [fold_right]. rewrite !matches_seq.
  change (matches Bol ?k None email) with (k None email).
  split.
  - destruct (matches _ _ _ _) as [y|] eqn:E; [intros _|done].
    apply email_body_sound in E as (e & rest & -> & He & prev' & Hk).
    cbn [matches] in Hk. destruct (Re.at_end rest) eqn:Hend; [|done].
    destruct rest as [|c [|c' rest]]; [| |done].
    + left. by rewrite app_nil_r.
    + right. exists e. split; [|done]. cbn in Hend.
      by apply Ascii.eqb_eq in Hend as ->.
  - intros H.
    assert (∃ e rest, email = e ++ rest ∧ address letter e
                      ∧ Re.at_end rest = true) as (e & rest & -> & He & Hend).
    { destruct H as [H|(e & -> & H)].
      - exists email, []. by rewrite app_nil_r.
      - by exists e, [newline]. }
    destruct (email_body_complete letter
                (matches Eol (matches Eps
                   (λ _ rest0, Some (Re.consumed (e ++ rest) rest0))))
                None e rest He) as [y Hy].
    + intros prev'. cbn [matches]. by rewrite Hend.
    + by rewrite Hy.
Qed.

Lemma search_from_sound r prev t m :
  search_from r prev t = Some m →
  ∃ pre t', t = pre ++ t' ∧ match_at r (before prev pre) t' = Some m.
Proof.
  revert prev. induction t as [|c t IH]; intros prev; cbn [search_from].
  - destruct (match_at r prev []) eqn:E; [|done].
    intros [= ->]. by exists [], [].
  - destruct (match_at r prev (c :: t)) eqn:E.
    + intros [= ->]. by exists [], (c :: t).
    + intros (pre & t' & -> & H)%IH. exists (c :: pre), t'.
      by rewrite before_cons.
Qed.

Lemma search_from_none r prev pre t :
  search_from r prev (pre ++ t) = None →
  match_at r (before prev pre) t = None.
Proof.
  revert prev. induction pre as [|c pre IH]; intros prev.
  - cbn [app]. unfold before. cbn [last].
    destruct t; cbn [search_from]; by destruct (match_at r prev _).
  - cbn [app search_from]. destruct (match_at r prev _); [done|].
    rewrite before_cons. apply IH.
Qed.

Lemma address_at email tld_cls :
  address tld_cls email → "@" ∈ email.
Proof.
  intros (local & domain & tld & -> & _). apply elem_of_app. right. left.
Qed.

Lemma extract_email_found text :
  PDFParser.extract_email text = []
  ∨ address PDFParser.tld_char (PDFParser.extract_email text)
    ∧ substring (PDFParser.extract_email text) text.
Proof.
  unfold PDFParser.extract_email, first_found. cbv zeta.
  destruct (search_from _ _ _) as [m|] eqn:E; [|by left]. right.
  apply search_from_sound in E as (pre & t' & -> & E).
  set (prev' := before None pre) in E. clearbody prev'.
  unfold match_at, PDFParser.email_pattern, seq in E.
  cbn [fold_right] in E. rewrite !matches_seq in E.
  change (matches WordB ?k prev' t')
    with (if at_boundary prev' t' then k prev' t' else None) in E.
  destruct (at_boundary prev' t'); [|done].
  apply email_body_sound in E as (e & rest & -> & He & prev'' & Hk).
  cbn [matches] in Hk. destruct (at_boundary prev'' rest); [|done].
  injection Hk as <-. rewrite consumed_app. split; [done|].
  by exists pre, rest.
Qed.

Lemma tld_letter c :
  PDFParser.tld_char c = true → c ≠ "|" → letter c = true.
Proof.
  unfold PDFParser.tld_char. intros [H|H%Ascii.eqb_eq]%orb_true_iff; done.
Qed.

Lemma address_no_bar email :
  address letter email → "|" ∉ email.
Proof.
  intros (local & domain & tld & -> & _ & Hlocal & _ & Hdomain & _ & Htld).
  rewrite elem_of_app, elem_of_cons, elem_of_app, elem_of_cons.
  rewrite Forall_forall in Hlocal, Hdomain, Htld.
  intros [H|[H|[H|[H|H]]]]; try done.
  - by apply Hlocal in H.
  - by apply Hdomain in H.
  - by apply Htld in H.
Qed.

End EmailFacts.

(** X17.  [validate_email] accepts exactly the strings of the form
    [local@domain.tld], where the local part is a non-empty run of ASCII
    letters, digits and the characters [._%+-], the domain a non-empty
    run of ASCII letters, digits, dots and hyphens, and the last label
    two or more ASCII letters; and those strings followed by one newline,
    which the end anchor lets through. *)
Theorem validate_email_address (email : str) :
  Helpers.validate_email email = true
  ↔ EmailSpec.address Rx.letter email
    ∨ ∃ e, email = e ++ [newline] ∧ EmailSpec.address Rx.letter e.
Proof. apply validate_email_spec. Qed.

(** X18.  What [extract_email] returns is empty or a piece of the text of
    the form [local@domain.tld], whose last label may hold bars beside
    letters; it is empty when the text has no at sign.  An extracted
    address passes [validate_email] exactly when it holds no bar. *)
Theorem extract_email_address (text : str) :
  (PDFParser.extract_email text = []
   ∨ EmailSpec.address PDFParser.tld_char (PDFParser.extract_email text)
     ∧ TokenSpec.substring (PDFParser.extract_email text) text)
  ∧ ("@" ∉ text → PDFParser.extract_email text = [])
  ∧ (PDFParser.extract_email text ≠ [] →
     (Helpers.validate_email (PDFParser.extract_email text) = true
      ↔ "|" ∉ PDFParser.extract_email text)).
Proof.
  pose proof (extract_email_found text) as Hfound. split_and!.
  - done.
  - intros Hat. destruct Hfound as [H|[Ha (pre & post & E)]]; [done|].
    exfalso. apply Hat. rewrite E. apply elem_of_app. right.
    apply elem_of_app. left. by eapply address_at.
  - intros Hne. destruct Hfound as [H|[Ha _]]; [done|].
    rewrite validate_email_spec. split.
    + intros [H|(e & E & H)].
      * by apply address_no_bar.
      * rewrite E. apply address_no_bar in H.
        rewrite elem_of_app, elem_of_cons, elem_of_nil. by intros [?|[?|?]].
    + intros Hbar. left.
      destruct Ha as (local & domain & tld & E & Hl & Hlocal & Hd & Hdomain
                      & Ht & Htld).
      exists local, domain, tld. split_and!; try done.
      apply Forall_forall. intros c Hc. rewrite Forall_forall in Htld.
      apply tld_letter; [by apply Htld|]. intros ->. apply Hbar.
      rewrite E. apply elem_of_app. right. right.
      apply elem_of_app. right. by right.
Qed.

Section PhoneFacts.
Import Rx EmailSpec.
Implicit Types (cls : ascii → bool) (prev : option ascii) (t run rest : str).

Lemma opt_skip {R} cls (k : option ascii → str → option R) prev c t :
  cls c = false → matches (Opt cls) k prev (c :: t) = k prev (c :: t).
Proof. intros H. cbn [matches]. by rewrite H. Qed.

Lemma opt_take {R} cls (k : option ascii → str → option R) prev c t y :
  cls c = true → k (Some c) t = Some y →
  matches (Opt cls) k prev (c :: t) = Some y.
Proof. intros H Hk. cbn [matches]. by rewrite H, Hk. Qed.

Lemma at_least_fail {R} n cls (k : option ascii → str → option R) prev c t :
  cls c = false → matches (at_least (S n) cls) k prev (c :: t) = None.
Proof.
  intros H. cbn [at_least]. rewrite matches_seq. cbn [matches]. by rewrite H.
Qed.

Lemma phone_no_match prev c t :
  PDFParser.phone_char c = false → c ≠ "+" →
  match_at PDFParser.phone_pattern prev (c :: t) = None.
Proof.
  intros Hc Hplus. unfold match_at, PDFParser.phone_pattern, seq.
  cbn [fold_right]. rewrite !matches_seq.
  rewrite opt_skip by (unfold chr; by destruct (Ascii.eqb_spec "+" c)).
  by apply at_least_fail.
Qed.

Lemma phone_run prev run rest :
  Forall (λ c, PDFParser.phone_char c = true) run → (10 ≤ length run)%nat →
  (∀ c r, rest = c :: r → PDFParser.phone_char c = false) →
  match_at PDFParser.phone_pattern prev (run ++ rest) = Some run.
Proof.
  intros Hrun Hlen Hrest. unfold match_at, PDFParser.phone_pattern, seq.
  cbn [fold_right]. rewrite !matches_seq.
  assert (matches (at_least 10 PDFParser.phone_char)
            (matches Eps (λ _ rest0, Some (Re.consumed (run ++ rest) rest0)))
            prev (run ++ rest) = Some run) as Hgreedy.
  { apply at_least_greedy; [done..|]. cbn [matches]. by rewrite consumed_app. }
  destruct run as [|c run]; [cbn in Hlen; lia|].
  rewrite <- app_comm_cons in *. rewrite opt_skip; [done|].
  unfold chr. destruct (Ascii.eqb_spec "+" c) as [E|_]; [|done].
  subst c. by inversion Hrun.
Qed.

Lemma phone_signed_run prev run rest :
  Forall (λ c, PDFParser.phone_char c = true) run → (10 ≤ length run)%nat →
  (∀ c r, rest = c :: r → PDFParser.phone_char c = false) →
  match_at PDFParser.phone_pattern prev ("+" :: run ++ rest)
  = Some ("+" :: run).
Proof.
  intros Hrun Hlen Hrest. unfold match_at, PDFParser.phone_pattern, seq.
  cbn [fold_right]. rewrite !matches_seq.
  apply opt_take; [done|].
  apply at_least_greedy; [done..|]. cbn [matches].
  by rewrite app_comm_cons, consumed_app.
Qed.

Lemma search_from_skip prev pre t :
  Forall (λ c, PDFParser.phone_char c = false ∧ c ≠ "+") pre →
  search_from PDFParser.phone_pattern prev (pre ++ t)
  = search_from PDFParser.phone_pattern (before prev pre) t.
Proof.
  intros Hpre. revert prev. induction Hpre as [|c pre [Hc Hplus] _ IH];
    intros prev; [done|].
  cbn [app search_from]. rewrite phone_no_match by done.
  by rewrite IH, before_cons.
Qed.

Lemma search_from_here r prev t m :
  match_at r prev t = Some m → search_from r prev t = Some m.
Proof. intros H. destruct t; cbn [search_from]; by rewrite H. Qed.

End PhoneFacts.



(** ** Whole-word counts *)

Section CountFacts.
Import Rx EmailSpec WordSpec.
Implicit Types (prev : option ascii) (t kw text keyword : str).

Lemma literal_match {R} kw (rs : list regex)
    (k : option ascii → str → option R) prev t y :
  matches (seq (map (λ c, One (chr c)) kw ++ rs)) k prev t = Some y
  ↔ ∃ b, t = kw ++ b ∧ matches (seq rs) k (before prev kw) b = Some y.
Proof.
  revert prev t. induction kw as [|c kw IH]; intros prev t.
  - cbn [map app]. split; [by exists t|by intros (b & -> & H)].
  - cbn [map app seq fold_right]. rewrite matches_seq. split.
    + intros (t' & -> & H)%one_chr_sound.
      apply IH in H as (b & -> & H). exists b. by rewrite before_cons.
    + intros (b & -> & H). cbn [app]. rewrite one_chr.
      apply IH. exists b. by rewrite before_cons in H.
Qed.

Lemma keyword_match kw prev t m :
  match_at (Helpers.keyword_pattern kw) prev t = Some m
  ↔ ∃ b, t = kw ++ b ∧ m = kw
         ∧ at_boundary prev t = true
         ∧ at_boundary (before prev kw) b = true.
Proof.
  unfold match_at, Helpers.keyword_pattern.
  change (seq ([WordB] ++ ?l)) with (Seq WordB (seq l)).
  rewrite matches_seq.
  change (matches WordB ?k prev t)
    with (if at_boundary prev t then k prev t else None).
  destruct (at_boundary prev t).
  - rewrite literal_match. split.
    + intros (b & -> & H). exists b. cbn in H.
      destruct (at_boundary _ b); [|done]. injection H as <-.
      by rewrite consumed_app.
    + intros (b & -> & -> & _ & Hb). exists b. split; [done|]. cbn.
      by rewrite Hb, consumed_app.
  - split; [done|]. by intros (b & _ & _ & ? & _).
Qed.

Lemma findall_nil r prev t :
  findall_from r prev t 0 = [] ↔ search_from r prev t = None.
Proof.
  revert prev. induction t as [|c t IH]; intros prev;
    cbn [findall_from search_from];
    destruct (match_at r prev _); done || apply IH.
Qed.

Lemma count_lookup (f : str → nat) (l : list str) (m : gmap str nat)
    (key : str) :
  fold_left (λ (d : gmap str nat) k, <[k := f k]> d) l m !! key
  = if decide (key ∈ l) then Some (f key) else m !! key.
Proof.
  revert m. induction l as [|k l IH]; intros m; [done|].
  cbn [fold_left]. rewrite IH.
  destruct (decide (key ∈ l)) as [Hin|Hin].
  - rewrite decide_True; [done|by right].
  - destruct (decide (key = k)) as [->|Hne].
    + rewrite decide_True by left. by rewrite lookup_insert_eq.
    + rewrite decide_False; [by rewrite lookup_insert_ne|].
      by intros [?|?]%elem_of_cons.
Qed.

Lemma count_keywords_lookup text (keywords : list str) keyword :
  Helpers.count_keywords text keywords !! keyword
  = if decide (keyword ∈ keywords)
    then Some (length (findall (Helpers.keyword_pattern (lower keyword))
                         (lower text)))
    else None.
Proof.
  unfold Helpers.count_keywords. cbv zeta.
  rewrite (count_lookup
             (λ k, length (findall (Helpers.keyword_pattern (lower k))
                             (lower text)))).
  by destruct (decide _).
Qed.

Lemma no_match_whole_word kw t :
  findall (Helpers.keyword_pattern kw) t = [] ↔ ¬ whole_word kw t.
Proof.
  unfold findall. rewrite findall_nil. split.
  - intros Hnone (a & b & -> & Ha & Hb).
    apply search_from_none in Hnone.
    assert (match_at (Helpers.keyword_pattern kw) (before None a) (kw ++ b)
            = Some kw) as Hm; [|congruence].
    apply keyword_match. exists b. split_and!; try done.
    all: unfold before in *; by destruct (last a).
  - intros Hno.
    destruct (search_from _ None t) as [m|] eqn:E; [|done].
    apply search_from_sound in E as (a & t' & -> & E).
    apply keyword_match in E as (b & -> & -> & Ha & Hb).
    destruct Hno. exists a, b. split_and!; try done.
    all: unfold before in *; by destruct (last a).
Qed.

(** Every occurrence of [kw] in [t], checked by running over [t]. *)
Lemma occurrences_check kw t (check : str → bool) :
  forallb (λ i, implb (startswith (drop i t) kw)
                  (check (drop (i + length kw) t)))
    (List.seq 0 (S (length t))) = true →
  ∀ a b, t = a ++ kw ++ b → check b = true.
Proof.
  intros Hall a b ->. rewrite forallb_forall in Hall.
  specialize (Hall (length a)).
  rewrite drop_app_length in Hall.
  replace (drop (length a + length kw) (a ++ kw ++ b)) with b in Hall.
  2:{ rewrite <- drop_drop, drop_app_length. by rewrite drop_app_length. }
  assert (startswith (kw ++ b) kw = true) as Hs
    by (apply startswith_spec; by exists b).
  rewrite Hs in Hall. apply Hall, in_seq. rewrite length_app. lia.
Qed.

End CountFacts.

(** X20.  [count_keywords] counts whole words only: the count it gives a
    keyword is zero exactly when the lower-cased keyword stands nowhere in
    the lower-cased text between two word boundaries; and its keys are
    the keywords it was given, as they were given. *)
Theorem count_keywords_whole_words (text : str) (keywords : list str)
    (keyword : str) :
  keyword ∈ keywords →
  (∃ n, Helpers.count_keywords text keywords !! keyword = Some n
        ∧ (n = 0%nat
           ↔ ¬ WordSpec.whole_word (lower keyword) (lower text)))
  ∧ (∀ k, is_Some (Helpers.count_keywords text keywords !! k)
          ↔ k ∈ keywords).
Proof.
  intros Hin. split.
  - eexists. split.
    + rewrite count_keywords_lookup. by rewrite decide_True.
    + rewrite <- no_match_whole_word. by destruct (Rx.findall _ _).
  - intros k. rewrite count_keywords_lookup.
    destruct (decide (k ∈ keywords)); [by split; [|eexists]|].
    split; [by intros [? ?]|done].
Qed.

Lemma count_keywords_whole_words_witness :
  (∃ n, Helpers.count_keywords (s "JavaScript and Java") [s "java"]
        !! s "java" = Some n
        ∧ (n = 0%nat
           ↔ ¬ WordSpec.whole_word (lower (s "java"))
                 (lower (s "JavaScript and Java"))))
  ∧ (∀ k, is_Some (Helpers.count_keywords (s "JavaScript and Java")
                     [s "java"] !! k)
          ↔ k ∈ [s "java"]).
Proof.
  apply (count_keywords_whole_words (s "JavaScript and Java") [s "java"]
           (s "java")).
  left.
Defined.

(** X21.  A keyword whose last character is no word character is counted
    only where a word character follows it directly: if that is nowhere
    the case in the text, its count is zero, however often the keyword
    occurs. *)
Theorem count_keywords_edge (text : str) (keywords : list str)
    (keyword : str) (c : ascii) :
  keyword ∈ keywords →
  last (lower keyword) = Some c →
  ReClass.isword c = false →
  (∀ a b, lower text = a ++ lower keyword ++ b →
          Rx.word_at (head b) = false) →
  Helpers.count_keywords text keywords !! keyword = Some 0%nat.
Proof.
  intros Hin Hlast Hc Hfollow.
  rewrite count_keywords_lookup, decide_True by done.
  assert (Rx.findall (Helpers.keyword_pattern (lower keyword)) (lower text)
          = []) as ->; [|done].
  apply no_match_whole_word. intros (a & b & E & _ & Hb).
  unfold EmailSpec.before in Hb. rewrite Hlast in Hb.
  unfold Rx.at_boundary in Hb. cbn [Rx.word_at] in Hb.
  by rewrite Hc, (Hfollow a b E) in Hb.
Qed.

Lemma count_keywords_edge_witness :
  Helpers.count_keywords (s "Ten years of C++ and C++ tooling") [s "C++"]
  !! s "C++" = Some 0%nat.
Proof.
  apply (count_keywords_edge (s "Ten years of C++ and C++ tooling")
           [s "C++"] (s "C++") "+").
  - left.
  - reflexivity.
  - reflexivity.
  - intros a b E.
    apply (occurrences_check (lower (s "C++"))
             (lower (s "Ten years of C++ and C++ tooling"))
             (λ b, negb (Rx.word_at (head b)))
             ltac:(vm_compute; reflexivity) a b) in E.
    by apply negb_true_iff in E.
Defined.
